(** * Live-analyst audio utilities: PCM encode / decode pipeline

    A shallow embedding of [utils/audioUtils.ts]: the base64 helpers
    ([base64ToUint8Array], [arrayBufferToBase64]), the block-averaging
    resampler ([downsampleBuffer]), the encoder ([createPcmBlob]) and the
    decoder ([decodeAudioData]).

    Modelling conventions.
    - A finite JavaScript number is the rational [Q] it denotes.
      Integer-valued numbers (lengths, offsets, sample rates, 16-bit
      samples) are [Z], [nat] or [positive].
    - The resampler is given twice.  [IEEE.downsampleBuffer] has the
      arithmetic of the program: an operation on numbers rounds its exact
      result to binary64 and a store into a [Float32Array] rounds to
      binary32 ([IEEE.round]); the statements about the length of the
      output and about the windows are about it.  [downsampleBuffer] is the
      same code with exact arithmetic; it carries the statements in which
      rounding plays no part (the identity, the number of iterations,
      constant and bounded input, zero stuffing) and those about the
      encoder and the decoder, which are relative to the resampled block.
      Quantization and decoding are exact on binary32 and 16-bit values.
    - A [Float32Array] of finite samples is a [list Q]; an [Int16Array] is a
      [list Z]; a [Uint8Array] / [ArrayBuffer] is a [list byte].  Element
      stores are stdpp's [<[i:=v]>], which like a typed array ignores a
      store past the end.
    - A JavaScript string is the list of its code units; only code units
      below 256 occur in this program, so a string is a [list ascii].
    - A call that can throw returns a [completion].

    The development also covers three pieces of the interface code that
    surround the audio utilities: the file name of a downloaded transcript
    ([handleDownload] of [UploadSession.tsx]), the lookup of the key
    ([getApiKey]) and the release of the audio resources ([cleanupAudio] of
    [LiveSession.tsx]).  Their strings are lists of UTF-16 code units. *)

From Stdlib Require Import ZArith NArith QArith Qround Qabs Qminmax Qpower Lia Lqa List.
From Stdlib.Strings Require Import String Ascii Byte.
From Stdlib Require Import DecimalString.
From Equations Require Import Equations.
From stdpp Require Import base list.
Import ListNotations.

(** ** Exceptions *)

Inductive exn : Type :=
| RangeError
| InvalidCharacterError
| NotSupportedError
| IndexSizeError.

(** The outcome of a call: a value, or a thrown exception. *)
Inductive completion (A : Type) : Type :=
| Ok (a : A)
| Throw (e : exn).

Arguments Ok {A} a.
Arguments Throw {A} e.

#[global] Instance completion_bind : MBind completion :=
  fun A B f m => match m with Ok a => f a | Throw e => Throw e end.

(** ** Counted loops

    [for (let i = lo; i < hi; i++) body] over an integer bound. *)

Definition for_range {S : Type} (lo hi : nat) (body : nat -> S -> S) (s : S) : S :=
  fold_left (fun st i => body i st) (seq lo (hi - lo)) s.

(** The byte whose value is [n] modulo 256. *)
Definition byte_of_N (n : N) : byte :=
  match Byte.of_N (n mod 256) with
  | Some b => b
  | None => x00
  end.

(** ** ECMAScript and WebIDL number conversions *)

Module JS.

(** [Math.round]: nearest integer, ties towards +infinity. *)
Definition Math_round (x : Q) : Z := Qfloor (x + (1 # 2)).

Definition Math_max (a b : Q) : Q := Qmax a b.
Definition Math_min (a b : Q) : Q := Qmin a b.

(** [x < y] on numbers. *)
Definition ltb (x y : Q) : bool := negb (Qle_bool y x).

(** Truncation towards zero (the integer part used by ToInt16 and by the
    WebIDL integer conversions). *)
Definition trunc (x : Q) : Z := Z.quot (Qnum x) (Zpos (Qden x)).

(** ToInt16, applied by a store into an [Int16Array]: truncate, reduce
    modulo 2^16, and read the result as a signed 16-bit integer. *)
Definition ToInt16 (x : Q) : Z :=
  let int16bit := (trunc x mod 65536)%Z in
  if (32768 <=? int16bit)%Z then (int16bit - 65536)%Z else int16bit.

(** WebIDL conversion to [unsigned long] (no [EnforceRange], no [Clamp]):
    truncate and reduce modulo 2^32.  A non-finite number, here [None],
    converts to 0. *)
Definition to_unsigned_long (x : option Q) : Z :=
  match x with
  | Some q => (trunc q mod 4294967296)%Z
  | None => 0%Z
  end.

(** Division of two integer-valued numbers; the result is not finite
    ([Infinity] or [NaN]) when the divisor is zero. *)
Definition div (a b : Z) : option Q :=
  if (b =? 0)%Z then None else Some (inject_Z a / inject_Z b)%Q.

End JS.

(** ** The platform's [btoa] and [atob]

    These two functions are browser built-ins, not code of the repository.
    They are modelled after their definition in the HTML standard
    (forgiving-base64 encode and decode, RFC 4648 section 4). *)

Module Base64.

Definition alphabet : list ascii :=
  list_ascii_of_string
    "ABCDEFGHIJKLMNOPQRSTUVWXYZabcdefghijklmnopqrstuvwxyz0123456789+/".

Definition pad : ascii := "="%char.

(** The character of a 6-bit value. *)
Definition symbol (n : N) : ascii := nth (N.to_nat n) alphabet pad.

Fixpoint index_from (i : N) (l : list ascii) (c : ascii) : option N :=
  match l with
  | [] => None
  | x :: l' => if Ascii.eqb x c then Some i else index_from (N.succ i) l' c
  end.

(** The 6-bit value of a character, if it is in the alphabet. *)
Definition value (c : ascii) : option N := index_from 0 alphabet c.

(** Encoding: three bytes give four characters; a final group of one or
    two bytes is completed with zero bits and padded. *)
Fixpoint encode (bs : list byte) : list ascii :=
  match bs with
  | [] => []
  | [a] =>
      let n := (Byte.to_N a * 16)%N in
      [symbol (n / 64); symbol (n mod 64); pad; pad]
  | [a; b] =>
      let n := ((Byte.to_N a * 256 + Byte.to_N b) * 4)%N in
      [symbol (n / 4096); symbol (n / 64 mod 64); symbol (n mod 64); pad]
  | a :: b :: c :: rest =>
      let n := (Byte.to_N a * 65536 + Byte.to_N b * 256 + Byte.to_N c)%N in
      symbol (n / 262144) :: symbol (n / 4096 mod 64)
        :: symbol (n / 64 mod 64) :: symbol (n mod 64) :: encode rest
  end.

(** Decoding of unpadded data: four characters give three bytes; two
    trailing characters give one byte and three give two, the surplus bits
    being discarded.  A character outside the alphabet, or a single
    trailing character, is a failure. *)
Fixpoint decode (cs : list ascii) : option (list byte) :=
  match cs with
  | [] => Some []
  | [_] => None
  | [c0; c1] =>
      match value c0, value c1 with
      | Some v0, Some v1 =>
          let n := (v0 * 64 + v1)%N in
          Some [byte_of_N (n / 16)]
      | _, _ => None
      end
  | [c0; c1; c2] =>
      match value c0, value c1, value c2 with
      | Some v0, Some v1, Some v2 =>
          let n := ((v0 * 64 + v1) * 64 + v2)%N in
          Some [byte_of_N (n / 1024); byte_of_N (n / 4)]
      | _, _, _ => None
      end
  | c0 :: c1 :: c2 :: c3 :: rest =>
      match value c0, value c1, value c2, value c3, decode rest with
      | Some v0, Some v1, Some v2, Some v3, Some bs =>
          let n := (((v0 * 64 + v1) * 64 + v2) * 64 + v3)%N in
          Some (byte_of_N (n / 65536) :: byte_of_N (n / 256)
                  :: byte_of_N n :: bs)
      | _, _, _, _, _ => None
      end
  end.

(** ASCII whitespace: TAB, LF, FF, CR and SPACE. *)
Definition is_whitespace (c : ascii) : bool :=
  let n := N_of_ascii c in
  ((n =? 9) || (n =? 10) || (n =? 12) || (n =? 13) || (n =? 32))%N.

(** Removes at most [n] leading padding characters. *)
Fixpoint strip_pad (n : nat) (r : list ascii) : list ascii :=
  match n, r with
  | S n', c :: r' => if Ascii.eqb c pad then strip_pad n' r' else r
  | _, _ => r
  end.

(** When the length is a multiple of four, one or two padding characters
    at the end are removed. *)
Definition remove_padding (data : list ascii) : list ascii :=
  if (length data mod 4 =? 0)%nat
  then rev (strip_pad 2 (rev data))
  else data.

(** A character of the encoding: a symbol of the alphabet. *)
Definition is_symbol (c : ascii) : Prop := exists n, (n < 64)%N /\ c = symbol n.

(** The encoding without its padding, and the padding: [encode] is their
    concatenation (lemma [encode_split]). *)
Fixpoint body (bs : list byte) : list ascii :=
  match bs with
  | [] => []
  | [a] =>
      let n := (Byte.to_N a * 16)%N in
      [symbol (n / 64); symbol (n mod 64)]
  | [a; b] =>
      let n := ((Byte.to_N a * 256 + Byte.to_N b) * 4)%N in
      [symbol (n / 4096); symbol (n / 64 mod 64); symbol (n mod 64)]
  | a :: b :: c :: rest =>
      let n := (Byte.to_N a * 65536 + Byte.to_N b * 256 + Byte.to_N c)%N in
      symbol (n / 262144) :: symbol (n / 4096 mod 64)
        :: symbol (n / 64 mod 64) :: symbol (n mod 64) :: body rest
  end.

Definition padding (bs : list byte) : list ascii :=
  match (length bs mod 3)%nat with
  | 1%nat => [pad; pad]
  | 2%nat => [pad]
  | _ => []
  end.

(** [btoa]: the argument is a binary string (every code unit below 256,
    which the type [ascii] guarantees). *)
Definition btoa (s : list ascii) : list ascii :=
  encode (map byte_of_ascii s).

(** [atob]: throws [InvalidCharacterError] on data that is not base64. *)
Definition atob (data : list ascii) : completion (list ascii) :=
  let data := List.filter (fun c => negb (is_whitespace c)) data in
  let data := remove_padding data in
  match decode data with
  | Some bs => Ok (map ascii_of_byte bs)
  | None => Throw InvalidCharacterError
  end.

End Base64.

(** ** [base64ToUint8Array] and [arrayBufferToBase64] *)

(** [String.fromCharCode(bytes[i])]; a read past the end is [undefined],
    whose character code is 0. *)
Definition fromCharCode (b : option byte) : ascii :=
  match b with
  | Some b => ascii_of_byte b
  | None => ascii_of_byte x00
  end.

(** [bytes[i] = s.charCodeAt(i)] on a [Uint8Array]: the stored value of a
    code unit below 256 is the code unit; [charCodeAt] past the end is
    [NaN], stored as 0. *)
Definition charCodeAt_u8 (s : list ascii) (i : nat) : byte :=
  match s !! i with
  | Some c => byte_of_ascii c
  | None => x00
  end.

Definition base64ToUint8Array (base64 : list ascii) : completion (list byte) :=
  binaryString ← Base64.atob base64;
  let len := length binaryString in
  let bytes := replicate len x00 in
  Ok (for_range 0 len
        (fun i bytes => <[i := charCodeAt_u8 binaryString i]> bytes) bytes).

Definition arrayBufferToBase64 (buffer : list byte) : list ascii :=
  let binary : list ascii := [] in
  let bytes := buffer in
  let len := length bytes in
  let binary :=
    for_range 0 len (fun i binary => binary ++ [fromCharCode (bytes !! i)]) binary in
  Base64.btoa binary.

(** ** Typed-array views over a byte buffer *)

(** The two bytes of a 16-bit element: two's complement, in the byte order
    of the platform, which is little-endian. *)
Definition int16_bytes (k : Z) : list byte :=
  let u := (k mod 65536)%Z in
  [byte_of_N (Z.to_N (u mod 256)); byte_of_N (Z.to_N (u / 256))].

(** [int16.buffer]: the bytes behind an [Int16Array]. *)
Definition Int16Array_buffer (int16 : list Z) : list byte :=
  flat_map int16_bytes int16.

Definition int16_of_bytes (lo hi : byte) : Z :=
  let u := (Z.of_N (Byte.to_N lo) + 256 * Z.of_N (Byte.to_N hi))%Z in
  if (32768 <=? u)%Z then (u - 65536)%Z else u.

Fixpoint int16_view (bs : list byte) : list Z :=
  match bs with
  | lo :: hi :: rest => int16_of_bytes lo hi :: int16_view rest
  | _ => []
  end.

(** [new Int16Array(buffer)]: throws a [RangeError] when the byte length of
    the buffer is not a multiple of 2.  (The decoder passes [data.buffer];
    the arrays it is given cover their whole buffer.) *)
Definition new_Int16Array (buffer : list byte) : completion (list Z) :=
  if (length buffer mod 2 =? 0)%nat then Ok (int16_view buffer)
  else Throw RangeError.

(** ** [downsampleBuffer] *)

(** [buffer[i]] on a [Float32Array] of finite samples.  Every read of the
    program is guarded by [i < buffer.length]. *)
Definition f32_get (buffer : list Q) (i : nat) : Q := default 0%Q (buffer !! i).

(** The three variables of the main loop. *)
Record LoopState : Type := mkLoopState {
  offsetResult : Z;
  offsetBuffer : Z;
  result : list Q
}.

(** The inner loop
    [for (i = offsetBuffer; i < nextOffsetBuffer && i < buffer.length; i++)]
    that accumulates [accum] and [count]: its two guards bound [i] by the
    smaller of [nextOffsetBuffer] and [buffer.length].  (An offset is a
    rounded non-negative number, hence never negative.) *)
Definition window_accum (buffer : list Q) (offsetBuffer nextOffsetBuffer : Z) : Q * Z :=
  let stop := Z.min nextOffsetBuffer (Z.of_nat (length buffer)) in
  for_range (Z.to_nat offsetBuffer) (Z.to_nat stop)
    (fun i '(accum, count) => ((accum + f32_get buffer i)%Q, (count + 1)%Z))
    (0%Q, 0%Z).

(** One iteration of [while (offsetResult < newLength)]. *)
Definition loop_body (buffer : list Q) (sampleRatio : Q) (st : LoopState) : LoopState :=
  let nextOffsetBuffer :=
    JS.Math_round (inject_Z (offsetResult st + 1) * sampleRatio) in
  let '(accum, count) := window_accum buffer (offsetBuffer st) nextOffsetBuffer in
  {| offsetResult := offsetResult st + 1;
     offsetBuffer := nextOffsetBuffer;
     result := <[Z.to_nat (offsetResult st) :=
                   if (0 <? count)%Z then (accum / inject_Z count)%Q else 0%Q]>
                 (result st) |}.

Definition loop_cond (newLength : Z) (st : LoopState) : bool :=
  (offsetResult st <? newLength)%Z.

Definition inspect {A : Type} (a : A) : {b : A | a = b} := exist _ a eq_refl.

(** The main loop.  It is defined by well-founded recursion on the distance
    [newLength - offsetResult], which every iteration decreases. *)
Equations? (noeqns noind) while_loop (buffer : list Q) (sampleRatio : Q) (newLength : Z)
    (st : LoopState) : LoopState
  by wf (Z.to_nat (newLength - offsetResult st)) lt :=
while_loop buffer sampleRatio newLength st with inspect (loop_cond newLength st) := {
  | exist _ true _ =>
      while_loop buffer sampleRatio newLength (loop_body buffer sampleRatio st)
  | exist _ false _ => st }.
Proof.
  unfold loop_cond in e. apply Z.ltb_lt in e.
  unfold loop_body. destruct (window_accum _ _ _). simpl. lia.
Qed.

Definition downsampleBuffer (buffer : list Q)
    (inputSampleRate outputSampleRate : positive) : list Q :=
  if (inputSampleRate =? outputSampleRate)%positive then buffer
  else
    let sampleRatio :=
      (inject_Z (Zpos inputSampleRate) / inject_Z (Zpos outputSampleRate))%Q in
    let newLength :=
      JS.Math_round (inject_Z (Z.of_nat (length buffer)) / sampleRatio) in
    let initial :=
      {| offsetResult := 0;
         offsetBuffer := 0;
         result := replicate (Z.to_nat newLength) 0%Q |} in
    result (while_loop buffer sampleRatio newLength initial).

(** Closed forms of the loop, used in the proofs: the offsets between which
    iteration [j] scans the input, and the value it stores. *)
Definition window_from (sampleRatio : Q) (j : nat) : Z :=
  match j with
  | O => 0%Z
  | S _ => JS.Math_round (inject_Z (Z.of_nat j) * sampleRatio)
  end.

Definition window_to (sampleRatio : Q) (j : nat) : Z :=
  JS.Math_round (inject_Z (Z.of_nat j + 1) * sampleRatio).

Definition stored (buffer : list Q) (sampleRatio : Q) (j : nat) : Q :=
  let '(accum, count) :=
    window_accum buffer (window_from sampleRatio j) (window_to sampleRatio j) in
  if (0 <? count)%Z then (accum / inject_Z count)%Q else 0%Q.

(** ** [createPcmBlob] *)

Record Blob : Type := mkBlob {
  data : list ascii;
  mimeType : list ascii
}.

Definition TARGET_RATE : positive := 16000.

(** The body of the conversion loop: clamp, scale, and store into the
    [Int16Array]. *)
Definition to_int16 (x : Q) : Z :=
  let s := JS.Math_max (-1) (JS.Math_min 1 x) in
  JS.ToInt16 (if JS.ltb s 0 then s * 32768 else s * 32767)%Q.

(** Steps 1 and 2 of [createPcmBlob]: the [Int16Array] before packaging. *)
Definition createPcmBlob_int16 (data : list Q) (inputSampleRate : positive) : list Z :=
  let downsampledData := downsampleBuffer data inputSampleRate TARGET_RATE in
  let l := length downsampledData in
  let int16 := replicate l 0%Z in
  for_range 0 l
    (fun i int16 => <[i := to_int16 (f32_get downsampledData i)]> int16) int16.

Definition createPcmBlob (data : list Q) (inputSampleRate : positive) : Blob :=
  let int16 := createPcmBlob_int16 data inputSampleRate in
  {| data := arrayBufferToBase64 (Int16Array_buffer int16);
     mimeType :=
       list_ascii_of_string "audio/pcm;rate="
         ++ list_ascii_of_string
              (NilEmpty.string_of_uint (Pos.to_uint TARGET_RATE)) |}.

(** ** [decodeAudioData] *)

(** An element of a playback channel: the decoder divides what it reads from
    the [Int16Array], and a read past the end is [undefined], which divides
    to [NaN]. *)
Inductive number : Type :=
| Num (q : Q)
| NaN.

Record AudioBuffer : Type := mkAudioBuffer {
  sampleRate : Z;
  channels : list (list number)
}.

(** The audio context is the platform.  All the decoder asks of it is a
    buffer; [allocates ctx numberOfChannels length sampleRate] tells whether
    the platform accepts the request. *)
Record AudioContext : Type := mkAudioContext {
  allocates : Z -> Z -> Z -> bool
}.

(** [ctx.createBuffer(numberOfChannels, length, sampleRate)]: the first two
    arguments are WebIDL [unsigned long]; a successful call gives
    zero-filled channels. *)
Definition createBuffer (ctx : AudioContext) (numberOfChannels : Z)
    (length : option Q) (sampleRate : Z) : completion AudioBuffer :=
  let numberOfChannels := JS.to_unsigned_long (Some (inject_Z numberOfChannels)) in
  let length := JS.to_unsigned_long length in
  if allocates ctx numberOfChannels length sampleRate
  then Ok {| sampleRate := sampleRate;
             channels := replicate (Z.to_nat numberOfChannels)
                           (replicate (Z.to_nat length) (Num 0)) |}
  else Throw NotSupportedError.

(** [buffer.getChannelData(channel)]: throws when there is no such channel. *)
Definition getChannelData (buffer : AudioBuffer) (channel : nat) : completion (list number) :=
  match channels buffer !! channel with
  | Some channelData => Ok channelData
  | None => Throw IndexSizeError
  end.

(** [dataInt16[j] / 32768.0] *)
Definition over_32768 (x : option Z) : number :=
  match x with
  | Some k => Num (inject_Z k / 32768)
  | None => NaN
  end.

(** [for (let i = 0; i < bound; i++)] with a bound that need not be an
    integer: the indices below [bound] are those below its ceiling.  The
    decoder reaches this loop with a finite bound only (the loop over the
    channels is empty when [numChannels] is 0). *)
Definition for_below {S : Type} (bound : option Q) (body : nat -> S -> S) (s : S) : S :=
  match bound with
  | Some q => for_range 0 (Z.to_nat (Qceiling q)) body s
  | None => s
  end.

(** The body of the loop over the channels.  The channel data is a view of
    the buffer: a store into it is a store into the buffer. *)
Definition decode_channel (dataInt16 : list Z) (numChannels : Z)
    (frameCount : option Q) (channel : nat) (buffer : AudioBuffer) : completion AudioBuffer :=
  channelData ← getChannelData buffer channel;
  let channelData :=
    for_below frameCount
      (fun i channelData =>
         <[i := over_32768
                  (dataInt16 !! Z.to_nat (Z.of_nat i * numChannels + Z.of_nat channel))]>
           channelData)
      channelData in
  Ok {| sampleRate := sampleRate buffer;
        channels := <[channel := channelData]> (channels buffer) |}.

Definition decodeAudioData (data : list byte) (ctx : AudioContext)
    (sampleRate : Z) (numChannels : Z) : completion AudioBuffer :=
  dataInt16 ← new_Int16Array data;
  let frameCount := JS.div (Z.of_nat (length dataInt16)) numChannels in
  buffer ← createBuffer ctx numChannels frameCount sampleRate;
  fold_left
    (fun acc channel =>
       buffer ← acc; decode_channel dataInt16 numChannels frameCount channel buffer)
    (seq 0 (Z.to_nat numChannels)) (Ok buffer).

(** The default arguments [sampleRate = 24000] and [numChannels = 1]. *)
Definition decodeAudioData_default (data : list byte) (ctx : AudioContext) : completion AudioBuffer :=
  decodeAudioData data ctx 24000 1.

(** Channel [c] of the decoded buffer: frame [i] is sample [i * numChannels + c]
    divided by 32768. *)
Definition channel_of (dataInt16 : list Z) (numChannels : Z) (frames : nat) (c : nat) : list number :=
  map (fun i => over_32768 (dataInt16 !! Z.to_nat (Z.of_nat i * numChannels + Z.of_nat c)))
    (seq 0 frames).

(** Encoding one sample at the target rate and decoding the payload at the
    same rate, mono: the base64 text is turned back into bytes with
    [base64ToUint8Array], as the session does with the service's audio. *)
Definition pcm_roundtrip (ctx : AudioContext) (s : Q) : completion AudioBuffer :=
  bytes ← base64ToUint8Array (data (createPcmBlob [s] TARGET_RATE));
  decodeAudioData bytes ctx (Zpos TARGET_RATE) 1.

(** A context whose platform accepts every request. *)
Definition generous : AudioContext := {| allocates := fun _ _ _ => true |}.

(** ** Binary floating-point numbers

    [representable p x]: [x] is a binary floating-point number with a
    significand of at most [p] bits (the exponent range is not tracked).
    A [Float32Array] element has [p = 24]; a JavaScript number has
    [p = 53], and an arithmetic operation whose exact result is
    representable returns that result. *)
Definition representable (p : Z) (x : Q) : Prop :=
  exists m e : Z, (Z.abs m < 2 ^ p)%Z /\ (x == inject_Z m * 2 ^ e)%Q.

(** ** The resampler in the words of the specification *)

(** The resampler as section 4.1 of the specification words it: output [j]
    is the mean of the input window that starts where the previous window
    ended (initially 0) and ends at [round((j+1) * ratio)], clamped to the
    input length; an empty window gives 0. *)
Module SpecDownsampler.

Definition window_end (ratio : Q) (len : Z) (j : nat) : Z :=
  Z.min (JS.Math_round (inject_Z (Z.of_nat j + 1) * ratio)) len.

Definition window_start (ratio : Q) (len : Z) (j : nat) : Z :=
  match j with
  | O => 0%Z
  | S j' => window_end ratio len j'
  end.

(** The samples at the indices from [a] (included) to [b] (excluded). *)
Definition window (x : list Q) (a b : Z) : list Q :=
  take (Z.to_nat (b - a)) (drop (Z.to_nat a) x).

Definition sum (w : list Q) : Q := fold_right Qplus 0%Q w.

Definition mean (w : list Q) : Q :=
  match w with
  | [] => 0%Q
  | _ :: _ => (sum w / inject_Z (Z.of_nat (length w)))%Q
  end.

Definition output (x : list Q) (ratio : Q) (j : nat) : Q :=
  let len := Z.of_nat (length x) in
  mean (window x (window_start ratio len j) (window_end ratio len j)).

End SpecDownsampler.

(** ** The encoder followed by the decoder

    A block of microphone samples is encoded by [createPcmBlob]; the payload
    is turned back into bytes by [base64ToUint8Array] and decoded by
    [decodeAudioData] as one channel at the rate the encoder produced. *)
Definition send_and_decode (ctx : AudioContext) (samples : list Q) (inputSampleRate : positive)
  : completion AudioBuffer :=
  bytes ← base64ToUint8Array (data (createPcmBlob samples inputSampleRate));
  decodeAudioData bytes ctx (Zpos TARGET_RATE) 1.

(** The clamp [Math.max(-1, Math.min(1, x))] of [createPcmBlob]. *)
Definition clamp (x : Q) : Q := JS.Math_max (-1) (JS.Math_min 1 x).

(** A decoded sample that is a number in the half-open interval from -1
    to 1. *)
Definition unit_sample (y : number) : Prop :=
  exists q, y = Num q /\ (-1 <= q)%Q /\ (q < 1)%Q.

(** ** Strings of the interface code

    A string of the components is a sequence of UTF-16 code units. *)
Definition code_unit : Type := N.

(** The code units of a literal of the source, which has only characters
    below 128. *)
Definition literal (s : string) : list code_unit :=
  map N_of_ascii (list_ascii_of_string s).

(** [s.lastIndexOf(c)] for a one-unit [c]: the index of the last
    occurrence, or -1. *)
Fixpoint lastIndexOf (s : list code_unit) (c : code_unit) : Z :=
  match s with
  | [] => (-1)%Z
  | x :: s' =>
      let later := lastIndexOf s' c in
      if (0 <=? later)%Z then (later + 1)%Z
      else if (x =? c)%N then 0%Z else (-1)%Z
  end.

(** [s.substring(0, n)]: a negative [n] counts as 0 and one past the end as
    the length. *)
Definition substring0 (s : list code_unit) (n : Z) : list code_unit :=
  take (Z.to_nat n) s.

(** The full stop, the argument of [lastIndexOf] in [handleDownload]. *)
Definition full_stop : code_unit := 46%N.

(** ** The name of a downloaded transcript ([UploadSession.handleDownload])

    The file name computed when there are results: [file] is the name of the
    selected file, if there is one, and [now] is [new Date().toISOString()]. *)
Definition handleDownload_fileName (file : option (list code_unit)) (now : list code_unit)
  : list code_unit :=
  let fileName := literal "upload-transcript-" ++ now ++ literal ".txt" in
  match file with
  | Some name =>
      let lastDotIndex := lastIndexOf name full_stop in
      if negb (lastDotIndex =? -1)%Z
      then substring0 name lastDotIndex ++ literal ".txt"
      else name ++ literal ".txt"
  | None => fileName
  end.

(** ** [getApiKey]

    The two places a key is looked for.  A field is [None] when the lookup
    gives [undefined] or throws (the exception is caught); a value of the
    environment is a string. *)
Record Env : Type := mkEnv {
  process_env_API_KEY : option (list code_unit);
  import_meta_env_VITE_API_KEY : option (list code_unit)
}.

(** Truthiness of an optional string: defined and not empty. *)
Definition truthy (v : option (list code_unit)) : bool :=
  match v with
  | Some (_ :: _) => true
  | _ => false
  end.

(** The value of [key] before it is sanitized; the code is the same in
    [LiveSession.tsx] and in the analysis service. *)
Definition lookup_key (env : Env) : list code_unit :=
  let key : list code_unit := [] in
  let key :=
    if truthy (process_env_API_KEY env) then default [] (process_env_API_KEY env)
    else key in
  if negb (truthy (Some key))
  then
    if truthy (import_meta_env_VITE_API_KEY env)
    then default [] (import_meta_env_VITE_API_KEY env)
    else key
  else key.

(** The code units [trim] removes: the white space and the line terminators
    of ECMAScript (TAB, LF, VT, FF, CR, SPACE, NO-BREAK SPACE, the byte order
    mark, the line and paragraph separators and the space separators of
    Unicode). *)
Definition is_js_space (c : code_unit) : bool :=
  ((c =? 9) || (c =? 10) || (c =? 11) || (c =? 12) || (c =? 13) || (c =? 32)
   || (c =? 160) || (c =? 5760) || ((8192 <=? c) && (c <=? 8202))
   || (c =? 8232) || (c =? 8233) || (c =? 8239) || (c =? 8287) || (c =? 12288)
   || (c =? 65279))%N.

Fixpoint trimStart (s : list code_unit) : list code_unit :=
  match s with
  | c :: s' => if is_js_space c then trimStart s' else s
  | [] => []
  end.

(** [s.trim()] *)
Definition trim (s : list code_unit) : list code_unit :=
  rev (trimStart (rev (trimStart s))).

(** The shape of a trimmed string: empty, or delimited by two units that are
    not white space. *)
Inductive trimmed : list code_unit -> Prop :=
| trimmed_nil : trimmed []
| trimmed_one c : is_js_space c = false -> trimmed [c]
| trimmed_ends c m d :
    is_js_space c = false -> is_js_space d = false -> trimmed (c :: m ++ [d]).

(** The characters of the class that [getApiKey] removes: the double quote
    (code 34) and the single quote (code 39). *)
Definition is_quote (c : code_unit) : bool := ((c =? 34) || (c =? 39))%N.

(** [key.replace(..., empty)] with the global pattern matching one quote
    character: every quote is removed. *)
Definition remove_quotes (s : list code_unit) : list code_unit :=
  List.filter (fun c => negb (is_quote c)) s.

(** [getApiKey] of [LiveSession.tsx]. *)
Definition getApiKey (env : Env) : list code_unit :=
  trim (remove_quotes (lookup_key env)).

(** [getApiKey] of the analysis service, which keeps the quotes. *)
Definition service_getApiKey (env : Env) : list code_unit := trim (lookup_key env).

(** ** [cleanupAudio]

    The references the session holds.  A platform object is identified by a
    number; a media stream is the list of its tracks, and the set of the
    playing sources is the list of its elements in the order [forEach]
    visits them. *)
Record AudioRefs : Type := mkAudioRefs {
  processorRef : option nat;
  sourceRef : option nat;
  streamRef : option (list nat);
  inputContextRef : option nat;
  outputContextRef : option nat;
  audioSourcesRef : list nat
}.

(** The calls [cleanupAudio] makes on the platform. *)
Inductive platform_call : Type :=
| DisconnectNode (node : nat)
| StopTrack (track : nat)
| CloseContext (context : nat)
| StopSource (source : nat).

(** [cleanupAudio]: the references after the call and the platform calls
    made, in order.  [disconnect()] without arguments and [stop()] of a track
    do not throw, [close()] returns a promise whose rejection is swallowed,
    and an exception of [src.stop()] is caught. *)
Definition cleanupAudio (refs : AudioRefs) : AudioRefs * list platform_call :=
  let calls1 :=
    match processorRef refs with Some p => [DisconnectNode p] | None => [] end in
  let calls2 :=
    match sourceRef refs with Some s => [DisconnectNode s] | None => [] end in
  let calls3 :=
    match streamRef refs with Some tracks => map StopTrack tracks | None => [] end in
  let calls4 :=
    match inputContextRef refs with Some c => [CloseContext c] | None => [] end in
  let calls5 :=
    match outputContextRef refs with Some c => [CloseContext c] | None => [] end in
  let calls6 := map StopSource (audioSourcesRef refs) in
  ({| processorRef := None; sourceRef := None; streamRef := None;
      inputContextRef := None; outputContextRef := None; audioSourcesRef := [] |},
   calls1 ++ calls2 ++ calls3 ++ calls4 ++ calls5 ++ calls6).

(** [n] calls of [cleanupAudio] in a row: the final references and all the
    platform calls made. *)
Fixpoint cleanupAudio_times (n : nat) (refs : AudioRefs) : AudioRefs * list platform_call :=
  match n with
  | O => (refs, [])
  | S n' =>
      let '(refs1, calls1) := cleanupAudio refs in
      let '(refs2, calls2) := cleanupAudio_times n' refs1 in
      (refs2, calls1 ++ calls2)
  end.

(** ** Binary floating-point arithmetic

    The numbers of the program are binary64 values and the elements of a
    [Float32Array] are binary32 values.  A finite value is the rational it
    denotes; an operation computes the exact result and rounds it to the
    nearest value of the format, ties to even, with gradual underflow.
    Overflow is not represented: the sample rates of the program, the
    lengths of its arrays and its samples are far from the largest finite
    values. *)
Module IEEE.

(** A binary format: the number of bits of the significand and the
    exponent of the smallest positive value. *)
Record format : Type := mkFormat { prec : Z; emin : Z }.

Definition binary64_format : format := {| prec := 53; emin := -1074 |}.
Definition binary32_format : format := {| prec := 24; emin := -149 |}.

(** The exponent [e] with [2^e <= |q| < 2^(e+1)], for [q] other than 0. *)
Definition ilog2 (q : Q) : Z :=
  let e := (Z.log2 (Z.abs (Qnum q)) - Z.log2 (Zpos (Qden q)))%Z in
  if Qle_bool (2 ^ e) (Qabs q) then e else (e - 1)%Z.

(** The integer nearest to [m], the even one of the two at a tie. *)
Definition nearest_even (m : Q) : Z :=
  let f := Qfloor m in
  match (m - inject_Z f ?= 1 # 2)%Q with
  | Lt => f
  | Gt => (f + 1)%Z
  | Eq => if Z.even f then f else (f + 1)%Z
  end.

(** The exponent of the last bit of the significand of [q] in the format:
    [ilog2 q + 1 - prec], or [emin] for a subnormal value. *)
Definition fexp (fmt : format) (q : Q) : Z :=
  Z.max (ilog2 q + 1 - prec fmt) (emin fmt).

(** Rounding to the format: the multiple of [2 ^ fexp] nearest to [x],
    ties to even, as a reduced fraction. *)
Definition round (fmt : format) (x : Q) : Q :=
  let q := Qred x in
  if (Qnum q =? 0)%Z then 0%Q
  else Qred (inject_Z (nearest_even (q / 2 ^ fexp fmt q)) * 2 ^ fexp fmt q).

(** The value of a number after an arithmetic operation. *)
Definition binary64 (x : Q) : Q := round binary64_format x.

(** [Math.fround], the conversion applied by a store into a
    [Float32Array]. *)
Definition fround (x : Q) : Q := round binary32_format x.

(** The operations [+], [*] and [/] on numbers.  No divisor of the program
    is 0: the ratio of two rates is a positive number, and [accum / count]
    is guarded by [count > 0]. *)
Definition add (x y : Q) : Q := binary64 (x + y).
Definition mul (x y : Q) : Q := binary64 (x * y).
Definition div (x y : Q) : Q := binary64 (x / y).

(** The inner loop of [downsampleBuffer]: [accum += buffer[i]] is an
    addition of numbers, [count++] an exact integer increment. *)
Definition window_accum (buffer : list Q) (offsetBuffer nextOffsetBuffer : Z) : Q * Z :=
  let stop := Z.min nextOffsetBuffer (Z.of_nat (length buffer)) in
  for_range (Z.to_nat offsetBuffer) (Z.to_nat stop)
    (fun i '(accum, count) => (add accum (f32_get buffer i), (count + 1)%Z))
    (0%Q, 0%Z).

(** One iteration of [while (offsetResult < newLength)]: the product
    [(offsetResult + 1) * sampleRatio] and the quotient [accum / count] are
    operations on numbers, and the store into [result] converts to
    binary32. *)
Definition loop_body (buffer : list Q) (sampleRatio : Q) (st : LoopState) : LoopState :=
  let nextOffsetBuffer :=
    JS.Math_round (mul (inject_Z (offsetResult st + 1)) sampleRatio) in
  let '(accum, count) := window_accum buffer (offsetBuffer st) nextOffsetBuffer in
  {| offsetResult := offsetResult st + 1;
     offsetBuffer := nextOffsetBuffer;
     result := <[Z.to_nat (offsetResult st) :=
                   fround (if (0 <? count)%Z then div accum (inject_Z count) else 0%Q)]>
                 (result st) |}.

(** The main loop, by well-founded recursion on [newLength - offsetResult]. *)
Equations? (noeqns noind) while_loop (buffer : list Q) (sampleRatio : Q) (newLength : Z)
    (st : LoopState) : LoopState
  by wf (Z.to_nat (newLength - offsetResult st)) lt :=
while_loop buffer sampleRatio newLength st with inspect (loop_cond newLength st) := {
  | exist _ true _ =>
      while_loop buffer sampleRatio newLength (loop_body buffer sampleRatio st)
  | exist _ false _ => st }.
Proof.
  unfold loop_cond in e. apply Z.ltb_lt in e.
  unfold loop_body. destruct (window_accum _ _ _). simpl. lia.
Qed.

(** [downsampleBuffer] with the arithmetic of the program: [sampleRatio]
    and [buffer.length / sampleRatio] are quotients of numbers.  The rates
    are integers that are binary64 values, and [buffer] holds binary32
    values. *)
Definition downsampleBuffer (buffer : list Q)
    (inputSampleRate outputSampleRate : positive) : list Q :=
  if (inputSampleRate =? outputSampleRate)%positive then buffer
  else
    let sampleRatio :=
      div (inject_Z (Zpos inputSampleRate)) (inject_Z (Zpos outputSampleRate)) in
    let newLength :=
      JS.Math_round (div (inject_Z (Z.of_nat (length buffer))) sampleRatio) in
    let initial :=
      {| offsetResult := 0;
         offsetBuffer := 0;
         result := replicate (Z.to_nat newLength) 0%Q |} in
    result (while_loop buffer sampleRatio newLength initial).

(** Closed forms of the loop, used in the proofs: the offsets between which
    iteration [j] scans the input, and the value it stores. *)
Definition window_from (sampleRatio : Q) (j : nat) : Z :=
  match j with
  | O => 0%Z
  | S _ => JS.Math_round (mul (inject_Z (Z.of_nat j)) sampleRatio)
  end.

Definition window_to (sampleRatio : Q) (j : nat) : Z :=
  JS.Math_round (mul (inject_Z (Z.of_nat j + 1)) sampleRatio).

Definition stored (buffer : list Q) (sampleRatio : Q) (j : nat) : Q :=
  let '(accum, count) :=
    window_accum buffer (window_from sampleRatio j) (window_to sampleRatio j) in
  fround (if (0 <? count)%Z then div accum (inject_Z count) else 0%Q).

(** The resampler as section 4.1 of the specification words it, with the
    arithmetic of the program: the ratio is the floating-point quotient of
    the rates, a window ends at [round((j+1) * ratio)], the product being a
    floating-point operation, and the mean of a window is its sum, taken in
    the order of the indices, divided by its length. *)
Module Spec.

Definition ratio (inputRate outputRate : positive) : Q :=
  div (inject_Z (Zpos inputRate)) (inject_Z (Zpos outputRate)).

Definition outputLength (ratio : Q) (len : Z) : Z :=
  JS.Math_round (div (inject_Z len) ratio).

Definition window_end (ratio : Q) (len : Z) (j : nat) : Z :=
  Z.min (JS.Math_round (mul (inject_Z (Z.of_nat j + 1)) ratio)) len.

Definition window_start (ratio : Q) (len : Z) (j : nat) : Z :=
  match j with
  | O => 0%Z
  | S j' => window_end ratio len j'
  end.

Definition sum (w : list Q) : Q := fold_left add w 0%Q.

Definition mean (w : list Q) : Q :=
  match w with
  | [] => 0%Q
  | _ :: _ => div (sum w) (inject_Z (Z.of_nat (length w)))
  end.

(** Element [j] of the output: the mean of window [j], as a binary32
    value. *)
Definition output (x : list Q) (ratio : Q) (j : nat) : Q :=
  let len := Z.of_nat (length x) in
  fround (mean (SpecDownsampler.window x (window_start ratio len j) (window_end ratio len j))).

End Spec.

End IEEE.

(** * Properties *)

(** Linear arithmetic with division and remainder by constants. *)
Ltac lia_div := zify; Z.to_euclidean_division_equations; lia.

(** ** Counted loops and array fills *)

Lemma for_range_S {S : Type} (n : nat) (body : nat -> S -> S) (s : S) :
  for_range 0 (Datatypes.S n) body s = body n (for_range 0 n body s).
Proof.
  unfold for_range. rewrite !Nat.sub_0_r, seq_S, fold_left_app. reflexivity.
Qed.

(** Filling an array from index 0: after [k] stores the first [k] elements
    are the stored values (as far as the array reaches) and the rest is
    untouched. *)
Lemma fill_prefix {A : Type} (g : nat -> A) (arr : list A) (k : nat) :
  for_range 0 k (fun i a => <[i := g i]> a) arr
  = map g (seq 0 (Nat.min k (length arr))) ++ drop k arr.
Proof.
  induction k as [|k IH].
  - reflexivity.
  - rewrite for_range_S, IH.
    destruct (Nat.lt_ge_cases k (length arr)) as [Hlt | Hge].
    + replace (Nat.min (Datatypes.S k) (length arr)) with (Datatypes.S k) by lia.
      replace (Nat.min k (length arr)) with k by lia.
      rewrite seq_S, map_app, <- app_assoc. simpl.
      destruct (drop k arr) as [|x rest] eqn:Hd.
      { apply (f_equal length) in Hd. rewrite length_drop in Hd. simpl in Hd. lia. }
      rewrite insert_app_r_alt by (rewrite length_map, length_seq; lia).
      rewrite length_map, length_seq, Nat.sub_diag. simpl.
      f_equal. f_equal.
      rewrite <- (Nat.add_1_r k), <- drop_drop, Hd. reflexivity.
    + replace (Nat.min (Datatypes.S k) (length arr)) with (length arr) by lia.
      replace (Nat.min k (length arr)) with (length arr) by lia.
      rewrite !drop_ge by lia.
      apply list_insert_ge.
      rewrite length_app, length_map, length_seq. simpl. lia.
Qed.

Lemma fill_all {A : Type} (g : nat -> A) (arr : list A) :
  for_range 0 (length arr) (fun i a => <[i := g i]> a) arr
  = map g (seq 0 (length arr)).
Proof.
  rewrite fill_prefix, Nat.min_id, drop_all, app_nil_r. reflexivity.
Qed.

Lemma append_all {A : Type} (g : nat -> A) (n : nat) (acc : list A) :
  for_range 0 n (fun i a => a ++ [g i]) acc = acc ++ map g (seq 0 n).
Proof.
  induction n as [|n IH].
  - simpl. rewrite app_nil_r. reflexivity.
  - rewrite for_range_S, IH, seq_S, map_app, app_assoc. reflexivity.
Qed.

Lemma map_lookup_seq {A B : Type} (h : option A -> B) (l : list A) :
  map (fun i => h (l !! i)) (seq 0 (length l)) = map (fun x => h (Some x)) l.
Proof.
  induction l as [|x l IH] using rev_ind.
  - reflexivity.
  - rewrite length_app. simpl. rewrite Nat.add_1_r, seq_S, !map_app. simpl.
    rewrite lookup_app_r, Nat.sub_diag by lia. simpl.
    f_equal. rewrite <- IH. apply map_ext_in.
    intros i Hi. apply in_seq in Hi.
    rewrite lookup_app_l by lia. reflexivity.
Qed.

(** ** Base64: decoding inverts encoding *)

Module Base64Facts.
Import Base64.

(** Induction on a byte list three bytes at a time. *)
Lemma list_ind3 {A : Type} (P : list A -> Prop) :
  P [] ->
  (forall a, P [a]) ->
  (forall a b, P [a; b]) ->
  (forall a b c l, P l -> P (a :: b :: c :: l)) ->
  forall l, P l.
Proof.
  intros H0 H1 H2 H3.
  fix IH 1.
  intros [|a [|b [|c l]]]; [apply H0 | apply H1 | apply H2 | apply H3, IH].
Qed.

Lemma sextet_cases (P : N -> Prop) :
  (forall k : nat, (k < 64)%nat -> P (N.of_nat k)) ->
  forall n : N, (n < 64)%N -> P n.
Proof.
  intros H n Hn. rewrite <- (N2Nat.id n). apply H. lia.
Qed.

Lemma value_symbol (n : N) : (n < 64)%N -> value (symbol n) = Some n.
Proof.
  revert n. apply sextet_cases. intros k Hk.
  do 64 (destruct k as [|k]; [reflexivity|]). lia.
Qed.

Lemma symbol_not_pad (n : N) : (n < 64)%N -> Ascii.eqb (symbol n) pad = false.
Proof.
  revert n. apply sextet_cases. intros k Hk.
  do 64 (destruct k as [|k]; [reflexivity|]). lia.
Qed.

Lemma symbol_not_whitespace (n : N) : (n < 64)%N -> is_whitespace (symbol n) = false.
Proof.
  revert n. apply sextet_cases. intros k Hk.
  do 64 (destruct k as [|k]; [reflexivity|]). lia.
Qed.

Lemma byte_of_N_mod (n : N) (b : byte) :
  (n mod 256 = Byte.to_N b)%N -> byte_of_N n = b.
Proof.
  intros H. unfold byte_of_N. rewrite H, Byte.of_to_N. reflexivity.
Qed.

Lemma encode_split (bs : list byte) : encode bs = body bs ++ padding bs.
Proof.
  induction bs as [| a | a b | a b c l IH] using list_ind3; try reflexivity.
  change (encode (a :: b :: c :: l)) with
    (let n := (Byte.to_N a * 65536 + Byte.to_N b * 256 + Byte.to_N c)%N in
     symbol (n / 262144) :: symbol (n / 4096 mod 64)
       :: symbol (n / 64 mod 64) :: symbol (n mod 64) :: encode l).
  change (body (a :: b :: c :: l)) with
    (let n := (Byte.to_N a * 65536 + Byte.to_N b * 256 + Byte.to_N c)%N in
     symbol (n / 262144) :: symbol (n / 4096 mod 64)
       :: symbol (n / 64 mod 64) :: symbol (n mod 64) :: body l).
  cbv zeta. rewrite IH.
  replace (padding (a :: b :: c :: l)) with (padding l); [reflexivity|].
  unfold padding. cbn [length].
  replace (Datatypes.S (Datatypes.S (Datatypes.S (length l))))
    with (length l + 1 * 3)%nat by lia.
  rewrite Nat.Div0.mod_add. reflexivity.
Qed.

Lemma body_symbols (bs : list byte) : Forall is_symbol (body bs).
Proof.
  induction bs as [| a | a b | a b c l IH] using list_ind3.
  - constructor.
  - pose proof (Byte.to_N_bounded a).
    repeat constructor; eexists; (split; [|reflexivity]).
    + apply N.Div0.div_lt_upper_bound; lia.
    + apply N.mod_lt; lia.
  - pose proof (Byte.to_N_bounded a). pose proof (Byte.to_N_bounded b).
    repeat constructor; eexists; (split; [|reflexivity]).
    + apply N.Div0.div_lt_upper_bound; lia.
    + apply N.mod_lt; lia.
    + apply N.mod_lt; lia.
  - pose proof (Byte.to_N_bounded a). pose proof (Byte.to_N_bounded b).
    pose proof (Byte.to_N_bounded c).
    change (body (a :: b :: c :: l)) with
      (let n := (Byte.to_N a * 65536 + Byte.to_N b * 256 + Byte.to_N c)%N in
       symbol (n / 262144) :: symbol (n / 4096 mod 64)
         :: symbol (n / 64 mod 64) :: symbol (n mod 64) :: body l).
    cbv zeta.
    repeat (apply Forall_cons; split); try exact IH;
      eexists; (split; [|reflexivity]).
    + apply N.Div0.div_lt_upper_bound; lia.
    + apply N.mod_lt; lia.
    + apply N.mod_lt; lia.
    + apply N.mod_lt; lia.
Qed.

Lemma body_length (bs : list byte) :
  length (body bs ++ padding bs) mod 4 = 0%nat.
Proof.
  induction bs as [| a | a b | a b c l IH] using list_ind3; try reflexivity.
  replace (padding (a :: b :: c :: l)) with (padding l).
  - change (body (a :: b :: c :: l)) with
      (let n := (Byte.to_N a * 65536 + Byte.to_N b * 256 + Byte.to_N c)%N in
       symbol (n / 262144) :: symbol (n / 4096 mod 64)
         :: symbol (n / 64 mod 64) :: symbol (n mod 64) :: body l).
    cbv zeta. cbn [app length].
    replace (Datatypes.S (Datatypes.S (Datatypes.S (Datatypes.S (length (body l ++ padding l))))))
      with (length (body l ++ padding l) + 1 * 4)%nat by lia.
    rewrite Nat.Div0.mod_add. exact IH.
  - unfold padding. cbn [length].
    replace (Datatypes.S (Datatypes.S (Datatypes.S (length l))))
      with (length l + 1 * 3)%nat by lia.
    rewrite Nat.Div0.mod_add. reflexivity.
Qed.

Lemma decode_body (bs : list byte) : decode (body bs) = Some bs.
Proof.
  induction bs as [| a | a b | a b c l IH] using list_ind3.
  - reflexivity.
  - pose proof (Byte.to_N_bounded a) as Ha.
    cbn [body decode]. cbv zeta.
    rewrite !value_symbol
      by (try apply N.Div0.div_lt_upper_bound; try apply N.mod_lt; lia).
    set (n := (Byte.to_N a * 16)%N).
    assert (Hn : (n / 64 * 64 + n mod 64 = n)%N) by lia_div.
    rewrite Hn. subst n. f_equal. f_equal. apply byte_of_N_mod. lia_div.
  - pose proof (Byte.to_N_bounded a) as Ha. pose proof (Byte.to_N_bounded b) as Hb.
    cbn [body decode]. cbv zeta.
    rewrite !value_symbol
      by (try apply N.Div0.div_lt_upper_bound; try apply N.mod_lt; lia).
    set (n := ((Byte.to_N a * 256 + Byte.to_N b) * 4)%N).
    assert (Hn : ((n / 4096 * 64 + n / 64 mod 64) * 64 + n mod 64 = n)%N) by lia_div.
    rewrite Hn. subst n. f_equal. f_equal; [|f_equal]; apply byte_of_N_mod; lia_div.
  - pose proof (Byte.to_N_bounded a) as Ha. pose proof (Byte.to_N_bounded b) as Hb.
    pose proof (Byte.to_N_bounded c) as Hc.
    change (body (a :: b :: c :: l)) with
      (let n := (Byte.to_N a * 65536 + Byte.to_N b * 256 + Byte.to_N c)%N in
       symbol (n / 262144) :: symbol (n / 4096 mod 64)
         :: symbol (n / 64 mod 64) :: symbol (n mod 64) :: body l).
    cbv zeta.
    set (n := (Byte.to_N a * 65536 + Byte.to_N b * 256 + Byte.to_N c)%N).
    cbn [decode]. fold decode. rewrite IH.
    rewrite !value_symbol
      by (try apply N.Div0.div_lt_upper_bound; try apply N.mod_lt; lia).
    cbv zeta.
    assert (Hn : (((n / 262144 * 64 + n / 4096 mod 64) * 64 + n / 64 mod 64) * 64
                  + n mod 64 = n)%N) by lia_div.
    rewrite Hn. subst n. f_equal. f_equal; [|f_equal; [|f_equal]]; apply byte_of_N_mod; lia_div.
Qed.

Lemma strip_pad_symbols (n : nat) (r : list ascii) :
  Forall is_symbol r -> strip_pad n r = r.
Proof.
  intros H. destruct n as [|n]; [reflexivity|].
  destruct H as [|c r (k & Hk & ->) _]; [reflexivity|].
  simpl. rewrite symbol_not_pad by exact Hk. reflexivity.
Qed.

Lemma strip_pad_pad (n : nat) (r : list ascii) :
  strip_pad (S n) (pad :: r) = strip_pad n r.
Proof. reflexivity. Qed.

Lemma remove_padding_encode (bs : list byte) :
  remove_padding (encode bs) = body bs.
Proof.
  rewrite encode_split. unfold remove_padding.
  rewrite body_length. cbn [Nat.eqb]. rewrite rev_app_distr.
  pose proof (body_symbols bs) as Hs. apply Forall_rev in Hs.
  unfold padding.
  destruct (length bs mod 3)%nat as [|[|[|k]]]; cbn [rev app];
    rewrite ?strip_pad_pad, strip_pad_symbols by exact Hs;
    apply rev_involutive.
Qed.

Lemma filter_id {A : Type} (f : A -> bool) (l : list A) :
  Forall (fun x => f x = true) l -> List.filter f l = l.
Proof.
  induction 1 as [|x l Hx _ IH]; simpl; [reflexivity|].
  rewrite Hx, IH. reflexivity.
Qed.

Lemma encode_no_whitespace (bs : list byte) :
  Forall (fun c => negb (is_whitespace c) = true) (encode bs).
Proof.
  rewrite encode_split. apply Forall_app. split.
  - eapply Forall_impl; [apply body_symbols|].
    intros c (k & Hk & ->). rewrite symbol_not_whitespace by exact Hk. reflexivity.
  - unfold padding. destruct (length bs mod 3)%nat as [|[|[|k]]]; repeat constructor.
Qed.

(** [atob] inverts [btoa] on every binary string. *)
Lemma atob_btoa (s : list ascii) : atob (btoa s) = Ok s.
Proof.
  unfold atob, btoa.
  rewrite filter_id by apply encode_no_whitespace.
  rewrite remove_padding_encode, decode_body.
  rewrite map_map. f_equal.
  rewrite <- (map_id s) at 2. apply map_ext. intros c.
  apply ascii_of_byte_of_ascii.
Qed.

End Base64Facts.

(** ** The helpers as maps over their argument *)

Lemma arrayBufferToBase64_map (buffer : list byte) :
  arrayBufferToBase64 buffer = Base64.btoa (map ascii_of_byte buffer).
Proof.
  unfold arrayBufferToBase64. rewrite append_all. cbn [app].
  rewrite (map_lookup_seq fromCharCode). reflexivity.
Qed.

Lemma fill_from_string (s : list ascii) :
  for_range 0 (length s) (fun i bytes => <[i := charCodeAt_u8 s i]> bytes)
    (replicate (length s) x00)
  = map byte_of_ascii s.
Proof.
  rewrite <- (length_replicate (length s) x00) at 1.
  rewrite fill_all, length_replicate.
  unfold charCodeAt_u8.
  rewrite (map_lookup_seq
             (fun o => match o with Some c => byte_of_ascii c | None => x00 end)).
  reflexivity.
Qed.

(** Shared by the round-trip statements below. *)
Lemma base64_roundtrip (b : list byte) :
  base64ToUint8Array (arrayBufferToBase64 b) = Ok b.
Proof.
  rewrite arrayBufferToBase64_map. unfold base64ToUint8Array.
  rewrite Base64Facts.atob_btoa. cbn [mbind completion_bind].
  rewrite fill_from_string, map_map. f_equal.
  rewrite <- (map_id b) at 2. apply map_ext. intros x.
  apply byte_of_ascii_of_byte.
Qed.

(** C8. The two base64 helpers form an exact round trip: for every byte
    sequence [b], including the empty one and those made of zero bytes,
    [base64ToUint8Array (arrayBufferToBase64 b)] returns [b]. *)
Theorem C8_text_roundtrip (b : list byte) :
  base64ToUint8Array (arrayBufferToBase64 b) = Ok b
  /\ base64ToUint8Array (arrayBufferToBase64 []) = Ok []
  /\ forall n, base64ToUint8Array (arrayBufferToBase64 (replicate n x00))
               = Ok (replicate n x00).
Proof.
  split; [|split]; intros; apply base64_roundtrip.
Qed.

(** ** Rounding *)

Lemma Qfloor_unique (x : Q) (k : Z) :
  (inject_Z k <= x)%Q -> (x < inject_Z (k + 1))%Q -> Qfloor x = k.
Proof.
  intros Hle Hlt.
  pose proof (Qfloor_le x) as H1. pose proof (Qlt_floor x) as H2.
  assert (Qfloor x < k + 1)%Z by (rewrite Zlt_Qlt; lra).
  assert (k < Qfloor x + 1)%Z by (rewrite Zlt_Qlt; lra).
  lia.
Qed.

Lemma Math_round_Z (z : Z) : JS.Math_round (inject_Z z) = z.
Proof.
  unfold JS.Math_round. apply Qfloor_unique.
  - lra.
  - rewrite inject_Z_plus. change (inject_Z 1) with 1%Q. lra.
Qed.

Lemma Math_round_comp (x y : Q) : (x == y)%Q -> JS.Math_round x = JS.Math_round y.
Proof. intros H. unfold JS.Math_round. apply Qfloor_comp. rewrite H. reflexivity. Qed.

Lemma Math_round_nonneg (x : Q) : (0 <= x)%Q -> (0 <= JS.Math_round x)%Z.
Proof.
  intros H. unfold JS.Math_round.
  change 0%Z with (Qfloor 0). apply Qfloor_resp_le. lra.
Qed.

Lemma Math_round_le (x : Q) : (inject_Z (JS.Math_round x) <= x + (1 # 2))%Q.
Proof. apply Qfloor_le. Qed.

Lemma Math_round_gt (x : Q) : (x - (1 # 2) < inject_Z (JS.Math_round x))%Q.
Proof.
  unfold JS.Math_round. pose proof (Qlt_floor (x + (1 # 2))) as H.
  rewrite inject_Z_plus in H. change (inject_Z 1) with 1%Q in H. lra.
Qed.

(** Advancing the argument by at least 1 advances the rounded value. *)
Lemma Math_round_step (x y : Q) :
  (x + 1 <= y)%Q -> (JS.Math_round x + 1 <= JS.Math_round y)%Z.
Proof.
  intros H.
  pose proof (Math_round_le x). pose proof (Math_round_gt y).
  assert (JS.Math_round x < JS.Math_round y)%Z; [|lia].
  rewrite Zlt_Qlt. lra.
Qed.

(** ** The main loop of [downsampleBuffer] *)

(** One unfolding of the loop: test the guard, run the body, loop. *)
Lemma while_loop_step (buffer : list Q) (sampleRatio : Q) (newLength : Z) (st : LoopState) :
  while_loop buffer sampleRatio newLength st
  = if loop_cond newLength st
    then while_loop buffer sampleRatio newLength (loop_body buffer sampleRatio st)
    else st.
Proof.
  unfold while_loop at 1. rewrite Subterm.FixWf_unfold.
  - cbn [pr1 pr2]. unfold while_loop_functional.
    destruct (inspect (loop_cond newLength st)) as [[] e]; simpl; rewrite e; reflexivity.
  - intros x f g Hfg. cbn [pr1 pr2]. unfold while_loop_functional.
    destruct (inspect _) as [[] e]; simpl; [apply Hfg | reflexivity].
Qed.

Lemma loop_body_offsetResult (buffer : list Q) (sampleRatio : Q) (st : LoopState) :
  offsetResult (loop_body buffer sampleRatio st) = (offsetResult st + 1)%Z.
Proof. unfold loop_body. destruct (window_accum _ _ _). reflexivity. Qed.

Lemma iter_offsetResult (buffer : list Q) (sampleRatio : Q) (st : LoopState) (k : nat) :
  offsetResult (Nat.iter k (loop_body buffer sampleRatio) st)
  = (offsetResult st + Z.of_nat k)%Z.
Proof.
  induction k as [|k IH].
  - simpl. lia.
  - rewrite Nat.iter_succ, loop_body_offsetResult, IH. lia.
Qed.

(** The loop is the [newLength - offsetResult]-fold iteration of its body. *)
Lemma while_loop_iter (buffer : list Q) (sampleRatio : Q) (newLength : Z) (st : LoopState) :
  while_loop buffer sampleRatio newLength st
  = Nat.iter (Z.to_nat (newLength - offsetResult st)) (loop_body buffer sampleRatio) st.
Proof.
  remember (Z.to_nat (newLength - offsetResult st)) as m eqn:Hm.
  revert st Hm. induction m as [|m IH]; intros st Hm.
  - rewrite while_loop_step. unfold loop_cond.
    destruct (Z.ltb_spec (offsetResult st) newLength); [lia | reflexivity].
  - rewrite while_loop_step. unfold loop_cond.
    destruct (Z.ltb_spec (offsetResult st) newLength); [|lia].
    rewrite Nat.iter_succ_r. apply IH.
    rewrite loop_body_offsetResult. lia.
Qed.

Lemma iter_state (buffer : list Q) (sampleRatio : Q) (result0 : list Q) (k : nat) :
  Nat.iter k (loop_body buffer sampleRatio)
    {| offsetResult := 0; offsetBuffer := 0; result := result0 |}
  = {| offsetResult := Z.of_nat k;
       offsetBuffer := window_from sampleRatio k;
       result := for_range 0 k (fun j r => <[j := stored buffer sampleRatio j]> r) result0 |}.
Proof.
  induction k as [|k IH].
  - reflexivity.
  - rewrite Nat.iter_succ, IH, for_range_S.
    unfold loop_body, stored, window_to.
    cbn [offsetResult offsetBuffer result].
    destruct (window_accum buffer (window_from sampleRatio k) _) as [accum count].
    rewrite Nat2Z.id.
    f_equal; [lia|].
    unfold window_from. f_equal. f_equal. f_equal. lia.
Qed.

Lemma downsampleBuffer_ne (buffer : list Q) (inputSampleRate outputSampleRate : positive) :
  inputSampleRate <> outputSampleRate ->
  let sampleRatio :=
    (inject_Z (Zpos inputSampleRate) / inject_Z (Zpos outputSampleRate))%Q in
  let newLength := JS.Math_round (inject_Z (Z.of_nat (length buffer)) / sampleRatio) in
  downsampleBuffer buffer inputSampleRate outputSampleRate
  = map (stored buffer sampleRatio) (seq 0 (Z.to_nat newLength)).
Proof.
  intros Hne sampleRatio newLength. unfold downsampleBuffer.
  destruct (Pos.eqb_spec inputSampleRate outputSampleRate) as [|_]; [contradiction|].
  fold sampleRatio. fold newLength. cbv zeta.
  rewrite while_loop_iter. cbn [offsetResult].
  rewrite Z.sub_0_r, iter_state. cbn [result].
  rewrite <- (length_replicate (Z.to_nat newLength) 0%Q) at 1.
  rewrite fill_all, length_replicate. reflexivity.
Qed.

Lemma sampleRatio_pos (inputSampleRate outputSampleRate : positive) :
  (0 < inject_Z (Zpos inputSampleRate) / inject_Z (Zpos outputSampleRate))%Q.
Proof.
  apply Qlt_shift_div_l.
  - change 0%Q with (inject_Z 0). rewrite <- Zlt_Qlt. lia.
  - rewrite Qmult_0_l. change 0%Q with (inject_Z 0). rewrite <- Zlt_Qlt. lia.
Qed.

Lemma newLength_nonneg (len : nat) (sampleRatio : Q) :
  (0 < sampleRatio)%Q ->
  (0 <= JS.Math_round (inject_Z (Z.of_nat len) / sampleRatio))%Z.
Proof.
  intros H. apply Math_round_nonneg. apply Qle_shift_div_l; [exact H|].
  rewrite Qmult_0_l. change 0%Q with (inject_Z 0). rewrite <- Zle_Qle. lia.
Qed.

Lemma downsampleBuffer_eq (x : list Q) (r : positive) : downsampleBuffer x r r = x.
Proof. unfold downsampleBuffer. rewrite Pos.eqb_refl. reflexivity. Qed.

(** C9. Identity: for every rate [r] and every sequence [x], resampling from
    [r] to [r] returns [x] itself. *)
Theorem C9_identity (x : list Q) (r : positive) : downsampleBuffer x r r = x.
Proof. apply downsampleBuffer_eq. Qed.


(** ** The windows of the resampler *)

Lemma accum_fold (f : nat -> Q) (lo m : nat) (accum : Q) (count : Z) :
  fold_left (fun st i => let '(accum, count) := st in ((accum + f i)%Q, (count + 1)%Z))
    (seq lo m) (accum, count)
  = (fold_left Qplus (map f (seq lo m)) accum, (count + Z.of_nat m)%Z).
Proof.
  revert lo accum count. induction m as [|m IH]; intros lo accum count.
  - simpl. f_equal. lia.
  - cbn [seq fold_left map]. rewrite IH. f_equal. lia.
Qed.

Lemma map_f32_get (buffer : list Q) (lo m : nat) :
  (lo + m <= length buffer)%nat ->
  map (f32_get buffer) (seq lo m) = take m (drop lo buffer).
Proof.
  revert lo. induction m as [|m IH]; intros lo Hle.
  - reflexivity.
  - cbn [seq map].
    destruct (lookup_lt_is_Some_2 buffer lo) as [x Hx]; [lia|].
    rewrite (drop_S _ _ _ Hx). cbn [take].
    unfold f32_get at 1. rewrite Hx. cbn [default]. f_equal.
    apply IH. lia.
Qed.

(** What the inner loop computes: the left-to-right sum and the number of
    the samples from [offsetBuffer] up to the earlier of [nextOffsetBuffer]
    and the end of the input. *)
Lemma window_accum_spec (buffer : list Q) (offsetBuffer nextOffsetBuffer : Z) :
  (0 <= offsetBuffer)%Z ->
  let stop := Z.min nextOffsetBuffer (Z.of_nat (length buffer)) in
  let w := take (Z.to_nat stop - Z.to_nat offsetBuffer)
             (drop (Z.to_nat offsetBuffer) buffer) in
  window_accum buffer offsetBuffer nextOffsetBuffer
  = (fold_left Qplus w 0%Q, Z.of_nat (Z.to_nat stop - Z.to_nat offsetBuffer)).
Proof.
  intros Hob stop w. unfold window_accum, for_range. fold stop.
  rewrite (accum_fold (f32_get buffer)). f_equal.
  destruct (Nat.le_gt_cases (Z.to_nat stop) (Z.to_nat offsetBuffer)) as [Hle|Hgt].
  - subst w. replace (Z.to_nat stop - Z.to_nat offsetBuffer)%nat with 0%nat by lia.
    reflexivity.
  - subst w. rewrite map_f32_get; [reflexivity|]. subst stop. lia.
Qed.

Lemma window_from_nonneg (sampleRatio : Q) (j : nat) :
  (0 < sampleRatio)%Q -> (0 <= window_from sampleRatio j)%Z.
Proof.
  intros Hr. destruct j as [|j]; [simpl; lia|].
  unfold window_from. apply Math_round_nonneg.
  apply Qmult_le_0_compat; [|lra].
  change 0%Q with (inject_Z 0). rewrite <- Zle_Qle. lia.
Qed.

Lemma fold_left_Qplus (w : list Q) (a : Q) :
  (fold_left Qplus w a == a + SpecDownsampler.sum w)%Q.
Proof.
  revert a. induction w as [|x w IH]; intros a; simpl.
  - ring.
  - rewrite IH. ring.
Qed.

(** The window of the code is the window of the specification. *)
Lemma code_window_is_spec_window (buffer : list Q) (sampleRatio : Q) (j : nat) :
  (0 < sampleRatio)%Q ->
  let len := Z.of_nat (length buffer) in
  let stop := Z.min (window_to sampleRatio j) len in
  take (Z.to_nat stop - Z.to_nat (window_from sampleRatio j))
    (drop (Z.to_nat (window_from sampleRatio j)) buffer)
  = SpecDownsampler.window buffer
      (SpecDownsampler.window_start sampleRatio len j)
      (SpecDownsampler.window_end sampleRatio len j).
Proof.
  intros Hr len stop.
  pose proof (window_from_nonneg sampleRatio j Hr) as Hfrom.
  unfold SpecDownsampler.window.
  assert (Hend : SpecDownsampler.window_end sampleRatio len j = stop) by reflexivity.
  rewrite Hend.
  assert (Hstart : SpecDownsampler.window_start sampleRatio len j
                   = Z.min (window_from sampleRatio j) len).
  { destruct j as [|j]; [simpl; lia|].
    unfold SpecDownsampler.window_start, SpecDownsampler.window_end, window_from.
    f_equal. f_equal. f_equal. f_equal. lia. }
  rewrite Hstart.
  destruct (Z.le_gt_cases (window_from sampleRatio j) len) as [Hle|Hgt].
  - rewrite Z.min_l by exact Hle. f_equal. lia.
  - rewrite Z.min_r by lia.
    replace (Z.to_nat stop - Z.to_nat (window_from sampleRatio j))%nat
      with 0%nat by (subst stop; lia).
    rewrite (drop_ge buffer (Z.to_nat len)) by (subst len; lia).
    rewrite take_nil. reflexivity.
Qed.

Lemma stored_is_mean (buffer : list Q) (sampleRatio : Q) (j : nat) :
  (0 < sampleRatio)%Q ->
  let len := Z.of_nat (length buffer) in
  let w := SpecDownsampler.window buffer
             (SpecDownsampler.window_start sampleRatio len j)
             (SpecDownsampler.window_end sampleRatio len j) in
  (stored buffer sampleRatio j == SpecDownsampler.mean w)%Q
  /\ (w = [] -> stored buffer sampleRatio j = 0%Q).
Proof.
  intros Hr len w. unfold stored.
  rewrite window_accum_spec by (apply window_from_nonneg, Hr).
  cbv zeta. pose proof (code_window_is_spec_window buffer sampleRatio j Hr) as Hw.
  cbv zeta in Hw. fold len in Hw. fold w in Hw. fold len.
  set (m := (Z.to_nat (Z.min (window_to sampleRatio j) len)
             - Z.to_nat (window_from sampleRatio j))%nat) in *.
  rewrite Hw.
  assert (Hlen : length w = Nat.min m (length (drop (Z.to_nat (window_from sampleRatio j)) buffer))).
  { rewrite <- Hw. apply length_take. }
  destruct w as [|y w'] eqn:Ew.
  - destruct (Z.ltb_spec 0 (Z.of_nat m)) as [Hpos|Hz].
    + split; [|intros _]; exfalso.
      * subst m. simpl in Hlen. rewrite length_drop in Hlen. subst len. lia.
      * subst m. simpl in Hlen. rewrite length_drop in Hlen. subst len. lia.
    + split; reflexivity.
  - destruct (Z.ltb_spec 0 (Z.of_nat m)) as [Hpos|Hz].
    + split; [|discriminate].
      unfold SpecDownsampler.mean.
      rewrite fold_left_Qplus, Qplus_0_l.
      assert (Hm : m = length (y :: w')).
      { rewrite Hlen. subst m. rewrite length_drop. subst len. lia. }
      rewrite Hm. reflexivity.
    + exfalso. simpl in Hlen. lia.
Qed.

(** ** Constant input *)

Lemma sum_replicate (m : nat) (c : Q) :
  (SpecDownsampler.sum (replicate m c) == inject_Z (Z.of_nat m) * c)%Q.
Proof.
  induction m as [|m IH].
  - simpl. ring.
  - cbn [replicate SpecDownsampler.sum fold_right].
    change (fold_right Qplus 0%Q (replicate m c)) with (SpecDownsampler.sum (replicate m c)).
    rewrite IH, Nat2Z.inj_succ. unfold Z.succ. rewrite inject_Z_plus.
    change (inject_Z 1) with 1%Q. ring.
Qed.

Lemma sampleRatio_gt_1 (inputSampleRate outputSampleRate : positive) :
  (outputSampleRate < inputSampleRate)%positive ->
  (1 < inject_Z (Zpos inputSampleRate) / inject_Z (Zpos outputSampleRate))%Q.
Proof.
  intros H. apply Qlt_shift_div_l.
  - change 0%Q with (inject_Z 0). rewrite <- Zlt_Qlt. lia.
  - rewrite Qmult_1_l, <- Zlt_Qlt. lia.
Qed.

(** With a ratio above 1 every window of the output is inhabited. *)
Lemma window_inhabited (len : nat) (sampleRatio : Q) (j : nat) :
  (1 < sampleRatio)%Q ->
  (Z.of_nat j < JS.Math_round (inject_Z (Z.of_nat len) / sampleRatio))%Z ->
  (window_from sampleRatio j < Z.min (window_to sampleRatio j) (Z.of_nat len))%Z.
Proof.
  intros Hr Hj.
  set (x := (inject_Z (Z.of_nat len) / sampleRatio)%Q) in *.
  assert (Hx : (x * sampleRatio == inject_Z (Z.of_nat len))%Q).
  { subst x. field. lra. }
  pose proof (Math_round_le x) as Hn.
  assert (Hj' : (inject_Z (Z.of_nat j) + 1 <= inject_Z (JS.Math_round x))%Q).
  { change 1%Q with (inject_Z 1). rewrite <- inject_Z_plus, <- Zle_Qle. lia. }
  assert (Hlen : ((inject_Z (Z.of_nat j) + (1 # 2)) * sampleRatio
                  <= inject_Z (Z.of_nat len))%Q).
  { rewrite <- Hx. apply Qmult_le_compat_r; lra. }
  apply Z.min_glb_lt.
  - (* the window ends after it starts *)
    unfold window_to. destruct j as [|j].
    + cbn [window_from].
      assert (H := Math_round_step 0 (inject_Z (Z.of_nat 0 + 1) * sampleRatio)).
      change (inject_Z (Z.of_nat 0 + 1)) with 1%Q in *.
      specialize (H ltac:(lra)).
      change (JS.Math_round 0) with 0%Z in H. lia.
    + unfold window_from.
      assert (H := Math_round_step (inject_Z (Z.of_nat (S j)) * sampleRatio)
                     (inject_Z (Z.of_nat (S j) + 1) * sampleRatio)).
      rewrite inject_Z_plus in H. change (inject_Z 1) with 1%Q in H.
      specialize (H ltac:(lra)).
      rewrite inject_Z_plus. change (inject_Z 1) with 1%Q. lia.
  - (* the window starts inside the input *)
    destruct j as [|j].
    + cbn [window_from]. rewrite Zlt_Qlt.
      change (inject_Z (Z.of_nat 0)) with 0%Q in Hlen. change (inject_Z 0) with 0%Q. lra.
    + unfold window_from.
      pose proof (Math_round_le (inject_Z (Z.of_nat (S j)) * sampleRatio)) as Hle.
      rewrite Zlt_Qlt. lra.
Qed.

Lemma stored_constant (len : nat) (c : Q) (sampleRatio : Q) (j : nat) :
  (1 < sampleRatio)%Q ->
  (Z.of_nat j < JS.Math_round (inject_Z (Z.of_nat len) / sampleRatio))%Z ->
  (stored (replicate len c) sampleRatio j == c)%Q.
Proof.
  intros Hr Hj.
  pose proof (window_inhabited len sampleRatio j Hr Hj) as Hw.
  assert (Hfrom : (0 <= window_from sampleRatio j)%Z)
    by (apply window_from_nonneg; lra).
  unfold stored. rewrite window_accum_spec by exact Hfrom. cbv zeta.
  rewrite length_replicate, drop_replicate, take_replicate.
  set (m := (Z.to_nat (Z.min (window_to sampleRatio j) (Z.of_nat len))
             - Z.to_nat (window_from sampleRatio j))%nat).
  assert (Hm : (0 < m)%nat) by (subst m; lia).
  replace (Nat.min m (len - Z.to_nat (window_from sampleRatio j))) with m
    by (subst m; lia).
  destruct (Z.ltb_spec 0 (Z.of_nat m)) as [_|]; [|lia].
  rewrite fold_left_Qplus, sum_replicate. field.
  change 0%Q with (inject_Z 0). rewrite inject_Z_injective. lia.
Qed.




(** ** Quantization *)

Lemma trunc_nonneg (x : Q) : (0 <= x)%Q -> JS.trunc x = Qfloor x.
Proof.
  destruct x as [n d]. unfold Qle. simpl. intros H.
  unfold JS.trunc. simpl. apply Z.quot_div_nonneg; lia.
Qed.

Lemma trunc_nonpos (x : Q) : (x <= 0)%Q -> JS.trunc x = Qceiling x.
Proof.
  destruct x as [n d]. unfold Qle. simpl. intros H.
  unfold JS.trunc, Qceiling. simpl.
  rewrite <- (Z.opp_involutive n) at 1.
  rewrite Z.quot_opp_l by lia. f_equal.
  apply Z.quot_div_nonneg; lia.
Qed.

Lemma ToInt16_small (x : Q) :
  (-32768 <= JS.trunc x <= 32767)%Z -> JS.ToInt16 x = JS.trunc x.
Proof.
  intros H. unfold JS.ToInt16. cbv zeta.
  destruct (Z.leb_spec 32768 (JS.trunc x mod 65536)); lia_div.
Qed.

Lemma clamp_cases (x : Q) :
  let s := JS.Math_max (-1) (JS.Math_min 1 x) in
  ((x <= -1)%Q /\ s = (-1)%Q) \/ ((-1 < x < 1)%Q /\ s = x) \/ ((1 <= x)%Q /\ s = 1%Q).
Proof.
  unfold JS.Math_max, JS.Math_min, Qmax, Qmin, GenericMinMax.gmax, GenericMinMax.gmin.
  destruct (Qcompare_spec 1 x) as [He|Hlt|Hgt].
  - right. right. split; [lra|reflexivity].
  - right. right. split; [lra|reflexivity].
  - destruct (Qcompare_spec (-1) x) as [He'|Hlt'|Hgt'].
    + left. split; [lra|reflexivity].
    + right. left. split; [lra|reflexivity].
    + left. split; [lra|reflexivity].
Qed.

Lemma ltb_spec (x y : Q) : reflect (x < y)%Q (JS.ltb x y).
Proof.
  unfold JS.ltb. destruct (Qle_bool y x) eqn:E; constructor.
  - apply Qle_bool_iff in E. lra.
  - apply Qnot_le_lt. intros H. apply Qle_bool_iff in H. congruence.
Qed.

Lemma to_int16_nonneg (x : Q) :
  (0 <= x <= 1)%Q -> to_int16 x = Qfloor (x * 32767).
Proof.
  intros Hx. unfold to_int16.
  assert (Hs : exists s, JS.Math_max (-1) (JS.Math_min 1 x) = s /\ (s == x)%Q).
  { destruct (clamp_cases x) as [[H ->]|[[H ->]|[H ->]]]; eexists; split; eauto; lra. }
  destruct Hs as (s & -> & Hs).
  destruct (ltb_spec s 0) as [Hneg|_]; [lra|].
  assert (H0 : (0 <= s * 32767)%Q) by lra.
  assert (Hfl : Qfloor (s * 32767) = Qfloor (x * 32767))
    by (apply Qfloor_comp; rewrite Hs; reflexivity).
  rewrite ToInt16_small; rewrite trunc_nonneg by exact H0; [exact Hfl|].
  rewrite Hfl.
  pose proof (Qfloor_resp_le 0 (x * 32767) ltac:(lra)) as Hlo.
  pose proof (Qfloor_resp_le (x * 32767) 32767 ltac:(lra)) as Hhi.
  change (Qfloor 0) with 0%Z in Hlo. change (Qfloor 32767) with 32767%Z in Hhi. lia.
Qed.

Lemma to_int16_neg (x : Q) :
  (-1 <= x < 0)%Q -> to_int16 x = Qceiling (x * 32768).
Proof.
  intros Hx. unfold to_int16.
  assert (Hs : exists s, JS.Math_max (-1) (JS.Math_min 1 x) = s /\ (s == x)%Q).
  { destruct (clamp_cases x) as [[H ->]|[[H ->]|[H ->]]]; eexists; split; eauto; lra. }
  destruct Hs as (s & -> & Hs).
  destruct (ltb_spec s 0) as [_|Hpos]; [|lra].
  assert (H0 : (s * 32768 <= 0)%Q) by lra.
  assert (Hce : Qceiling (s * 32768) = Qceiling (x * 32768))
    by (apply Qceiling_comp; rewrite Hs; reflexivity).
  rewrite ToInt16_small; rewrite trunc_nonpos by exact H0; [exact Hce|].
  rewrite Hce.
  pose proof (Qceiling_resp_le (-32768) (x * 32768) ltac:(lra)) as Hlo.
  pose proof (Qceiling_resp_le (x * 32768) 0 ltac:(lra)) as Hhi.
  change (Qceiling (-32768)) with (-32768)%Z in Hlo. change (Qceiling 0) with 0%Z in Hhi. lia.
Qed.

(** Samples at or beyond full scale. *)
Lemma to_int16_high (x : Q) : (1 <= x)%Q -> to_int16 x = 32767%Z.
Proof.
  intros Hx. unfold to_int16.
  destruct (clamp_cases x) as [[H _]|[[H _]|[_ ->]]]; [lra|lra|reflexivity].
Qed.

Lemma to_int16_low (x : Q) : (x <= -1)%Q -> to_int16 x = (-32768)%Z.
Proof.
  intros Hx. unfold to_int16.
  destruct (clamp_cases x) as [[_ ->]|[[H _]|[H _]]]; [reflexivity|lra|lra].
Qed.

Lemma to_int16_range (x : Q) : (-32768 <= to_int16 x <= 32767)%Z.
Proof.
  destruct (Qlt_le_dec x (-1)) as [H1|H1]; [rewrite to_int16_low by lra; lia|].
  destruct (Qlt_le_dec 1 x) as [H2|H2]; [rewrite to_int16_high by lra; lia|].
  destruct (Qlt_le_dec x 0) as [H3|H3].
  - rewrite to_int16_neg by lra.
    pose proof (Qceiling_resp_le (-32768) (x * 32768) ltac:(lra)) as Hlo.
    pose proof (Qceiling_resp_le (x * 32768) 0 ltac:(lra)) as Hhi.
    change (Qceiling (-32768)) with (-32768)%Z in Hlo. change (Qceiling 0) with 0%Z in Hhi. lia.
  - rewrite to_int16_nonneg by lra.
    pose proof (Qfloor_resp_le 0 (x * 32767) ltac:(lra)) as Hlo.
    pose proof (Qfloor_resp_le (x * 32767) 32767 ltac:(lra)) as Hhi.
    change (Qfloor 0) with 0%Z in Hlo. change (Qfloor 32767) with 32767%Z in Hhi. lia.
Qed.

Lemma clamp_idempotent (x : Q) :
  let clamp y := JS.Math_max (-1) (JS.Math_min 1 y) in clamp (clamp x) = clamp x.
Proof.
  cbv zeta. destruct (clamp_cases x) as [[H ->]|[[H Hs]|[H ->]]];
    [reflexivity| |reflexivity].
  rewrite Hs. exact Hs.
Qed.

(** C4. The quantization step clamps to [[-1, 1]] and scales negative
    samples by 32768 and the others by 32767: 1.5 and 1.0 both encode to
    32767, -1.5 and -1.0 both encode to -32768, and 0.0 encodes to 0; the
    encoded integer of any sample is that of the clamped sample and lies in
    the 16-bit range. *)
Theorem C4_clamp_and_scale :
  createPcmBlob_int16 [3 # 2]%Q TARGET_RATE = [32767%Z]
  /\ createPcmBlob_int16 [1]%Q TARGET_RATE = [32767%Z]
  /\ createPcmBlob_int16 [- (3 # 2)]%Q TARGET_RATE = [(-32768)%Z]
  /\ createPcmBlob_int16 [- (1)]%Q TARGET_RATE = [(-32768)%Z]
  /\ createPcmBlob_int16 [0]%Q TARGET_RATE = [0%Z]
  /\ createPcmBlob [3 # 2]%Q TARGET_RATE = createPcmBlob [1]%Q TARGET_RATE
  /\ createPcmBlob [- (3 # 2)]%Q TARGET_RATE = createPcmBlob [- (1)]%Q TARGET_RATE
  /\ (forall x : Q, to_int16 x = to_int16 (JS.Math_max (-1) (JS.Math_min 1 x)))
  /\ (forall x : Q, (-32768 <= to_int16 x <= 32767)%Z).
Proof.
  do 7 (split; [vm_compute; reflexivity|]).
  split.
  - intros x. unfold to_int16. cbv zeta. f_equal.
    pose proof (clamp_idempotent x) as H. cbv zeta in H. rewrite H. reflexivity.
  - apply to_int16_range.
Qed.
(** ** The 16-bit view of a byte buffer *)

Lemma to_N_byte_of_N (n : N) : Byte.to_N (byte_of_N n) = (n mod 256)%N.
Proof.
  unfold byte_of_N. destruct (Byte.of_N (n mod 256)) as [b|] eqn:E.
  - apply Byte.to_of_N. exact E.
  - apply Byte.of_N_None_iff in E.
    pose proof (N.mod_lt n 256 ltac:(lia)). lia.
Qed.

Lemma int16_of_int16_bytes (k : Z) :
  (-32768 <= k <= 32767)%Z ->
  int16_of_bytes (byte_of_N (Z.to_N ((k mod 65536) mod 256)))
                 (byte_of_N (Z.to_N ((k mod 65536) / 256))) = k.
Proof.
  intros Hk. unfold int16_of_bytes. rewrite !to_N_byte_of_N. cbv zeta.
  match goal with |- context [(32768 <=? ?u)%Z] => destruct (Z.leb_spec 32768 u) end;
    lia_div.
Qed.

Lemma int16_view_buffer (int16 : list Z) :
  Forall (fun k => (-32768 <= k <= 32767)%Z) int16 ->
  int16_view (Int16Array_buffer int16) = int16.
Proof.
  induction 1 as [|k l Hk _ IH]; [reflexivity|].
  unfold Int16Array_buffer in *. cbn [flat_map int16_bytes app int16_view].
  rewrite IH. f_equal. apply int16_of_int16_bytes, Hk.
Qed.

Lemma Int16Array_buffer_length (int16 : list Z) :
  length (Int16Array_buffer int16) = (2 * length int16)%nat.
Proof.
  induction int16 as [|k l IH]; [reflexivity|].
  unfold Int16Array_buffer in *. cbn [flat_map int16_bytes app length].
  rewrite IH. lia.
Qed.

Lemma new_Int16Array_buffer (int16 : list Z) :
  Forall (fun k => (-32768 <= k <= 32767)%Z) int16 ->
  new_Int16Array (Int16Array_buffer int16) = Ok int16.
Proof.
  intros H. unfold new_Int16Array.
  rewrite Int16Array_buffer_length, Nat.mul_comm, Nat.Div0.mod_mul.
  cbn [Nat.eqb]. rewrite int16_view_buffer by exact H. reflexivity.
Qed.

(** ** The decoder *)

(** The indices the loop [for (i = 0; i < q; i++)] visits are the naturals
    below [q]. *)
Lemma for_below_indices (q : Q) (i : nat) :
  In i (seq 0 (Z.to_nat (Qceiling q))) <-> (inject_Z (Z.of_nat i) < q)%Q.
Proof.
  rewrite in_seq.
  pose proof (Qle_ceiling q) as Hle. pose proof (Qceiling_lt q) as Hlt.
  split.
  - intros [_ Hi].
    assert (Hz : (Z.of_nat i <= Qceiling q - 1)%Z) by lia.
    rewrite Zle_Qle in Hz. lra.
  - intros Hi. split; [lia|].
    assert (Hz : (Z.of_nat i < Qceiling q)%Z) by (rewrite Zlt_Qlt; lra).
    lia.
Qed.

Lemma for_below_fill {A : Type} (q : Q) (g : nat -> A) (arr : list A) :
  length arr = Z.to_nat (Qfloor q) ->
  for_below (Some q) (fun i a => <[i := g i]> a) arr = map g (seq 0 (length arr)).
Proof.
  intros Hlen. unfold for_below. rewrite fill_prefix.
  pose proof (Qle_floor_ceiling q) as Hfc. rewrite <- Zle_Qle in Hfc.
  replace (Nat.min (Z.to_nat (Qceiling q)) (length arr)) with (length arr) by lia.
  rewrite drop_ge by lia. apply app_nil_r.
Qed.

Lemma decode_channel_ok (dataInt16 : list Z) (numChannels : Z) (q : Q)
    (c : nat) (buffer : AudioBuffer) (arr : list number) :
  channels buffer !! c = Some arr ->
  length arr = Z.to_nat (Qfloor q) ->
  decode_channel dataInt16 numChannels (Some q) c buffer
  = Ok {| sampleRate := sampleRate buffer;
          channels := <[c := channel_of dataInt16 numChannels (length arr) c]>
                        (channels buffer) |}.
Proof.
  intros Hc Hlen. unfold decode_channel, getChannelData. rewrite Hc.
  cbn [mbind completion_bind].
  rewrite (for_below_fill q
             (fun i => over_32768
                         (dataInt16 !! Z.to_nat (Z.of_nat i * numChannels + Z.of_nat c))))
    by exact Hlen.
  reflexivity.
Qed.

Lemma decode_channels_fold (dataInt16 : list Z) (numChannels : Z) (q : Q)
    (rate : Z) (frames n k : nat) :
  (k <= n)%nat ->
  frames = Z.to_nat (Qfloor q) ->
  fold_left
    (fun acc channel =>
       buffer ← acc; decode_channel dataInt16 numChannels (Some q) channel buffer)
    (seq 0 k)
    (Ok {| sampleRate := rate;
           channels := replicate n (replicate frames (Num 0)) |})
  = Ok {| sampleRate := rate;
          channels := map (channel_of dataInt16 numChannels frames) (seq 0 k)
                        ++ replicate (n - k) (replicate frames (Num 0)) |}.
Proof.
  intros Hk Hf. induction k as [|k IH].
  - cbn [seq fold_left map app]. rewrite Nat.sub_0_r. reflexivity.
  - rewrite seq_S, fold_left_app, IH by lia. cbn [fold_left mbind completion_bind Nat.add].
    rewrite (decode_channel_ok _ _ q k _ (replicate frames (Num 0))).
    + cbn [sampleRate channels]. f_equal. f_equal.
      rewrite length_replicate, map_app, <- app_assoc. cbn [map app].
      replace (n - k)%nat with (S (n - S k)) by lia. cbn [replicate].
      rewrite insert_app_r_alt by (rewrite length_map, length_seq; lia).
      rewrite length_map, length_seq, Nat.sub_diag. reflexivity.
    + cbn [channels]. rewrite lookup_app_r by (rewrite length_map, length_seq; lia).
      rewrite length_map, length_seq, Nat.sub_diag.
      apply lookup_replicate_2. lia.
    + rewrite length_replicate. exact Hf.
Qed.

Lemma to_unsigned_long_Z (z : Z) :
  (0 <= z < 4294967296)%Z -> JS.to_unsigned_long (Some (inject_Z z)) = z.
Proof.
  intros H. unfold JS.to_unsigned_long, JS.trunc. simpl.
  rewrite Z.quot_1_r. apply Z.mod_small. lia.
Qed.

Lemma to_unsigned_long_div (a b : Z) :
  (0 <= a)%Z -> (0 < b)%Z -> (a / b < 4294967296)%Z ->
  JS.to_unsigned_long (Some (inject_Z a / inject_Z b)%Q) = (a / b)%Z.
Proof.
  intros Ha Hb Hlt. unfold JS.to_unsigned_long.
  rewrite trunc_nonneg.
  - rewrite <- Zdiv_Qdiv. apply Z.mod_small. split; [apply Z.div_pos; lia|lia].
  - apply Qle_shift_div_l.
    + change 0%Q with (inject_Z 0). rewrite <- Zlt_Qlt. lia.
    + rewrite Qmult_0_l. change 0%Q with (inject_Z 0). rewrite <- Zle_Qle. lia.
Qed.

(** What the decoder returns when the view exists and the platform gives a
    buffer of [sampleCount / numChannels] frames. *)
Lemma decodeAudioData_ok (data : list byte) (ctx : AudioContext)
    (sampleRate numChannels : Z) :
  (length data mod 2 = 0)%nat ->
  (0 < numChannels < 4294967296)%Z ->
  let dataInt16 := int16_view data in
  let frames := (Z.of_nat (length dataInt16) / numChannels)%Z in
  (frames < 4294967296)%Z ->
  allocates ctx numChannels frames sampleRate = true ->
  decodeAudioData data ctx sampleRate numChannels
  = Ok {| sampleRate := sampleRate;
          channels := map (channel_of dataInt16 numChannels (Z.to_nat frames))
                        (seq 0 (Z.to_nat numChannels)) |}.
Proof.
  intros Heven Hch dataInt16 frames Hframes Halloc.
  unfold decodeAudioData, new_Int16Array. rewrite Heven. cbn [Nat.eqb mbind completion_bind].
  fold dataInt16. unfold JS.div.
  destruct (Z.eqb_spec numChannels 0) as [|_]; [lia|].
  unfold createBuffer.
  rewrite to_unsigned_long_Z by lia.
  rewrite to_unsigned_long_div by lia.
  fold frames. rewrite Halloc. cbn [mbind completion_bind].
  rewrite (decode_channels_fold dataInt16 numChannels _ sampleRate (Z.to_nat frames)
             (Z.to_nat numChannels) (Z.to_nat numChannels)).
  - rewrite Nat.sub_diag. cbn [replicate]. rewrite app_nil_r. reflexivity.
  - lia.
  - rewrite <- Zdiv_Qdiv. reflexivity.
Qed.

Lemma list_ind2 {A : Type} (P : list A -> Prop) :
  P [] -> (forall a, P [a]) -> (forall a b l, P l -> P (a :: b :: l)) ->
  forall l, P l.
Proof.
  intros H0 H1 H2. fix IH 1.
  intros [|a [|b l]]; [apply H0 | apply H1 | apply H2, IH].
Qed.

Lemma int16_view_length (data : list byte) :
  length (int16_view data) = (length data / 2)%nat.
Proof.
  induction data as [| a | a b l IH] using list_ind2; try reflexivity.
  cbn [int16_view length]. rewrite IH.
  change (S (S (length l))) with (1 * 2 + length l)%nat.
  rewrite Nat.add_comm, Nat.div_add by lia. lia.
Qed.

Lemma channel_of_frames (dataInt16 : list Z) (numChannels : Z) (frames c : nat) :
  (0 < numChannels)%Z ->
  (Z.of_nat frames <= Z.of_nat (length dataInt16) / numChannels)%Z ->
  (Z.of_nat c < numChannels)%Z ->
  Forall2
    (fun y i =>
       exists k, dataInt16 !! (i * Z.to_nat numChannels + c)%nat = Some k
                 /\ y = Num (inject_Z k / 32768))
    (channel_of dataInt16 numChannels frames c) (seq 0 frames).
Proof.
  intros Hch Hfr Hc. unfold channel_of.
  apply Forall2_fmap_l, Forall_Forall2_diag, Forall_forall.
  intros i Hi. apply elem_of_seq in Hi. unfold compose. cbv beta.
  pose proof (Z.mul_div_le (Z.of_nat (length dataInt16)) numChannels Hch) as Hdiv.
  assert (Hidx : (Z.of_nat i * numChannels + Z.of_nat c
                  < Z.of_nat (length dataInt16))%Z) by nia.
  replace (Z.to_nat (Z.of_nat i * numChannels + Z.of_nat c))
    with (i * Z.to_nat numChannels + c)%nat by nia.
  destruct (lookup_lt_is_Some_2 dataInt16 (i * Z.to_nat numChannels + c)) as [k Hk];
    [nia|].
  exists k. rewrite Hk. split; reflexivity.
Qed.

(** C2. When the sample count is not a multiple of the channel count, the
    decoder does not fail: it returns a buffer with exactly
    [floor(sampleCount / numChannels)] frames in each channel, frame [i] of
    channel [c] being sample [i * numChannels + c] over 32768; the samples
    of the trailing incomplete frame appear in no channel.  (The byte
    sequence has a sample count, that is an even length, and the platform
    grants the buffer.) *)
Theorem C2_trailing_frame_dropped (data : list byte) (ctx : AudioContext)
    (sampleRate numChannels : Z) :
  (length data mod 2 = 0)%nat ->
  (0 < numChannels < 4294967296)%Z ->
  let dataInt16 := int16_view data in
  let sampleCount := Z.of_nat (length dataInt16) in
  let frameCount := (sampleCount / numChannels)%Z in
  (sampleCount mod numChannels <> 0)%Z ->
  (frameCount < 4294967296)%Z ->
  allocates ctx numChannels frameCount sampleRate = true ->
  exists buffer,
    decodeAudioData data ctx sampleRate numChannels = Ok buffer
    /\ length dataInt16 = (length data / 2)%nat
    /\ length (channels buffer) = Z.to_nat numChannels
    /\ Forall (fun channelData => Z.of_nat (length channelData) = frameCount)
         (channels buffer)
    /\ Forall2
         (fun channelData c =>
            Forall2
              (fun y i =>
                 exists k, dataInt16 !! (i * Z.to_nat numChannels + c)%nat = Some k
                           /\ y = Num (inject_Z k / 32768))
              channelData (seq 0 (Z.to_nat frameCount)))
         (channels buffer) (seq 0 (Z.to_nat numChannels)).
Proof.
  intros Heven Hch dataInt16 sampleCount frameCount _ Hframes Halloc.
  assert (Hfc : (0 <= frameCount)%Z) by (apply Z.div_pos; lia).
  eexists. split; [apply decodeAudioData_ok; assumption|].
  cbn [channels]. fold dataInt16. fold sampleCount. fold frameCount.
  split; [apply int16_view_length|]. split; [|split].
  - rewrite length_map, length_seq. reflexivity.
  - apply Forall_fmap, Forall_forall. intros c _. cbn.
    unfold channel_of. rewrite length_map, length_seq. lia.
  - apply Forall2_fmap_l, Forall_Forall2_diag, Forall_forall.
    intros c Hc. apply elem_of_seq in Hc.
    apply channel_of_frames; [lia| |lia].
    fold sampleCount. fold frameCount. lia.
Qed.

Lemma C2_trailing_frame_dropped_witness :
  exists buffer,
    decodeAudioData [x01; x00; x02; x00; x03; x00; x04; x00; x05; x00] generous 24000 2
    = Ok buffer
    /\ length [1; 2; 3; 4; 5]%Z = (10 / 2)%nat
    /\ length (channels buffer) = 2%nat
    /\ Forall (fun channelData => Z.of_nat (length channelData) = 2%Z) (channels buffer)
    /\ Forall2
         (fun channelData c =>
            Forall2
              (fun y i =>
                 exists k, [1; 2; 3; 4; 5]%Z !! (i * 2 + c)%nat = Some k
                           /\ y = Num (inject_Z k / 32768))
              channelData (seq 0 2))
         (channels buffer) (seq 0 2).
Proof.
  apply (C2_trailing_frame_dropped
           [x01; x00; x02; x00; x03; x00; x04; x00; x05; x00] generous 24000 2).
  - reflexivity.
  - lia.
  - discriminate.
  - reflexivity.
  - reflexivity.
Defined.

(** ** Failures of the decoder *)

Lemma decode_channel_total (dataInt16 : list Z) (numChannels : Z)
    (frameCount : option Q) (c : nat) (buffer : AudioBuffer) :
  (c < length (channels buffer))%nat ->
  exists buffer',
    decode_channel dataInt16 numChannels frameCount c buffer = Ok buffer'
    /\ length (channels buffer') = length (channels buffer).
Proof.
  intros Hc. unfold decode_channel, getChannelData.
  destruct (lookup_lt_is_Some_2 (channels buffer) c Hc) as [arr ->].
  cbn [mbind completion_bind]. eexists. split; [reflexivity|].
  cbn [channels]. apply length_insert.
Qed.

Lemma decode_channels_total (dataInt16 : list Z) (numChannels : Z)
    (frameCount : option Q) (l : list nat) (buffer : AudioBuffer) :
  Forall (fun c => (c < length (channels buffer))%nat) l ->
  exists buffer',
    fold_left
      (fun acc channel =>
         buffer ← acc; decode_channel dataInt16 numChannels frameCount channel buffer)
      l (Ok buffer) = Ok buffer'
    /\ length (channels buffer') = length (channels buffer).
Proof.
  revert buffer. induction l as [|c l IH]; intros buffer Hl.
  - exists buffer. split; reflexivity.
  - apply Forall_cons in Hl as [Hc Hl].
    destruct (decode_channel_total dataInt16 numChannels frameCount c buffer Hc)
      as (b1 & Hb1 & Hlen1).
    cbn [fold_left mbind completion_bind]. rewrite Hb1.
    destruct (IH b1) as (b2 & Hb2 & Hlen2).
    + rewrite Hlen1. exact Hl.
    + exists b2. split; [exact Hb2|]. congruence.
Qed.

(** C3, as amended.  The decoder fails in exactly two ways: with a
    [RangeError] when the byte length is odd, because the 16-bit view cannot
    be built, and with the platform's error when the view exists and the
    platform refuses the buffer.  For every other input (channel counts
    below 2^32) it returns a buffer; a failure carries no buffer. *)
Theorem C3_decode_failures (data : list byte) (ctx : AudioContext)
    (sampleRate numChannels : Z) :
  (numChannels < 4294967296)%Z ->
  let frameCount := JS.div (Z.of_nat (length (int16_view data))) numChannels in
  let granted :=
    allocates ctx (JS.to_unsigned_long (Some (inject_Z numChannels)))
      (JS.to_unsigned_long frameCount) sampleRate in
  match decodeAudioData data ctx sampleRate numChannels with
  | Ok _ => (length data mod 2 = 0)%nat /\ granted = true
  | Throw e =>
      ((length data mod 2 <> 0)%nat /\ e = RangeError)
      \/ ((length data mod 2 = 0)%nat /\ granted = false /\ e = NotSupportedError)
  end.
Proof.
  intros Hch frameCount granted.
  unfold decodeAudioData, new_Int16Array.
  destruct (Nat.eqb_spec (length data mod 2) 0) as [Heven|Hodd];
    cbn [mbind completion_bind]; [|left; split; [exact Hodd|reflexivity]].
  fold frameCount. unfold createBuffer. fold granted.
  destruct granted eqn:Hg; cbn [mbind completion_bind];
    [|right; repeat split; assumption].
  match goal with
  | |- context [fold_left ?f ?l (Ok ?b)] =>
      destruct (decode_channels_total (int16_view data) numChannels frameCount l b)
        as (b' & Hb' & _)
  end.
  - cbn [channels]. rewrite length_replicate.
    apply Forall_forall. intros c Hc. apply elem_of_seq in Hc.
    rewrite to_unsigned_long_Z by lia. lia.
  - rewrite Hb'. split; [exact Heven|reflexivity].
Qed.

Lemma C3_decode_failures_witness :
  (2 < 4294967296)%Z
  /\ match decodeAudioData [x01; x00; x02; x00] generous 24000 2 with
     | Ok _ => (4 mod 2 = 0)%nat /\ true = true
     | Throw e =>
         ((4 mod 2 <> 0)%nat /\ e = RangeError)
         \/ ((4 mod 2 = 0)%nat /\ true = false /\ e = NotSupportedError)
     end.
Proof.
  split; [lia|].
  apply (C3_decode_failures [x01; x00; x02; x00] generous 24000 2). lia.
Defined.

(** C3 as stated fails on a byte sequence of odd length: the platform would
    grant any buffer, and the decoder still fails. *)
Lemma C3_counterexample :
  (forall numberOfChannels length sampleRate,
      allocates generous numberOfChannels length sampleRate = true)
  /\ decodeAudioData [x01; x00; x02] generous 24000 1 = Throw RangeError.
Proof. split; [intros; reflexivity | reflexivity]. Qed.

(** ** Encoding and decoding one sample *)

Lemma createPcmBlob_int16_single (s : Q) :
  createPcmBlob_int16 [s] TARGET_RATE = [to_int16 s].
Proof. reflexivity. Qed.

Lemma pcm_roundtrip_ok (ctx : AudioContext) (s : Q) :
  allocates ctx 1 1 (Zpos TARGET_RATE) = true ->
  pcm_roundtrip ctx s
  = Ok {| sampleRate := Zpos TARGET_RATE;
          channels := [[Num (inject_Z (to_int16 s) / 32768)]] |}.
Proof.
  intros Halloc. unfold pcm_roundtrip, createPcmBlob. cbn [data].
  rewrite createPcmBlob_int16_single, base64_roundtrip.
  cbn [mbind completion_bind].
  assert (Hview : int16_view (Int16Array_buffer [to_int16 s]) = [to_int16 s]).
  { apply int16_view_buffer. repeat constructor; apply to_int16_range. }
  rewrite decodeAudioData_ok.
  - rewrite Hview. reflexivity.
  - reflexivity.
  - lia.
  - rewrite Hview. reflexivity.
  - rewrite Hview. exact Halloc.
Qed.

Lemma decoded_nonneg (s : Q) :
  (0 <= s <= 1)%Q ->
  let v := (inject_Z (to_int16 s) / 32768)%Q in
  (0 <= v)%Q /\ (v <= s)%Q /\ (s - v < 2 # 32768)%Q /\ ((1 # 32767) <= s -> 0 < v)%Q.
Proof.
  intros Hs v. subst v. rewrite to_int16_nonneg by exact Hs.
  pose proof (Qfloor_le (s * 32767)) as Hle.
  pose proof (Qlt_floor (s * 32767)) as Hlt.
  rewrite inject_Z_plus in Hlt. change (inject_Z 1) with 1%Q in Hlt.
  pose proof (Qfloor_resp_le 0 (s * 32767) ltac:(lra)) as H0.
  change (Qfloor 0) with 0%Z in H0. rewrite Zle_Qle in H0.
  change (inject_Z 0) with 0%Q in H0.
  set (k := inject_Z (Qfloor (s * 32767))) in *.
  assert (Hv : (k / 32768 * 32768 == k)%Q) by (field).
  repeat split; lra.
Qed.

Lemma decoded_neg (s : Q) :
  (-1 <= s < 0)%Q ->
  let v := (inject_Z (to_int16 s) / 32768)%Q in
  (s <= v)%Q /\ (v <= 0)%Q /\ (v - s < 1 # 32768)%Q /\ (s <= - (1 # 32768) -> v < 0)%Q.
Proof.
  intros Hs v. subst v. rewrite to_int16_neg by exact Hs.
  pose proof (Qle_ceiling (s * 32768)) as Hle.
  pose proof (Qceiling_lt (s * 32768)) as Hlt.
  replace (Qceiling (s * 32768) - 1)%Z with (Qceiling (s * 32768) + -1)%Z in Hlt by lia.
  rewrite inject_Z_plus in Hlt. change (inject_Z (-1)) with (-1)%Q in Hlt.
  pose proof (Qceiling_resp_le (s * 32768) 0 ltac:(lra)) as H0.
  change (Qceiling 0) with 0%Z in H0. rewrite Zle_Qle in H0.
  change (inject_Z 0) with 0%Q in H0.
  set (k := inject_Z (Qceiling (s * 32768))) in *.
  assert (Hv : (k / 32768 * 32768 == k)%Q) by (field).
  repeat split; lra.
Qed.

(** C1, as amended.  For every sample [s] in [[-1, 1]], encoding the
    one-sample block at 16000 Hz and decoding it at 16000 Hz, mono, yields a
    first sample [v] within 2/32768 of [s], and within 1/32768 when
    [s <= 0]; [v] lies between 0 and [s], so it never has the sign opposite
    to that of [s], and it has the sign of [s] as soon as [s >= 1/32767] or
    [s <= -1/32768]. *)
Theorem C1_roundtrip_error (ctx : AudioContext) (s : Q) :
  (-1 <= s <= 1)%Q ->
  allocates ctx 1 1 16000 = true ->
  let v := (inject_Z (to_int16 s) / 32768)%Q in
  pcm_roundtrip ctx s = Ok {| sampleRate := 16000; channels := [[Num v]] |}
  /\ (Qabs (v - s) < 2 # 32768)%Q
  /\ (s <= 0 -> Qabs (v - s) < 1 # 32768)%Q
  /\ (0 <= s -> 0 <= v <= s)%Q
  /\ (s <= 0 -> s <= v <= 0)%Q
  /\ ((1 # 32767) <= s -> 0 < v)%Q
  /\ (s <= - (1 # 32768) -> v < 0)%Q.
Proof.
  intros Hs Halloc v.
  split; [apply pcm_roundtrip_ok; exact Halloc|].
  destruct (Qlt_le_dec s 0) as [Hneg|Hpos].
  - destruct (decoded_neg s ltac:(lra)) as (H1 & H2 & H3 & H4). fold v in H1, H2, H3, H4.
    repeat split; intros; try lra; try (apply Qabs_Qlt_condition; lra).
  - destruct (decoded_nonneg s ltac:(lra)) as (H1 & H2 & H3 & H4). fold v in H1, H2, H3, H4.
    repeat split; intros; try lra; try (apply Qabs_Qlt_condition; lra).
Qed.

Lemma C1_roundtrip_error_witness :
  (-1 <= 1 # 3 <= 1)%Q
  /\ allocates generous 1 1 16000 = true
  /\ pcm_roundtrip generous (1 # 3)
     = Ok {| sampleRate := 16000;
             channels := [[Num (inject_Z (to_int16 (1 # 3)) / 32768)]] |}
  /\ (Qabs (inject_Z (to_int16 (1 # 3)) / 32768 - (1 # 3)) < 2 # 32768)%Q.
Proof.
  assert (Hs : (-1 <= 1 # 3 <= 1)%Q) by (split; discriminate).
  assert (Ha : allocates generous 1 1 16000 = true) by reflexivity.
  split; [exact Hs|]. split; [exact Ha|].
  destruct (C1_roundtrip_error generous (1 # 3) Hs Ha) as (H1 & H2 & _).
  split; [exact H1 | exact H2].
Defined.

(** C1 as stated fails: the sample 65533/65536 encodes to 32765 and decodes
    to 32765/32768, which is 3/65536 away, more than 1/32768. *)
Lemma C1_counterexample :
  (-1 <= 65533 # 65536 <= 1)%Q
  /\ createPcmBlob_int16 [65533 # 65536]%Q TARGET_RATE = [32765%Z]
  /\ pcm_roundtrip generous (65533 # 65536)
     = Ok {| sampleRate := 16000; channels := [[Num (32765 # 32768)]] |}
  /\ ~ (Qabs ((32765 # 32768) - (65533 # 65536)) <= 1 # 32768)%Q.
Proof.
  split; [split; discriminate|].
  split; [vm_compute; reflexivity|].
  split; [vm_compute; reflexivity|].
  vm_compute. intros H. apply H. reflexivity.
Qed.

(** ** Exactness of the encoder and decoder arithmetic in binary64

    The rational model of the quantization agrees with the floating-point
    computation of the code on every [Float32Array] element: the two
    products of [to_int16] are exactly representable as JavaScript numbers,
    and a decoded sample is exactly representable as a [Float32Array]
    element. *)

Lemma representable_scale (p b : Z) (x : Q) (c : Z) :
  (0 <= p)%Z -> (0 <= b)%Z -> (Z.abs c <= 2 ^ b)%Z ->
  representable p x -> representable (p + b) (x * inject_Z c).
Proof.
  intros Hp Hb Hc (m & e & Hm & Hx).
  exists (m * c)%Z, e. split.
  - rewrite Z.abs_mul, Z.pow_add_r by lia.
    assert (0 < 2 ^ b)%Z by (apply Z.pow_pos_nonneg; lia).
    nia.
  - rewrite Hx, inject_Z_mult. ring.
Qed.

Lemma representable_mono (p p' : Z) (x : Q) :
  (0 <= p <= p')%Z -> representable p x -> representable p' x.
Proof.
  intros Hp (m & e & Hm & Hx). exists m, e. split; [|exact Hx].
  pose proof (Z.pow_le_mono_r 2 p p' ltac:(lia) ltac:(lia)). lia.
Qed.

Lemma scaled_sample_representable (s : Q) :
  representable 24 s ->
  representable 53 (s * 32768) /\ representable 53 (s * 32767).
Proof.
  intros Hs. split.
  - apply (representable_mono (24 + 15)); [lia|].
    apply (representable_scale 24 15 s 32768);
      first [exact Hs | change (2 ^ 15)%Z with 32768%Z; lia].
  - apply (representable_mono (24 + 15)); [lia|].
    apply (representable_scale 24 15 s 32767);
      first [exact Hs | change (2 ^ 15)%Z with 32768%Z; lia].
Qed.

Lemma decoded_sample_representable (k : Z) :
  (-32768 <= k <= 32767)%Z -> representable 24 (inject_Z k / 32768).
Proof.
  intros Hk. exists k, (-15)%Z. split.
  - change (2 ^ 24)%Z with 16777216%Z. lia.
  - change (2 ^ (-15))%Q with (/ 32768)%Q. reflexivity.
Qed.

(** * Further properties *)

(** ** The encoder followed by the decoder *)

Lemma createPcmBlob_int16_map (data : list Q) (inputSampleRate : positive) :
  createPcmBlob_int16 data inputSampleRate
  = map to_int16 (downsampleBuffer data inputSampleRate TARGET_RATE).
Proof.
  unfold createPcmBlob_int16. cbv zeta.
  set (d := downsampleBuffer data inputSampleRate TARGET_RATE).
  rewrite <- (length_replicate (length d) 0%Z) at 1.
  rewrite fill_all, length_replicate.
  unfold f32_get.
  apply (map_lookup_seq (fun o => to_int16 (default 0%Q o))).
Qed.

Lemma mono_channel (ks : list Z) :
  channel_of ks 1 (length ks) 0 = map (fun k => Num (inject_Z k / 32768)) ks.
Proof.
  unfold channel_of.
  change (map (fun k => Num (inject_Z k / 32768)) ks)
    with (map (fun k => over_32768 (Some k)) ks).
  rewrite <- (map_lookup_seq over_32768 ks).
  apply map_ext. intros i. f_equal. f_equal. lia.
Qed.

Lemma decode_mono (ks : list Z) (ctx : AudioContext) (sampleRate : Z) :
  Forall (fun k => (-32768 <= k <= 32767)%Z) ks ->
  (Z.of_nat (length ks) < 4294967296)%Z ->
  allocates ctx 1 (Z.of_nat (length ks)) sampleRate = true ->
  decodeAudioData (Int16Array_buffer ks) ctx sampleRate 1
  = Ok {| sampleRate := sampleRate;
          channels := [map (fun k => Num (inject_Z k / 32768)) ks] |}.
Proof.
  intros Hr Hlen Halloc.
  assert (Hview : int16_view (Int16Array_buffer ks) = ks) by (apply int16_view_buffer, Hr).
  pose proof (decodeAudioData_ok (Int16Array_buffer ks) ctx sampleRate 1) as H.
  cbv zeta in H. rewrite Hview, Z.div_1_r in H.
  rewrite H.
  - rewrite Nat2Z.id. change (Z.to_nat 1) with 1%nat. cbn [seq map].
    rewrite mono_channel. reflexivity.
  - rewrite Int16Array_buffer_length, Nat.mul_comm. apply Nat.Div0.mod_mul.
  - lia.
  - exact Hlen.
  - exact Halloc.
Qed.

Lemma send_and_decode_ok (ctx : AudioContext) (samples : list Q) (inputSampleRate : positive) :
  let resampled := downsampleBuffer samples inputSampleRate TARGET_RATE in
  (Z.of_nat (length resampled) < 4294967296)%Z ->
  allocates ctx 1 (Z.of_nat (length resampled)) 16000 = true ->
  send_and_decode ctx samples inputSampleRate
  = Ok {| sampleRate := 16000;
          channels := [map (fun s => Num (inject_Z (to_int16 s) / 32768)) resampled] |}.
Proof.
  intros resampled Hlen Halloc. unfold send_and_decode, createPcmBlob. cbn [data].
  rewrite base64_roundtrip. cbn [mbind completion_bind].
  rewrite createPcmBlob_int16_map. fold resampled.
  rewrite decode_mono.
  - rewrite map_map. reflexivity.
  - apply Forall_fmap, Forall_forall. intros s _. apply to_int16_range.
  - rewrite length_map. exact Hlen.
  - rewrite length_map. exact Halloc.
Qed.


Lemma decoded_near_clamped (s : Q) :
  (Qabs (inject_Z (to_int16 s) / 32768 - clamp s) < 2 # 32768)%Q.
Proof.
  unfold clamp.
  destruct (clamp_cases s) as [[H Hc]|[[H Hc]|[H Hc]]]; cbv zeta in Hc; rewrite Hc.
  - rewrite to_int16_low by exact H. vm_compute. reflexivity.
  - apply Qabs_Qlt_condition.
    destruct (Qlt_le_dec s 0) as [Hneg|Hpos].
    + destruct (decoded_neg s ltac:(lra)) as (H1 & H2 & H3 & _). cbv zeta in *. lra.
    + destruct (decoded_nonneg s ltac:(lra)) as (H1 & H2 & H3 & _). cbv zeta in *. lra.
  - rewrite to_int16_high by exact H. vm_compute. reflexivity.
Qed.




Lemma encode_length (bs : list byte) :
  length (Base64.encode bs) = (4 * ((length bs + 2) / 3))%nat.
Proof.
  induction bs as [| a | a b | a b c l IH] using Base64Facts.list_ind3;
    try reflexivity.
  change (Base64.encode (a :: b :: c :: l)) with
    (let n := (Byte.to_N a * 65536 + Byte.to_N b * 256 + Byte.to_N c)%N in
     Base64.symbol (n / 262144) :: Base64.symbol (n / 4096 mod 64)
       :: Base64.symbol (n / 64 mod 64) :: Base64.symbol (n mod 64) :: Base64.encode l).
  cbv zeta. cbn [length]. rewrite IH.
  replace (Datatypes.S (Datatypes.S (Datatypes.S (length l))) + 2)%nat
    with (length l + 2 + 1 * 3)%nat by lia.
  rewrite Nat.div_add by lia. lia.
Qed.


Lemma to_int16_mono (x y : Q) :
  (x <= y)%Q -> (to_int16 x <= to_int16 y)%Z.
Proof.
  intros Hxy.
  pose proof (to_int16_range x) as Hx. pose proof (to_int16_range y) as Hy.
  destruct (Qlt_le_dec (-1) x) as [Hx1|Hx1];
    [|rewrite (to_int16_low x) by exact Hx1; lia].
  destruct (Qlt_le_dec y 1) as [Hy1|Hy1];
    [|rewrite (to_int16_high y) by exact Hy1; lia].
  destruct (Qlt_le_dec y 0) as [Hy0|Hy0].
  - rewrite (to_int16_neg x), (to_int16_neg y) by lra.
    apply Qceiling_resp_le. lra.
  - rewrite (to_int16_nonneg y) by lra.
    destruct (Qlt_le_dec x 0) as [Hx0|Hx0].
    + rewrite (to_int16_neg x) by lra.
      pose proof (Qceiling_resp_le (x * 32768) 0 ltac:(lra)) as H1.
      pose proof (Qfloor_resp_le 0 (y * 32767) ltac:(lra)) as H2.
      change (Qceiling 0) with 0%Z in H1. change (Qfloor 0) with 0%Z in H2. lia.
    + rewrite (to_int16_nonneg x) by lra.
      apply Qfloor_resp_le. lra.
Qed.

(** X4. Quantization preserves order: a larger sample never encodes to a
    smaller integer. *)
Theorem X4_to_int16_monotone (x y : Q) :
  (x <= y)%Q -> (to_int16 x <= to_int16 y)%Z.
Proof. apply to_int16_mono. Qed.

Lemma X4_to_int16_monotone_witness :
  ((1 # 3) <= (1 # 2))%Q /\ (to_int16 (1 # 3) <= to_int16 (1 # 2))%Z.
Proof.
  assert (H : ((1 # 3) <= (1 # 2))%Q) by discriminate.
  split; [exact H | exact (X4_to_int16_monotone (1 # 3) (1 # 2) H)].
Defined.

(** X5. The samples that encode to 0 are exactly those strictly between
    -1/32768 and 1/32767. *)
Theorem X5_to_int16_zero_band (x : Q) :
  to_int16 x = 0%Z <-> (- (1 # 32768) < x /\ x < 1 # 32767)%Q.
Proof.
  split.
  - intros H0.
    destruct (Qlt_le_dec (- (1 # 32768)) x) as [Hlo|Hlo].
    + split; [exact Hlo|].
      destruct (Qlt_le_dec x (1 # 32767)) as [Hhi|Hhi]; [exact Hhi|exfalso].
      pose proof (to_int16_mono (1 # 32767) x Hhi) as Hm.
      change (to_int16 (1 # 32767)) with 1%Z in Hm. lia.
    + exfalso.
      pose proof (to_int16_mono x (- (1 # 32768)) Hlo) as Hm.
      change (to_int16 (- (1 # 32768))) with (-1)%Z in Hm. lia.
  - intros [Hlo Hhi].
    destruct (Qlt_le_dec x 0) as [Hneg|Hpos].
    + rewrite to_int16_neg by lra.
      unfold Qceiling. rewrite (Qfloor_unique (- (x * 32768)) 0); [reflexivity| |].
      * change (inject_Z 0) with 0%Q. lra.
      * change (inject_Z (0 + 1)) with 1%Q. lra.
    + rewrite to_int16_nonneg by lra.
      apply Qfloor_unique.
      * change (inject_Z 0) with 0%Q. lra.
      * change (inject_Z (0 + 1)) with 1%Q. lra.
Qed.

(** X6. Encoding a decoded sample does not give back the integer it came
    from when that integer is positive: [k / 32768] encodes to [k - 1] for
    [k > 0], and to [k] for [k <= 0]. *)
Theorem X6_reencode_decoded (k : Z) :
  (-32768 <= k <= 32767)%Z ->
  to_int16 (inject_Z k / 32768) = if (0 <? k)%Z then (k - 1)%Z else k.
Proof.
  intros Hk.
  assert (Hq : (inject_Z k / 32768 * 32768 == inject_Z k)%Q) by field.
  assert (Hlo : (inject_Z (-32768) <= inject_Z k)%Q) by (rewrite <- Zle_Qle; lia).
  assert (Hhi : (inject_Z k <= inject_Z 32767)%Q) by (rewrite <- Zle_Qle; lia).
  change (inject_Z (-32768)) with (-32768)%Q in Hlo.
  change (inject_Z 32767) with 32767%Q in Hhi.
  destruct (Z.ltb_spec 0 k) as [Hpos|Hneg].
  - assert (H1 : (inject_Z 1 <= inject_Z k)%Q) by (rewrite <- Zle_Qle; lia).
    change (inject_Z 1) with 1%Q in H1.
    rewrite to_int16_nonneg by lra.
    apply Qfloor_unique.
    + replace (k - 1)%Z with (k + -1)%Z by lia.
      rewrite inject_Z_plus. change (inject_Z (-1)) with (-1)%Q. lra.
    + replace (k - 1 + 1)%Z with k by lia. lra.
  - assert (H0 : (inject_Z k <= inject_Z 0)%Q) by (rewrite <- Zle_Qle; lia).
    change (inject_Z 0) with 0%Q in H0.
    destruct (Z.eq_dec k 0%Z) as [->|Hne]; [reflexivity|].
    assert (H1 : (inject_Z k <= inject_Z (-1))%Q) by (rewrite <- Zle_Qle; lia).
    change (inject_Z (-1)) with (-1)%Q in H1.
    rewrite to_int16_neg by lra.
    rewrite (Qceiling_comp _ (inject_Z k)) by exact Hq.
    apply Qceiling_Z.
Qed.

Lemma X6_reencode_decoded_witness :
  (-32768 <= 100 <= 32767)%Z
  /\ to_int16 (inject_Z 100 / 32768) = if (0 <? 100)%Z then (100 - 1)%Z else 100%Z.
Proof.
  assert (H : (-32768 <= 100 <= 32767)%Z) by lia.
  split; [exact H | exact (X6_reencode_decoded 100 H)].
Defined.

Lemma int16_of_bytes_range (lo hi : byte) :
  (-32768 <= int16_of_bytes lo hi <= 32767)%Z.
Proof.
  unfold int16_of_bytes. cbv zeta.
  pose proof (Byte.to_N_bounded lo). pose proof (Byte.to_N_bounded hi).
  match goal with |- context [(32768 <=? ?u)%Z] => destruct (Z.leb_spec 32768 u) end; lia.
Qed.

Lemma int16_view_range (data : list byte) :
  Forall (fun k => (-32768 <= k <= 32767)%Z) (int16_view data).
Proof.
  induction data as [| a | a b l IH] using list_ind2; try constructor.
  - apply int16_of_bytes_range.
  - exact IH.
Qed.

Lemma over_32768_unit (k : Z) :
  (-32768 <= k <= 32767)%Z -> unit_sample (over_32768 (Some k)).
Proof.
  intros Hk. exists (inject_Z k / 32768)%Q. split; [reflexivity|].
  assert (Hlo : (inject_Z (-32768) <= inject_Z k)%Q) by (rewrite <- Zle_Qle; lia).
  assert (Hhi : (inject_Z k <= inject_Z 32767)%Q) by (rewrite <- Zle_Qle; lia).
  change (inject_Z (-32768)) with (-32768)%Q in Hlo.
  change (inject_Z 32767) with 32767%Q in Hhi.
  assert (Hv : (inject_Z k / 32768 * 32768 == inject_Z k)%Q) by field.
  split; lra.
Qed.

(** Stores whose in-range values satisfy [P] keep an array within [P]. *)
Lemma for_range_insert_Forall {A : Type} (P : A -> Prop) (g : nat -> A)
    (arr : list A) (k : nat) :
  Forall P arr ->
  (forall i, (i < length arr)%nat -> P (g i)) ->
  Forall P (for_range 0 k (fun i a => <[i := g i]> a) arr)
  /\ length (for_range 0 k (fun i a => <[i := g i]> a) arr) = length arr.
Proof.
  intros Harr Hg. induction k as [|k [IH1 IH2]].
  - split; [exact Harr | reflexivity].
  - rewrite for_range_S. split; [|rewrite length_insert; exact IH2].
    destruct (Nat.lt_ge_cases k (length arr)) as [Hlt|Hge].
    + apply Forall_insert; [exact IH1 | apply Hg, Hlt].
    + rewrite list_insert_ge by lia. exact IH1.
Qed.

Lemma decode_channel_unit (dataInt16 : list Z) (numChannels : Z)
    (c : nat) (buffer buffer' : AudioBuffer) :
  Forall (fun k => (-32768 <= k <= 32767)%Z) dataInt16 ->
  (Z.of_nat c < numChannels)%Z ->
  let frameCount := JS.div (Z.of_nat (length dataInt16)) numChannels in
  let ok channelData :=
    (Z.of_nat (length channelData) <= Z.of_nat (length dataInt16) / numChannels)%Z
    /\ Forall unit_sample channelData in
  Forall ok (channels buffer) ->
  decode_channel dataInt16 numChannels frameCount c buffer = Ok buffer' ->
  Forall ok (channels buffer').
Proof.
  intros Hr Hc frameCount ok Hinv Hdec.
  unfold decode_channel, getChannelData in Hdec.
  destruct (channels buffer !! c) as [arr|] eqn:Harr; [|discriminate].
  cbn [mbind completion_bind] in Hdec. injection Hdec as <-. cbn [channels].
  assert (Hok : ok arr).
  { eapply Forall_lookup_1 in Hinv; [exact Hinv | exact Harr]. }
  destruct Hok as [Hlen Hunit].
  apply Forall_insert; [exact Hinv|].
  assert (Hch : (0 < numChannels)%Z) by lia.
  pose proof (Z.mul_div_le (Z.of_nat (length dataInt16)) numChannels Hch) as Hdiv.
  assert (Hg : forall i, (i < length arr)%nat ->
                unit_sample (over_32768
                  (dataInt16 !! Z.to_nat (Z.of_nat i * numChannels + Z.of_nat c)))).
  { intros i Hi.
    destruct (lookup_lt_is_Some_2 dataInt16
                (Z.to_nat (Z.of_nat i * numChannels + Z.of_nat c))) as [k Hk]; [nia|].
    rewrite Hk. apply over_32768_unit.
    eapply Forall_lookup_1 in Hr; [exact Hr | exact Hk]. }
  subst frameCount. unfold JS.div.
  destruct (Z.eqb_spec numChannels 0) as [|_]; [lia|].
  unfold for_below.
  destruct (for_range_insert_Forall unit_sample
              (fun i => over_32768
                 (dataInt16 !! Z.to_nat (Z.of_nat i * numChannels + Z.of_nat c)))
              arr
              (Z.to_nat (Qceiling (inject_Z (Z.of_nat (length dataInt16))
                                   / inject_Z numChannels)))
              Hunit Hg) as [H1 H2].
  split; [rewrite H2; exact Hlen | exact H1].
Qed.

Lemma decode_channels_unit (dataInt16 : list Z) (numChannels : Z)
    (l : list nat) (buffer buffer' : AudioBuffer) :
  Forall (fun k => (-32768 <= k <= 32767)%Z) dataInt16 ->
  Forall (fun c => (Z.of_nat c < numChannels)%Z) l ->
  let frameCount := JS.div (Z.of_nat (length dataInt16)) numChannels in
  let ok channelData :=
    (Z.of_nat (length channelData) <= Z.of_nat (length dataInt16) / numChannels)%Z
    /\ Forall unit_sample channelData in
  Forall ok (channels buffer) ->
  fold_left
    (fun acc channel =>
       buffer ← acc; decode_channel dataInt16 numChannels frameCount channel buffer)
    l (Ok buffer) = Ok buffer' ->
  Forall ok (channels buffer').
Proof.
  intros Hr Hl frameCount ok. revert buffer.
  induction l as [|c l IH]; intros buffer Hinv Hfold.
  - cbn in Hfold. injection Hfold as <-. exact Hinv.
  - apply Forall_cons in Hl as [Hc Hl].
    cbn [fold_left mbind completion_bind] in Hfold.
    destruct (decode_channel dataInt16 numChannels frameCount c buffer) as [b1|e] eqn:Hb1.
    + apply (IH Hl b1); [|exact Hfold].
      eapply decode_channel_unit; eauto.
    + exfalso. clear -Hfold.
      assert (Hthrow : forall l', fold_left
                (fun acc channel =>
                   buffer ← acc;
                   decode_channel dataInt16 numChannels frameCount channel buffer)
                l' (Throw e) = Throw e).
      { induction l' as [|c' l' IH']; [reflexivity|exact IH']. }
      rewrite Hthrow in Hfold. discriminate.
Qed.

Lemma unit_sample_zero : unit_sample (Num 0).
Proof. exists 0%Q. split; [reflexivity|]. split; lra. Qed.

Lemma to_unsigned_long_div_le (a b : Z) :
  (0 <= a)%Z -> (0 < b)%Z ->
  (0 <= JS.to_unsigned_long (JS.div a b) <= a / b)%Z.
Proof.
  intros Ha Hb. unfold JS.div.
  destruct (Z.eqb_spec b 0) as [|_]; [lia|].
  unfold JS.to_unsigned_long. rewrite trunc_nonneg.
  - rewrite <- Zdiv_Qdiv.
    pose proof (Z.div_pos a b Ha Hb).
    pose proof (Z.mod_pos_bound (a / b) 4294967296 ltac:(lia)).
    pose proof (Z.mod_le (a / b) 4294967296 ltac:(lia) ltac:(lia)). lia.
  - apply Qle_shift_div_l.
    + change 0%Q with (inject_Z 0). rewrite <- Zlt_Qlt. lia.
    + rewrite Qmult_0_l. change 0%Q with (inject_Z 0). rewrite <- Zle_Qle. lia.
Qed.

(** X7. Whatever the bytes, the rate and the channel count, every sample of
    a buffer that the decoder returns is a number in [[-1, 1)]: a [NaN]
    from a read past the end of the samples is never stored. *)
Theorem X7_decoded_samples_in_range (data : list byte) (ctx : AudioContext)
    (sampleRate numChannels : Z) (buffer : AudioBuffer) :
  decodeAudioData data ctx sampleRate numChannels = Ok buffer ->
  Forall (Forall unit_sample) (channels buffer).
Proof.
  unfold decodeAudioData, new_Int16Array.
  destruct (Nat.eqb_spec (length data mod 2) 0) as [_|_];
    cbn [mbind completion_bind]; [|discriminate].
  unfold createBuffer.
  destruct (allocates ctx _ _ sampleRate); cbn [mbind completion_bind]; [|discriminate].
  intros Hfold.
  destruct (Z.le_gt_cases numChannels 0) as [Hle|Hgt].
  - replace (Z.to_nat numChannels) with 0%nat in Hfold by lia.
    cbn [seq fold_left] in Hfold. injection Hfold as <-. cbn [channels].
    apply Forall_replicate, Forall_replicate, unit_sample_zero.
  - eapply decode_channels_unit in Hfold.
    + eapply Forall_impl; [exact Hfold|]. intros chd [_ H]. exact H.
    + apply int16_view_range.
    + apply Forall_forall. intros c Hc. apply elem_of_seq in Hc. lia.
    + cbn [channels]. apply Forall_replicate. split.
      * rewrite length_replicate.
        pose proof (to_unsigned_long_div_le (Z.of_nat (length (int16_view data)))
                      numChannels ltac:(lia) ltac:(lia)). lia.
      * apply Forall_replicate, unit_sample_zero.
Qed.

Lemma X7_decoded_samples_in_range_witness :
  decodeAudioData [x01; x80; xff; x7f; x05; x00] generous 24000 2
  = Ok {| sampleRate := 24000;
          channels := [[Num (-32767 # 32768)]; [Num (32767 # 32768)]] |}
  /\ Forall (Forall unit_sample) [[Num (-32767 # 32768)]; [Num (32767 # 32768)]].
Proof.
  assert (H : decodeAudioData [x01; x80; xff; x7f; x05; x00] generous 24000 2
              = Ok {| sampleRate := 24000;
                      channels := [[Num (-32767 # 32768)]; [Num (32767 # 32768)]] |})
    by (vm_compute; reflexivity).
  split; [exact H|].
  exact (X7_decoded_samples_in_range _ _ _ _ _ H).
Defined.

Lemma decode_mono_bytes (data : list byte) (ctx : AudioContext) (sampleRate : Z) :
  (length data mod 2 = 0)%nat ->
  (Z.of_nat (length (int16_view data)) < 4294967296)%Z ->
  allocates ctx 1 (Z.of_nat (length (int16_view data))) sampleRate = true ->
  decodeAudioData data ctx sampleRate 1
  = Ok {| sampleRate := sampleRate;
          channels := [map (fun k => Num (inject_Z k / 32768)) (int16_view data)] |}.
Proof.
  intros Heven Hlen Halloc.
  pose proof (decodeAudioData_ok data ctx sampleRate 1 Heven ltac:(lia)) as H.
  cbv zeta in H. rewrite Z.div_1_r in H.
  rewrite (H Hlen Halloc).
  rewrite Nat2Z.id. change (Z.to_nat 1) with 1%nat. cbn [seq map].
  rewrite mono_channel. reflexivity.
Qed.

(** X9. With its default arguments the decoder produces a 24000 Hz mono
    buffer whose single channel holds every 16-bit sample of the data, in
    order, divided by 32768. *)
Theorem X9_default_decode (data : list byte) (ctx : AudioContext) :
  (length data mod 2 = 0)%nat ->
  (Z.of_nat (length data / 2) < 4294967296)%Z ->
  allocates ctx 1 (Z.of_nat (length data / 2)) 24000 = true ->
  decodeAudioData_default data ctx
  = Ok {| sampleRate := 24000;
          channels := [map (fun k => Num (inject_Z k / 32768)) (int16_view data)] |}
  /\ length (int16_view data) = (length data / 2)%nat.
Proof.
  intros Heven Hlen Halloc. rewrite <- int16_view_length in Hlen, Halloc.
  split; [|apply int16_view_length].
  apply decode_mono_bytes; assumption.
Qed.

Lemma X9_default_decode_witness :
  (length [x00; x40; x00; xc0] mod 2 = 0)%nat
  /\ decodeAudioData_default [x00; x40; x00; xc0] generous
     = Ok {| sampleRate := 24000;
             channels := [map (fun k => Num (inject_Z k / 32768))
                            (int16_view [x00; x40; x00; xc0])] |}.
Proof.
  split; [reflexivity|].
  apply (X9_default_decode [x00; x40; x00; xc0] generous); [reflexivity | simpl; lia | reflexivity].
Defined.

(** X8. De-interleaving: sample [j] of a complete frame is found, divided by
    32768, in channel [j mod numChannels] at frame [j / numChannels]. *)
Theorem X8_deinterleave (data : list byte) (ctx : AudioContext)
    (sampleRate numChannels : Z) :
  (length data mod 2 = 0)%nat ->
  (0 < numChannels < 4294967296)%Z ->
  let dataInt16 := int16_view data in
  let frames := (Z.of_nat (length dataInt16) / numChannels)%Z in
  (frames < 4294967296)%Z ->
  allocates ctx numChannels frames sampleRate = true ->
  exists buffer,
    decodeAudioData data ctx sampleRate numChannels = Ok buffer
    /\ forall (j : nat) (k : Z),
         (Z.of_nat j < frames * numChannels)%Z ->
         dataInt16 !! j = Some k ->
         channels buffer !! (j mod Z.to_nat numChannels)%nat
           ≫= (fun channelData => channelData !! (j / Z.to_nat numChannels)%nat)
         = Some (Num (inject_Z k / 32768)).
Proof.
  intros Heven Hch dataInt16 frames Hframes Halloc.
  eexists. split; [apply decodeAudioData_ok; assumption|].
  intros j k Hj Hk. cbn [channels]. fold dataInt16. fold frames.
  set (n := Z.to_nat numChannels).
  assert (Hn : (0 < n)%nat) by (subst n; lia).
  assert (Hmod : (j mod n < n)%nat) by (apply Nat.mod_upper_bound; lia).
  assert (Hdm : j = (n * (j / n) + j mod n)%nat) by (apply Nat.div_mod_eq).
  assert (Hdiv : (j / n < Z.to_nat frames)%nat).
  { apply Nat.Div0.div_lt_upper_bound. subst n. nia. }
  rewrite list_lookup_fmap, lookup_seq_lt by exact Hmod.
  cbn [fmap option_fmap option_map mbind option_bind Nat.add].
  unfold channel_of. rewrite list_lookup_fmap, lookup_seq_lt by exact Hdiv.
  cbn [fmap option_fmap option_map Nat.add].
  replace (Z.to_nat (Z.of_nat (j / n) * numChannels + Z.of_nat (j mod n))) with j
    by (subst n; nia).
  rewrite Hk. reflexivity.
Qed.

Lemma X8_deinterleave_witness :
  exists buffer,
    decodeAudioData [x01; x00; x02; x00; x03; x00; x04; x00; x05; x00] generous 24000 2
    = Ok buffer
    /\ channels buffer !! (3 mod 2)%nat
         ≫= (fun channelData => channelData !! (3 / 2)%nat)
       = Some (Num (inject_Z 4 / 32768)).
Proof.
  destruct (X8_deinterleave
              [x01; x00; x02; x00; x03; x00; x04; x00; x05; x00] generous 24000 2)
    as (buffer & Hok & Hat); [reflexivity | lia | reflexivity | reflexivity |].
  exists buffer. split; [exact Hok|].
  apply (Hat 3%nat 4%Z); [reflexivity | reflexivity].
Defined.

(** ** Further properties of the resampler *)

Lemma sum_bounds (w : list Q) (lo hi : Q) :
  Forall (fun s => (lo <= s)%Q /\ (s <= hi)%Q) w ->
  (inject_Z (Z.of_nat (length w)) * lo <= SpecDownsampler.sum w)%Q
  /\ (SpecDownsampler.sum w <= inject_Z (Z.of_nat (length w)) * hi)%Q.
Proof.
  induction 1 as [|s w [Hlo Hhi] _ [IH1 IH2]].
  - unfold SpecDownsampler.sum. cbn [length fold_right].
    change (inject_Z (Z.of_nat 0)) with 0%Q. split; lra.
  - cbn [length SpecDownsampler.sum fold_right].
    change (fold_right Qplus 0%Q w) with (SpecDownsampler.sum w).
    rewrite Nat2Z.inj_succ. unfold Z.succ. rewrite inject_Z_plus.
    change (inject_Z 1) with 1%Q. split; nra.
Qed.

Lemma mean_bounds (w : list Q) (lo hi : Q) :
  (lo <= 0)%Q -> (0 <= hi)%Q ->
  Forall (fun s => (lo <= s)%Q /\ (s <= hi)%Q) w ->
  (lo <= SpecDownsampler.mean w)%Q /\ (SpecDownsampler.mean w <= hi)%Q.
Proof.
  intros Hlo Hhi Hw. destruct w as [|s w'].
  - simpl. split; lra.
  - cbn [SpecDownsampler.mean].
    destruct (sum_bounds (s :: w') lo hi Hw) as [H1 H2].
    assert (Hn : (0 < inject_Z (Z.of_nat (length (s :: w'))))%Q).
    { change 0%Q with (inject_Z 0). rewrite <- Zlt_Qlt. simpl. lia. }
    split.
    + apply Qle_shift_div_l; [exact Hn|]. lra.
    + apply Qle_shift_div_r; [exact Hn|]. lra.
Qed.

Lemma window_Forall (P : Q -> Prop) (x : list Q) (a b : Z) :
  Forall P x -> Forall P (SpecDownsampler.window x a b).
Proof.
  intros H. unfold SpecDownsampler.window. apply Forall_take, Forall_drop, H.
Qed.



Lemma Math_round_mono (a b : Q) : (a <= b)%Q -> (JS.Math_round a <= JS.Math_round b)%Z.
Proof. intros H. unfold JS.Math_round. apply Qfloor_resp_le. lra. Qed.

Lemma integer_ratio (k outputRate : positive) :
  (inject_Z (Zpos (k * outputRate)) / inject_Z (Zpos outputRate) == inject_Z (Zpos k))%Q.
Proof.
  rewrite Pos2Z.inj_mul, inject_Z_mult. field.
  change 0%Q with (inject_Z 0). rewrite inject_Z_injective. lia.
Qed.

Lemma Math_round_integer_multiple (a : Z) (ratio : Q) (k : positive) :
  (ratio == inject_Z (Zpos k))%Q ->
  JS.Math_round (inject_Z a * ratio) = (a * Zpos k)%Z.
Proof.
  intros Hr. rewrite <- (Math_round_Z (a * Zpos k)).
  apply Math_round_comp. rewrite Hr, inject_Z_mult. reflexivity.
Qed.

Lemma integer_window (x : list Q) (ratio : Q) (k : positive) (j : nat) :
  (ratio == inject_Z (Zpos k))%Q ->
  let len := Z.of_nat (length x) in
  SpecDownsampler.window x
    (SpecDownsampler.window_start ratio len j)
    (SpecDownsampler.window_end ratio len j)
  = take (Pos.to_nat k) (drop (j * Pos.to_nat k) x).
Proof.
  intros Hr len.
  assert (Hend : forall i, SpecDownsampler.window_end ratio len i
                           = Z.min ((Z.of_nat i + 1) * Zpos k) len).
  { intros i. unfold SpecDownsampler.window_end.
    rewrite (Math_round_integer_multiple _ ratio k Hr). reflexivity. }
  assert (Hstart : SpecDownsampler.window_start ratio len j
                   = Z.min (Z.of_nat j * Zpos k) len).
  { destruct j as [|j]; cbn [SpecDownsampler.window_start]; [lia|].
    rewrite Hend. f_equal. lia. }
  unfold SpecDownsampler.window. rewrite Hstart, Hend.
  destruct (Z.le_gt_cases (Z.of_nat j * Zpos k) len) as [Hle|Hgt].
  - rewrite (Z.min_l (Z.of_nat j * Zpos k)) by exact Hle.
    replace (Z.to_nat (Z.of_nat j * Zpos k)) with (j * Pos.to_nat k)%nat by lia.
    destruct (Z.le_gt_cases ((Z.of_nat j + 1) * Zpos k) len) as [Hle2|Hgt2].
    + rewrite Z.min_l by exact Hle2. f_equal. lia.
    + rewrite Z.min_r by lia.
      rewrite !take_ge; [reflexivity | |]; rewrite length_drop; subst len; lia.
  - rewrite (Z.min_r (Z.of_nat j * Zpos k)) by lia.
    rewrite !drop_ge by (subst len; lia). rewrite !take_nil. reflexivity.
Qed.

Lemma half_ratio (r : positive) :
  (inject_Z (Zpos r) / inject_Z (Zpos (2 * r)) == 1 # 2)%Q.
Proof.
  rewrite Pos2Z.inj_mul, inject_Z_mult. change (inject_Z 2) with 2%Q. field.
  change 0%Q with (inject_Z 0). rewrite inject_Z_injective. lia.
Qed.

Lemma Math_round_half_odd (a : Z) (ratio : Q) :
  (ratio == 1 # 2)%Q -> JS.Math_round (inject_Z (2 * a + 1) * ratio) = (a + 1)%Z.
Proof.
  intros Hr. unfold JS.Math_round. rewrite <- (Qfloor_Z (a + 1)).
  apply Qfloor_comp. rewrite Hr, !inject_Z_plus, inject_Z_mult.
  change (inject_Z 2) with 2%Q. change (inject_Z 1) with 1%Q. field.
Qed.

Lemma Math_round_half_even (a : Z) (ratio : Q) :
  (ratio == 1 # 2)%Q -> JS.Math_round (inject_Z (2 * a) * ratio) = a.
Proof.
  intros Hr. unfold JS.Math_round. apply Qfloor_unique.
  - rewrite Hr, inject_Z_mult. change (inject_Z 2) with 2%Q. lra.
  - rewrite Hr, inject_Z_mult, inject_Z_plus.
    change (inject_Z 2) with 2%Q. change (inject_Z 1) with 1%Q. lra.
Qed.

Lemma half_windows (ratio : Q) (len : Z) (i : nat) :
  (ratio == 1 # 2)%Q -> (Z.of_nat i < len)%Z ->
  SpecDownsampler.window_start ratio len (2 * i) = Z.of_nat i
  /\ SpecDownsampler.window_end ratio len (2 * i) = (Z.of_nat i + 1)%Z
  /\ SpecDownsampler.window_start ratio len (2 * i + 1) = (Z.of_nat i + 1)%Z
  /\ SpecDownsampler.window_end ratio len (2 * i + 1) = (Z.of_nat i + 1)%Z.
Proof.
  intros Hr Hi.
  assert (Heven : forall k : nat, (Z.of_nat k < len)%Z ->
            SpecDownsampler.window_end ratio len (2 * k) = (Z.of_nat k + 1)%Z).
  { intros k Hk. unfold SpecDownsampler.window_end.
    replace (Z.of_nat (2 * k) + 1)%Z with (2 * Z.of_nat k + 1)%Z by lia.
    rewrite (Math_round_half_odd _ ratio Hr). lia. }
  assert (Hodd : forall k : nat, (Z.of_nat k < len)%Z ->
            SpecDownsampler.window_end ratio len (2 * k + 1) = (Z.of_nat k + 1)%Z).
  { intros k Hk. unfold SpecDownsampler.window_end.
    replace (Z.of_nat (2 * k + 1) + 1)%Z with (2 * (Z.of_nat k + 1))%Z by lia.
    rewrite (Math_round_half_even _ ratio Hr). lia. }
  split; [|split; [apply Heven, Hi|split; [|apply Hodd, Hi]]].
  - destruct i as [|i]; [reflexivity|].
    replace (2 * S i)%nat with (S (2 * i + 1)) by lia.
    cbn [SpecDownsampler.window_start]. rewrite Hodd by lia. lia.
  - replace (2 * i + 1)%nat with (S (2 * i)) by lia.
    cbn [SpecDownsampler.window_start]. apply Heven, Hi.
Qed.

(** X14. Asked to double the rate, the resampler stuffs zeros: the output
    is twice as long as the input, its even elements are the input samples
    and its odd elements are 0. *)
Theorem X14_doubling_stuffs_zeros (x : list Q) (r : positive) :
  let out := downsampleBuffer x r (2 * r) in
  length out = (2 * length x)%nat
  /\ forall (i : nat) (s : Q),
       x !! i = Some s ->
       (exists y, out !! (2 * i)%nat = Some y /\ (y == s)%Q)
       /\ out !! (2 * i + 1)%nat = Some 0%Q.
Proof.
  intros out. subst out.
  assert (Hne : r <> (2 * r)%positive) by lia.
  pose proof (half_ratio r) as Hr.
  rewrite downsampleBuffer_ne by exact Hne.
  set (ratio := (inject_Z (Zpos r) / inject_Z (Zpos (2 * r)))%Q) in *.
  assert (Hn : JS.Math_round (inject_Z (Z.of_nat (length x)) / ratio)
               = Z.of_nat (2 * length x)).
  { rewrite <- (Math_round_Z (Z.of_nat (2 * length x))). apply Math_round_comp.
    rewrite Hr, Nat2Z.inj_mul, inject_Z_mult. change (inject_Z (Z.of_nat 2)) with 2%Q.
    field. }
  rewrite Hn, Nat2Z.id. split; [rewrite length_map, length_seq; reflexivity|].
  intros i s Hi.
  assert (Hlt : (i < length x)%nat) by (eapply lookup_lt_Some; exact Hi).
  assert (Hrp : (0 < ratio)%Q) by (rewrite Hr; reflexivity).
  destruct (half_windows ratio (Z.of_nat (length x)) i Hr ltac:(lia))
    as (Hs0 & He0 & Hs1 & He1).
  split.
  - exists (stored x ratio (2 * i)). split.
    + rewrite list_lookup_fmap, lookup_seq_lt by lia. reflexivity.
    + destruct (stored_is_mean x ratio (2 * i) Hrp) as [Hm _]. cbv zeta in Hm.
      rewrite Hm, Hs0, He0. unfold SpecDownsampler.window.
      replace (Z.to_nat (Z.of_nat i + 1 - Z.of_nat i)) with 1%nat by lia.
      rewrite Nat2Z.id, (drop_S _ _ _ Hi).
      change (take 1 (s :: drop (S i) x)) with [s].
      cbn [SpecDownsampler.mean]. unfold SpecDownsampler.sum. cbn [fold_right length].
      change (inject_Z (Z.of_nat 1)) with 1%Q. field.
  - rewrite list_lookup_fmap, lookup_seq_lt by lia. cbn [fmap option_fmap option_map Nat.add].
    f_equal.
    destruct (stored_is_mean x ratio (2 * i + 1) Hrp) as [_ Hz]. cbv zeta in Hz.
    apply Hz. rewrite Hs1, He1. unfold SpecDownsampler.window.
    rewrite Z.sub_diag. reflexivity.
Qed.

Lemma newLength_empty (ratio : Q) :
  JS.Math_round (inject_Z (Z.of_nat (@length Q [])) / ratio) = 0%Z.
Proof.
  change (inject_Z (Z.of_nat (@length Q []))) with 0%Q.
  assert (H : (0 / ratio == inject_Z 0)%Q)
    by (change (inject_Z 0) with 0%Q; unfold Qdiv; ring).
  rewrite (Math_round_comp _ _ H). apply Math_round_Z.
Qed.

(** X15. An empty block resamples to an empty block at any rates, and
    encodes to the empty payload. *)
Theorem X15_empty_block (inputRate outputRate : positive) :
  downsampleBuffer [] inputRate outputRate = []
  /\ createPcmBlob_int16 [] inputRate = []
  /\ data (createPcmBlob [] inputRate) = []
  /\ base64ToUint8Array (data (createPcmBlob [] inputRate)) = Ok [].
Proof.
  assert (H : forall i o, downsampleBuffer [] i o = []).
  { intros i o. destruct (Pos.eq_dec i o) as [->|Hne].
    - apply downsampleBuffer_eq.
    - rewrite downsampleBuffer_ne by exact Hne.
      rewrite newLength_empty. reflexivity. }
  split; [apply H|].
  assert (H16 : createPcmBlob_int16 [] inputRate = []).
  { rewrite createPcmBlob_int16_map, H. reflexivity. }
  split; [exact H16|].
  unfold createPcmBlob. cbn [data]. rewrite H16. split; reflexivity.
Qed.

(** ** File names, keys and the release of the audio resources *)

Lemma lastIndexOf_range (s : list code_unit) (c : code_unit) :
  (-1 <= lastIndexOf s c < Z.of_nat (length s))%Z.
Proof.
  induction s as [|x s IH]; cbn [lastIndexOf length]; [lia|].
  destruct (Z.leb_spec 0 (lastIndexOf s c)); [lia|].
  destruct (x =? c)%N; lia.
Qed.

Lemma lastIndexOf_absent (s : list code_unit) (c : code_unit) :
  lastIndexOf s c = (-1)%Z -> c ∉ s.
Proof.
  induction s as [|x s IH]; cbn [lastIndexOf]; intros H.
  - apply not_elem_of_nil.
  - destruct (Z.leb_spec 0 (lastIndexOf s c)) as [Hl|Hl]; [lia|].
    destruct (N.eqb_spec x c) as [|Hx]; [lia|].
    apply not_elem_of_cons. split; [congruence|].
    apply IH. pose proof (lastIndexOf_range s c). lia.
Qed.

Lemma lastIndexOf_present (s : list code_unit) (c : code_unit) :
  (0 <= lastIndexOf s c)%Z ->
  exists e, s = take (Z.to_nat (lastIndexOf s c)) s ++ c :: e /\ c ∉ e.
Proof.
  induction s as [|x s IH]; cbn [lastIndexOf]; intros H; [lia|].
  destruct (Z.leb_spec 0 (lastIndexOf s c)) as [Hl|Hl].
  - destruct (IH Hl) as (e & He & Hne). exists e. split; [|exact Hne].
    replace (Z.to_nat (lastIndexOf s c + 1)) with (S (Z.to_nat (lastIndexOf s c))) by lia.
    cbn [take app]. f_equal. exact He.
  - destruct (N.eqb_spec x c) as [->|Hx]; [|lia].
    exists s. split; [reflexivity|].
    apply lastIndexOf_absent. pose proof (lastIndexOf_range s c). lia.
Qed.

Lemma lastIndexOf_app (s e : list code_unit) (c : code_unit) :
  c ∉ e -> lastIndexOf (s ++ c :: e) c = Z.of_nat (length s).
Proof.
  intros Hne.
  assert (He : lastIndexOf e c = (-1)%Z).
  { pose proof (lastIndexOf_range e c) as Hr.
    destruct (Z.leb_spec 0 (lastIndexOf e c)) as [Hl|Hl]; [|lia].
    destruct (lastIndexOf_present e c Hl) as (e' & Heq & _).
    exfalso. apply Hne. rewrite Heq. apply elem_of_app. right. apply elem_of_cons. now left. }
  induction s as [|x s IH]; cbn [app lastIndexOf length].
  - rewrite He. cbn. now rewrite N.eqb_refl.
  - rewrite IH. destruct (Z.leb_spec 0 (Z.of_nat (length s))); lia.
Qed.

Lemma txt_has_no_full_stop : full_stop ∉ literal "txt".
Proof.
  intros H. cbn in H. unfold full_stop in H.
  repeat (apply elem_of_cons in H; destruct H as [H|H]; [discriminate H|]).
  now apply elem_of_nil in H.
Qed.

Lemma fileName_of_stem (stem now : list code_unit) :
  handleDownload_fileName (Some (stem ++ literal ".txt")) now = stem ++ literal ".txt".
Proof.
  unfold handleDownload_fileName. cbv zeta.
  change (literal ".txt") with (full_stop :: literal "txt").
  rewrite (lastIndexOf_app stem (literal "txt") full_stop txt_has_no_full_stop).
  destruct (Z.eqb_spec (Z.of_nat (length stem)) (-1)) as [Hm|_]; [lia|].
  cbn [negb]. unfold substring0. rewrite Nat2Z.id.
  now rewrite take_app_length.
Qed.

Lemma fileName_split (name now : list code_unit) :
  exists stem ext,
    name = stem ++ ext
    /\ handleDownload_fileName (Some name) now = stem ++ literal ".txt"
    /\ ((ext = [] /\ full_stop ∉ name)
        \/ (exists e, ext = full_stop :: e /\ full_stop ∉ e)).
Proof.
  unfold handleDownload_fileName. cbv zeta.
  pose proof (lastIndexOf_range name full_stop) as Hr.
  destruct (Z.eqb_spec (lastIndexOf name full_stop) (-1)) as [Hm|Hm]; cbn [negb].
  - exists name, []. rewrite app_nil_r. repeat split.
    left. split; [reflexivity|]. now apply lastIndexOf_absent.
  - destruct (lastIndexOf_present name full_stop) as (e & He & Hne); [lia|].
    exists (substring0 name (lastIndexOf name full_stop)), (full_stop :: e).
    repeat split; [exact He|]. right. now exists e.
Qed.

(** X16. The transcript of an uploaded file is named after the file with its
    last extension replaced by [.txt]: the name splits into a stem and an
    extension, the extension being empty (when the name has no full stop) or
    a full stop followed by units without a full stop, and the download is
    called the stem followed by [.txt]. *)
Theorem X16_transcript_name_replaces_extension (name now : list code_unit) :
  exists stem ext,
    name = stem ++ ext
    /\ handleDownload_fileName (Some name) now = stem ++ literal ".txt"
    /\ ((ext = [] /\ full_stop ∉ name)
        \/ (exists e, ext = full_stop :: e /\ full_stop ∉ e)).
Proof.
  exact (fileName_split name now).
Qed.

(** X17. The name of a download always ends in [.txt], whether a file is
    selected or not, and naming is stable: a file that carries the name of a
    download gets that same name again. *)
Theorem X17_transcript_name_stable (file : option (list code_unit)) (now now' : list code_unit) :
  (exists stem, handleDownload_fileName file now = stem ++ literal ".txt")
  /\ handleDownload_fileName (Some (handleDownload_fileName file now)) now'
     = handleDownload_fileName file now.
Proof.
  assert (H : exists stem, handleDownload_fileName file now = stem ++ literal ".txt").
  { destruct file as [name|].
    - destruct (fileName_split name now) as (stem & ext & _ & Hs & _). now exists stem.
    - exists (literal "upload-transcript-" ++ now).
      unfold handleDownload_fileName. cbv zeta. now rewrite app_assoc. }
  split; [exact H|].
  destruct H as (stem & ->). apply fileName_of_stem.
Qed.

Lemma trimStart_suffix (s : list code_unit) :
  exists l, s = l ++ trimStart s /\ Forall (fun c => is_js_space c = true) l.
Proof.
  induction s as [|c s (l & Hl & Hsp)]; cbn [trimStart].
  - now exists [].
  - destruct (is_js_space c) eqn:Hc.
    + exists (c :: l). split; [cbn; now f_equal | now constructor].
    + now exists [].
Qed.

Lemma trimStart_head (s : list code_unit) :
  trimStart s = [] \/ exists c t, trimStart s = c :: t /\ is_js_space c = false.
Proof.
  induction s as [|c s IH]; cbn [trimStart]; [now left|].
  destruct (is_js_space c) eqn:Hc; [exact IH|].
  right. now exists c, s.
Qed.

Lemma trimStart_spaces (l s : list code_unit) :
  Forall (fun c => is_js_space c = true) l -> trimStart (l ++ s) = trimStart s.
Proof.
  induction 1 as [|c l Hc _ IH]; cbn [app trimStart]; [reflexivity|].
  now rewrite Hc.
Qed.

Lemma trimStart_fixed (c : code_unit) (t : list code_unit) :
  is_js_space c = false -> trimStart (c :: t) = c :: t.
Proof. intros H. cbn [trimStart]. now rewrite H. Qed.

Lemma trimStart_snoc (t : list code_unit) (c : code_unit) :
  is_js_space c = false -> exists u, trimStart (t ++ [c]) = u ++ [c].
Proof.
  intros Hc. induction t as [|x t (u & Hu)]; cbn [app trimStart].
  - rewrite Hc. now exists [].
  - destruct (is_js_space x); [now exists u | now exists (x :: t)].
Qed.

Lemma trim_trimmed (s : list code_unit) : trimmed (trim s).
Proof.
  unfold trim.
  destruct (trimStart_head s) as [->|(c & t & -> & Hc)]; [constructor|].
  cbn [rev]. destruct (trimStart_snoc (rev t) c Hc) as (u & Hu).
  destruct (trimStart_head (rev t ++ [c])) as [H|(d & w & Hd & Hsp)].
  - rewrite Hu in H. now destruct u.
  - rewrite Hu in *. rewrite rev_app_distr. cbn [rev app].
    destruct u as [|d' u]; cbn [app rev] in *.
    + now constructor.
    + injection Hd as -> _. now constructor.
Qed.

Lemma trimmed_fixed (s : list code_unit) : trimmed s -> trim s = s.
Proof.
  unfold trim. destruct 1 as [|c Hc|c m d Hc Hd].
  - reflexivity.
  - rewrite (trimStart_fixed c [] Hc). cbn [rev app].
    now rewrite (trimStart_fixed c [] Hc).
  - rewrite (trimStart_fixed c _ Hc). cbn [rev]. rewrite rev_app_distr.
    cbn [rev app]. rewrite (trimStart_fixed d _ Hd).
    cbn [rev]. rewrite rev_app_distr, rev_involutive. reflexivity.
Qed.

Lemma trimmed_head (s : list code_unit) (c : code_unit) :
  trimmed s -> head s = Some c -> is_js_space c = false.
Proof. destruct 1; cbn; intros [= <-]; assumption. Qed.

Lemma trimmed_last (s : list code_unit) (c : code_unit) :
  trimmed s -> last s = Some c -> is_js_space c = false.
Proof.
  destruct 1 as [|x Hx|x m d Hx Hd]; [discriminate | cbn; now intros [= <-] |].
  rewrite app_comm_cons, last_snoc. now intros [= <-].
Qed.

Lemma trim_decompose (s : list code_unit) :
  exists l r, s = l ++ trim s ++ r
              /\ Forall (fun c => is_js_space c = true) l
              /\ Forall (fun c => is_js_space c = true) r.
Proof.
  destruct (trimStart_suffix s) as (l & Hl & Hsl).
  destruct (trimStart_suffix (rev (trimStart s))) as (r & Hr & Hsr).
  exists l, (rev r). repeat split; [|exact Hsl|].
  - unfold trim. rewrite <- rev_app_distr, <- Hr, rev_involutive. exact Hl.
  - now apply List.Forall_rev.
Qed.

Lemma trim_Forall (P : code_unit -> Prop) (s : list code_unit) :
  Forall P s -> Forall P (trim s).
Proof.
  intros H. destruct (trim_decompose s) as (l & r & Heq & _).
  rewrite Heq in H. apply Forall_app in H as [_ H]. now apply Forall_app in H as [H _].
Qed.

Lemma trimStart_all_spaces (l : list code_unit) :
  Forall (fun c => is_js_space c = true) l -> trimStart l = [].
Proof.
  intros H. rewrite <- (app_nil_r l). now rewrite trimStart_spaces.
Qed.

Lemma trim_spaces (l x r : list code_unit) :
  Forall (fun c => is_js_space c = true) l ->
  Forall (fun c => is_js_space c = true) r ->
  trim (l ++ x ++ r) = trim x.
Proof.
  intros Hl Hr. unfold trim. rewrite (trimStart_spaces l _ Hl).
  assert (Hrr : Forall (fun c => is_js_space c = true) (rev r)).
  { now apply List.Forall_rev. }
  destruct (trimStart_head x) as [Hx|(c & t & Hx & Hc)].
  - destruct (trimStart_suffix x) as (l' & Hl' & Hsl'). rewrite Hx, app_nil_r in Hl'.
    subst l'. rewrite Hx. rewrite (trimStart_all_spaces (x ++ r)); [reflexivity|].
    apply Forall_app. now split.
  - destruct (trimStart_suffix x) as (l' & Hl' & Hsl').
    rewrite Hl' at 1. rewrite <- app_assoc, (trimStart_spaces l' _ Hsl').
    rewrite Hx. cbn [app]. rewrite (trimStart_fixed c _ Hc).
    change (c :: t ++ r) with ((c :: t) ++ r).
    rewrite rev_app_distr. now rewrite (trimStart_spaces _ _ Hrr).
Qed.

Lemma space_is_no_quote (c : code_unit) : is_js_space c = true -> is_quote c = false.
Proof.
  unfold is_quote. intros H.
  destruct (N.eqb_spec c 34) as [->|_]; [discriminate H|].
  destruct (N.eqb_spec c 39) as [->|_]; [discriminate H|].
  reflexivity.
Qed.

Lemma remove_quotes_fixed (s : list code_unit) :
  Forall (fun c => is_quote c = false) s -> remove_quotes s = s.
Proof.
  unfold remove_quotes. induction 1 as [|c s Hc _ IH]; cbn [List.filter]; [reflexivity|].
  rewrite Hc. cbn [negb]. now f_equal.
Qed.

Lemma remove_quotes_app (s t : list code_unit) :
  remove_quotes (s ++ t) = remove_quotes s ++ remove_quotes t.
Proof. apply List.filter_app. Qed.

Lemma remove_quotes_clean (s : list code_unit) :
  Forall (fun c => is_quote c = false) (remove_quotes s).
Proof.
  unfold remove_quotes. induction s as [|c s IH]; cbn [List.filter]; [constructor|].
  destruct (is_quote c) eqn:Hc; cbn [negb]; [exact IH|].
  now constructor.
Qed.

Lemma lookup_key_first (k : list code_unit) (v : option (list code_unit)) :
  k <> [] -> lookup_key (mkEnv (Some k) v) = k.
Proof. intros Hk. destruct k as [|c k]; [congruence|reflexivity]. Qed.

(** X18. The key [getApiKey] of the live session returns is sanitized,
    whatever the environment holds: it has no quote character, it neither
    starts nor ends with white space, and sanitizing it again changes
    nothing. *)
Theorem X18_api_key_sanitized (env : Env) :
  Forall (fun c => is_quote c = false) (getApiKey env)
  /\ (forall c, head (getApiKey env) = Some c -> is_js_space c = false)
  /\ (forall c, last (getApiKey env) = Some c -> is_js_space c = false)
  /\ trim (remove_quotes (getApiKey env)) = getApiKey env.
Proof.
  unfold getApiKey.
  pose proof (trim_trimmed (remove_quotes (lookup_key env))) as Ht.
  assert (Hq : Forall (fun c => is_quote c = false)
                 (trim (remove_quotes (lookup_key env)))).
  { apply trim_Forall, remove_quotes_clean. }
  split; [exact Hq|]. split; [|split].
  - intros c. now apply trimmed_head.
  - intros c. now apply trimmed_last.
  - rewrite (remove_quotes_fixed _ Hq). now apply trimmed_fixed.
Qed.

(** X19. A value of [process.env.API_KEY] that is not empty hides
    [VITE_API_KEY] even when nothing of it survives: if it consists of white
    space and quotes only, the live session gets the empty key whatever
    [VITE_API_KEY] holds. *)
Theorem X19_blank_key_hides_fallback (k : list code_unit) (vite : option (list code_unit)) :
  k <> [] ->
  Forall (fun c => is_js_space c || is_quote c = true) k ->
  getApiKey (mkEnv (Some k) vite) = [].
Proof.
  intros Hk Hall. unfold getApiKey. rewrite (lookup_key_first k vite Hk).
  assert (Hsp : Forall (fun c => is_js_space c = true) (remove_quotes k)).
  { clear Hk. unfold remove_quotes.
    induction Hall as [|c k Hc _ IH]; cbn [List.filter]; [constructor|].
    destruct (is_quote c); cbn [negb]; [exact IH|].
    constructor; [|exact IH]. now rewrite orb_false_r in Hc. }
  unfold trim. now rewrite (trimStart_all_spaces _ Hsp).
Qed.

Lemma X19_blank_key_hides_fallback_witness :
  getApiKey (mkEnv (Some [32; 34; 34; 32]%N) (Some (literal "AIzaSy-key"))) = [].
Proof.
  apply (X19_blank_key_hides_fallback [32; 34; 34; 32]%N (Some (literal "AIzaSy-key"))).
  - discriminate.
  - repeat constructor.
Defined.

(** X20. The two versions of [getApiKey] differ by the quotes only: the key
    of the live session is the key of the analysis service with its quotes
    removed and trimmed again, and the two keys are equal when the
    configured value has no quote. *)
Theorem X20_api_key_versions (env : Env) :
  getApiKey env = trim (remove_quotes (service_getApiKey env))
  /\ (Forall (fun c => is_quote c = false) (lookup_key env) ->
      getApiKey env = service_getApiKey env).
Proof.
  unfold getApiKey, service_getApiKey. split.
  - destruct (trim_decompose (lookup_key env)) as (l & r & Heq & Hl & Hr).
    rewrite Heq at 1. rewrite !remove_quotes_app.
    rewrite (remove_quotes_fixed l), (remove_quotes_fixed r).
    + now apply trim_spaces.
    + eapply Forall_impl; [exact Hr|]. apply space_is_no_quote.
    + eapply Forall_impl; [exact Hl|]. apply space_is_no_quote.
  - intros H. now rewrite (remove_quotes_fixed _ H).
Qed.

Lemma cleanupAudio_released (refs : AudioRefs) :
  cleanupAudio (fst (cleanupAudio refs)) = (fst (cleanupAudio refs), []).
Proof. reflexivity. Qed.

(** X21. Releasing the audio resources is idempotent: however often
    [cleanupAudio] is called in a row, the platform sees the calls of the
    first one only (every node, track, context and source is released once),
    and afterwards no reference is held. *)
Theorem X21_cleanup_idempotent (n : nat) (refs : AudioRefs) :
  cleanupAudio_times (S n) refs = cleanupAudio refs
  /\ fst (cleanupAudio refs)
     = {| processorRef := None; sourceRef := None; streamRef := None;
          inputContextRef := None; outputContextRef := None; audioSourcesRef := [] |}.
Proof.
  split; [|reflexivity].
  revert refs. induction n as [|n IH]; intros refs.
  - cbn [cleanupAudio_times]. destruct (cleanupAudio refs) as [r c].
    now rewrite app_nil_r.
  - change (cleanupAudio_times (S (S n)) refs)
      with (let '(refs1, calls1) := cleanupAudio refs in
            let '(refs2, calls2) := cleanupAudio_times (S n) refs1 in
            (refs2, calls1 ++ calls2)).
    pose proof (cleanupAudio_released refs) as Hrel.
    destruct (cleanupAudio refs) as [r c] eqn:E. cbn [fst] in Hrel.
    rewrite IH, Hrel. now rewrite app_nil_r.
Qed.

(** * The resampler in floating-point arithmetic *)

(** ** Rounding to a binary format *)

Module IEEEFacts.
Import IEEE.

Lemma nearest_even_comp (m m' : Q) : (m == m')%Q -> nearest_even m = nearest_even m'.
Proof.
  intros H. unfold nearest_even.
  rewrite (Qfloor_comp _ _ H).
  assert (Hc : ((m - inject_Z (Qfloor m') ?= 1 # 2) = (m' - inject_Z (Qfloor m') ?= 1 # 2))%Q).
  { apply Qcompare_comp; [rewrite H|]; reflexivity. }
  rewrite Hc. reflexivity.
Qed.

Lemma nearest_even_bounds (m : Q) :
  (m - (1 # 2) <= inject_Z (nearest_even m) /\ inject_Z (nearest_even m) <= m + (1 # 2))%Q.
Proof.
  unfold nearest_even.
  pose proof (Qfloor_le m) as Hl. pose proof (Qlt_floor m) as Hu.
  rewrite inject_Z_plus in Hu. change (inject_Z 1) with 1%Q in Hu.
  destruct (Qcompare_spec (m - inject_Z (Qfloor m)) (1 # 2)) as [He|Hlt|Hgt].
  - destruct (Z.even (Qfloor m)); rewrite ?inject_Z_plus; change (inject_Z 1) with 1%Q; lra.
  - lra.
  - rewrite inject_Z_plus. change (inject_Z 1) with 1%Q. lra.
Qed.

Lemma nearest_even_Z (k : Z) : nearest_even (inject_Z k) = k.
Proof.
  unfold nearest_even. rewrite Qfloor_Z.
  destruct (Qcompare_spec (inject_Z k - inject_Z k) (1 # 2)) as [He|Hlt|Hgt]; [lra|reflexivity|lra].
Qed.

Lemma nearest_even_mono (m m' : Q) :
  (m <= m')%Q -> (nearest_even m <= nearest_even m')%Z.
Proof.
  intros Hle.
  destruct (Z.le_gt_cases (nearest_even m) (nearest_even m')) as [|Hgt]; [assumption|].
  exfalso.
  pose proof (nearest_even_bounds m) as [_ Hu].
  pose proof (nearest_even_bounds m') as [Hl _].
  assert (Hz : (inject_Z (nearest_even m') + 1 <= inject_Z (nearest_even m))%Q).
  { change 1%Q with (inject_Z 1). rewrite <- inject_Z_plus, <- Zle_Qle. lia. }
  assert (Heq : (m == m')%Q) by lra.
  rewrite (nearest_even_comp _ _ Heq) in Hgt. lia.
Qed.

Lemma nearest_even_nonneg (m : Q) : (0 <= m)%Q -> (0 <= nearest_even m)%Z.
Proof.
  intros H. rewrite <- (nearest_even_Z 0). now apply nearest_even_mono.
Qed.

(** *** Powers of two *)

Lemma pow2_pos (e : Z) : (0 < 2 ^ e)%Q.
Proof. apply Qpower_0_lt. reflexivity. Qed.

Lemma pow2_plus (a b : Z) : (2 ^ (a + b) == 2 ^ a * 2 ^ b)%Q.
Proof. apply Qpower_plus. discriminate. Qed.

Lemma pow2_succ (a : Z) : (2 ^ (a + 1) == 2 * 2 ^ a)%Q.
Proof. rewrite pow2_plus. change (2 ^ 1)%Q with 2%Q. ring. Qed.

Lemma pow2_le (a b : Z) : (a <= b)%Z -> (2 ^ a <= 2 ^ b)%Q.
Proof. intros H. apply Qpower_le_compat_l; [exact H | discriminate]. Qed.

Lemma pow2_lt (a b : Z) : (a < b)%Z -> (2 ^ a < 2 ^ b)%Q.
Proof. intros H. apply Qpower_lt_compat_l; [exact H | reflexivity]. Qed.

Lemma pow2_lt_inv (a b : Z) : (2 ^ a < 2 ^ b)%Q -> (a < b)%Z.
Proof.
  intros H. destruct (Z.lt_ge_cases a b) as [|Hge]; [assumption|].
  apply pow2_le in Hge. lra.
Qed.

Lemma pow2_Z (n : Z) : (0 <= n)%Z -> (2 ^ n == inject_Z (2 ^ n))%Q.
Proof. intros H. rewrite Zpower_Qpower by exact H. reflexivity. Qed.

Lemma pow2_div (a b : Z) : (2 ^ a / 2 ^ b == 2 ^ (a - b))%Q.
Proof.
  pose proof (pow2_pos b).
  replace a with ((a - b) + b)%Z at 1 by lia.
  rewrite pow2_plus. field. lra.
Qed.

(** *** The exponent of a number *)

Lemma Qabs_num_den (q : Q) :
  (Qabs q == inject_Z (Z.abs (Qnum q)) / inject_Z (Zpos (Qden q)))%Q.
Proof.
  destruct q as [n d]. unfold Qabs. cbn [Qnum Qden].
  rewrite (Qmake_Qdiv (Z.abs n) d). reflexivity.
Qed.

Lemma ilog2_spec (q : Q) :
  ~ (q == 0)%Q -> (2 ^ ilog2 q <= Qabs q /\ Qabs q < 2 ^ (ilog2 q + 1))%Q.
Proof.
  intros Hq. unfold ilog2.
  set (n := Z.abs (Qnum q)). set (d := Zpos (Qden q)).
  assert (Hn : (0 < n)%Z).
  { subst n. destruct q as [[|p|p] dq]; cbn; try lia. exfalso. apply Hq. reflexivity. }
  assert (Hd : (0 < d)%Z) by (subst d; lia).
  pose proof (Z.log2_spec n Hn) as [Hn1 Hn2].
  pose proof (Z.log2_spec d Hd) as [Hd1 Hd2].
  pose proof (Z.log2_nonneg n) as Ha. pose proof (Z.log2_nonneg d) as Hb.
  set (a := Z.log2 n) in *. set (b := Z.log2 d) in *.
  assert (Habs : (Qabs q == inject_Z n / inject_Z d)%Q) by apply Qabs_num_den.
  assert (HdQ : (0 < inject_Z d)%Q) by (change 0%Q with (inject_Z 0); rewrite <- Zlt_Qlt; lia).
  assert (Hn1Q : (2 ^ a <= inject_Z n)%Q) by (rewrite pow2_Z by lia; rewrite <- Zle_Qle; lia).
  assert (Hn2Q : (inject_Z n < 2 ^ (a + 1))%Q).
  { rewrite pow2_Z by lia. rewrite <- Zlt_Qlt.
    replace (a + 1)%Z with (Z.succ a) by lia. exact Hn2. }
  assert (Hd1Q : (2 ^ b <= inject_Z d)%Q) by (rewrite pow2_Z by lia; rewrite <- Zle_Qle; lia).
  assert (Hd2Q : (inject_Z d < 2 ^ (b + 1))%Q).
  { rewrite pow2_Z by lia. rewrite <- Zlt_Qlt.
    replace (b + 1)%Z with (Z.succ b) by lia. exact Hd2. }
  pose proof (pow2_pos b) as Hpb. pose proof (pow2_pos (a - b)) as Hpab.
  pose proof (pow2_pos a) as Hpa.
  (* n / d lies strictly between 2^(a-b-1) and 2^(a-b+1) *)
  assert (Hup : (Qabs q < 2 ^ (a - b + 1))%Q).
  { rewrite Habs. apply Qlt_shift_div_r; [exact HdQ|].
    apply Qlt_le_trans with (2 ^ (a + 1))%Q; [exact Hn2Q|].
    replace (a + 1)%Z with ((a - b + 1) + b)%Z by lia. rewrite pow2_plus.
    apply Qmult_le_l; [apply pow2_pos | exact Hd1Q]. }
  assert (Hlo : (2 ^ (a - b - 1) < Qabs q)%Q).
  { rewrite Habs. apply Qlt_shift_div_l; [exact HdQ|].
    apply Qlt_le_trans with (2 ^ a)%Q; [|exact Hn1Q].
    replace a with ((a - b - 1) + (b + 1))%Z at 2 by lia. rewrite pow2_plus.
    apply Qmult_lt_l; [apply pow2_pos | exact Hd2Q]. }
  destruct (Qle_bool (2 ^ (a - b)) (Qabs q)) eqn:Hc.
  - apply Qle_bool_iff in Hc. split; [exact Hc | exact Hup].
  - assert (Hlt : (Qabs q < 2 ^ (a - b))%Q).
    { apply Qnot_le_lt. intros Hle. apply Qle_bool_iff in Hle. congruence. }
    split; [apply Qlt_le_weak; exact Hlo|].
    replace (a - b - 1 + 1)%Z with (a - b)%Z by lia. exact Hlt.
Qed.

Lemma ilog2_unique (q : Q) (k : Z) :
  (2 ^ k <= Qabs q)%Q -> (Qabs q < 2 ^ (k + 1))%Q -> ilog2 q = k.
Proof.
  intros Hl Hu.
  assert (Hq : ~ (q == 0)%Q).
  { intros H. rewrite H in Hl. pose proof (pow2_pos k). change (Qabs 0) with 0%Q in Hl. lra. }
  destruct (ilog2_spec q Hq) as [Hl' Hu'].
  assert (k < ilog2 q + 1)%Z by (apply pow2_lt_inv; lra).
  assert (ilog2 q < k + 1)%Z by (apply pow2_lt_inv; lra).
  lia.
Qed.

Lemma Qabs_zero (q : Q) : (Qabs q <= 0)%Q -> (q == 0)%Q.
Proof. apply Qabs_case; intros; lra. Qed.

Lemma ilog2_mono (q q' : Q) :
  ~ (q == 0)%Q -> (Qabs q <= Qabs q')%Q -> (ilog2 q <= ilog2 q')%Z.
Proof.
  intros Hq Hle.
  assert (Hq' : ~ (q' == 0)%Q).
  { intros H. rewrite H in Hle. change (Qabs 0) with 0%Q in Hle.
    apply Hq, Qabs_zero, Hle. }
  destruct (ilog2_spec q Hq) as [Hl Hu]. destruct (ilog2_spec q' Hq') as [Hl' Hu'].
  assert (ilog2 q < ilog2 q' + 1)%Z by (apply pow2_lt_inv; lra).
  lia.
Qed.

Lemma ilog2_comp (q q' : Q) : ~ (q == 0)%Q -> (q == q')%Q -> ilog2 q = ilog2 q'.
Proof.
  intros Hq Heq. symmetry. destruct (ilog2_spec q Hq) as [Hl Hu].
  apply ilog2_unique; rewrite <- Heq; assumption.
Qed.

Lemma fexp_comp (f : format) (q q' : Q) :
  ~ (q == 0)%Q -> (q == q')%Q -> fexp f q = fexp f q'.
Proof. intros Hq Heq. unfold fexp. now rewrite (ilog2_comp q q' Hq Heq). Qed.

Lemma round_comp (f : format) (x y : Q) : (x == y)%Q -> round f x = round f y.
Proof. intros H. unfold round. now rewrite (Qred_complete x y H). Qed.

Lemma round_0 (f : format) : round f 0 = 0%Q.
Proof. reflexivity. Qed.

Lemma Qnum_zero (q : Q) : Qnum q = 0%Z <-> (q == 0)%Q.
Proof.
  destruct q as [n d]. unfold Qeq. cbn [Qnum Qden]. lia.
Qed.

(** The value of a rounded number other than 0. *)
Lemma round_value (f : format) (x : Q) :
  ~ (x == 0)%Q ->
  (round f x == inject_Z (nearest_even (x / 2 ^ fexp f x)) * 2 ^ fexp f x)%Q.
Proof.
  intros Hx. unfold round. cbv zeta.
  assert (Hr : (Qred x == x)%Q) by apply Qred_correct.
  assert (Hrx : ~ (Qred x == 0)%Q) by (rewrite Hr; exact Hx).
  destruct (Z.eqb_spec (Qnum (Qred x)) 0) as [E|_].
  - exfalso. apply Hrx. now apply Qnum_zero.
  - rewrite Qred_correct.
    rewrite (fexp_comp f (Qred x) x Hrx Hr).
    rewrite (nearest_even_comp (Qred x / 2 ^ fexp f x) (x / 2 ^ fexp f x)); [reflexivity|].
    rewrite Hr. reflexivity.
Qed.

Lemma round_nonneg (f : format) (x : Q) : (0 <= x)%Q -> (0 <= round f x)%Q.
Proof.
  intros Hx. destruct (Qeq_dec x 0) as [E|N].
  - rewrite (round_comp f x 0 E), round_0. lra.
  - rewrite (round_value f x N).
    pose proof (pow2_pos (fexp f x)) as Hp.
    apply Qmult_le_0_compat; [|lra].
    change 0%Q with (inject_Z 0). rewrite <- Zle_Qle.
    apply nearest_even_nonneg. apply Qle_shift_div_l; [exact Hp | lra].
Qed.

(** A power of two at or above the last bit of the format is a multiple of
    it. *)
Lemma scaled_pow2 (k e : Z) :
  (e <= k)%Z -> (2 ^ k / 2 ^ e == inject_Z (2 ^ (k - e)))%Q.
Proof. intros H. rewrite pow2_div, pow2_Z by lia. reflexivity. Qed.

Lemma round_le_pow2 (f : format) (x : Q) (k : Z) :
  (0 < x)%Q -> (x <= 2 ^ k)%Q -> (fexp f x <= k)%Z -> (round f x <= 2 ^ k)%Q.
Proof.
  intros Hx Hle He.
  assert (N : ~ (x == 0)%Q) by lra.
  rewrite (round_value f x N).
  pose proof (pow2_pos (fexp f x)) as Hp.
  assert (Hn : (nearest_even (x / 2 ^ fexp f x) <= 2 ^ (k - fexp f x))%Z).
  { rewrite <- (nearest_even_Z (2 ^ (k - fexp f x))).
    apply nearest_even_mono. rewrite <- (scaled_pow2 k (fexp f x) He).
    apply Qmult_le_compat_r; [exact Hle|]. apply Qinv_le_0_compat. lra. }
  rewrite Zle_Qle in Hn. rewrite <- (scaled_pow2 k (fexp f x) He) in Hn.
  apply Qle_trans with (2 ^ k / 2 ^ fexp f x * 2 ^ fexp f x)%Q.
  - apply Qmult_le_compat_r; [exact Hn | lra].
  - apply Qle_lteq. right. field. lra.
Qed.

Lemma round_ge_pow2 (f : format) (x : Q) (k : Z) :
  (2 ^ k <= x)%Q -> (fexp f x <= k)%Z -> (2 ^ k <= round f x)%Q.
Proof.
  intros Hle He.
  pose proof (pow2_pos k) as Hk.
  assert (N : ~ (x == 0)%Q) by lra.
  rewrite (round_value f x N).
  pose proof (pow2_pos (fexp f x)) as Hp.
  assert (Hn : (2 ^ (k - fexp f x) <= nearest_even (x / 2 ^ fexp f x))%Z).
  { rewrite <- (nearest_even_Z (2 ^ (k - fexp f x))).
    apply nearest_even_mono. rewrite <- (scaled_pow2 k (fexp f x) He).
    apply Qmult_le_compat_r; [exact Hle|]. apply Qinv_le_0_compat. lra. }
  rewrite Zle_Qle in Hn. rewrite <- (scaled_pow2 k (fexp f x) He) in Hn.
  apply Qle_trans with (2 ^ k / 2 ^ fexp f x * 2 ^ fexp f x)%Q.
  - apply Qle_lteq. right. field. lra.
  - apply Qmult_le_compat_r; [exact Hn | lra].
Qed.

(** Rounding is monotone on the numbers above 0. *)
Lemma round_mono_pos (f : format) (x y : Q) :
  (1 <= prec f)%Z -> (0 < x)%Q -> (x <= y)%Q -> (round f x <= round f y)%Q.
Proof.
  intros Hprec Hx Hxy.
  assert (Nx : ~ (x == 0)%Q) by lra. assert (Ny : ~ (y == 0)%Q) by lra.
  assert (Hax : (Qabs x == x)%Q) by (apply Qabs_pos; lra).
  assert (Hay : (Qabs y == y)%Q) by (apply Qabs_pos; lra).
  assert (Hlog : (ilog2 x <= ilog2 y)%Z) by (apply ilog2_mono; [exact Nx | lra]).
  destruct (ilog2_spec x Nx) as [Hxl Hxu]. destruct (ilog2_spec y Ny) as [Hyl Hyu].
  destruct (Z.eq_dec (fexp f x) (fexp f y)) as [E|NE].
  - rewrite (round_value f x Nx), (round_value f y Ny), E.
    pose proof (pow2_pos (fexp f y)) as Hp.
    apply Qmult_le_compat_r; [|lra].
    rewrite <- Zle_Qle. apply nearest_even_mono.
    apply Qmult_le_compat_r; [exact Hxy|]. apply Qinv_le_0_compat. lra.
  - assert (Hlt : (ilog2 x < ilog2 y)%Z) by (unfold fexp in NE; lia).
    assert (Hey : fexp f y = (ilog2 y + 1 - prec f)%Z) by (unfold fexp in *; lia).
    apply Qle_trans with (2 ^ ilog2 y)%Q.
    + apply round_le_pow2; [exact Hx| |unfold fexp in *; lia].
      apply Qle_trans with (2 ^ (ilog2 x + 1))%Q; [lra|]. apply pow2_le. lia.
    + apply round_ge_pow2; [lra | lia].
Qed.

Lemma round_mono_nonneg (f : format) (x y : Q) :
  (1 <= prec f)%Z -> (0 <= x)%Q -> (x <= y)%Q -> (round f x <= round f y)%Q.
Proof.
  intros Hprec Hx Hxy. destruct (Qeq_dec x 0) as [E|N].
  - rewrite (round_comp f x 0 E), round_0. apply round_nonneg. lra.
  - apply round_mono_pos; [exact Hprec | lra | exact Hxy].
Qed.

Lemma Qred_inject_Z (n : Z) : Qred (inject_Z n) = inject_Z n.
Proof.
  unfold Qred, inject_Z.
  pose proof (Z.ggcd_gcd n 1) as Hg. pose proof (Z.ggcd_correct_divisors n 1) as Hd.
  destruct (Z.ggcd n 1) as [g [aa bb]]. cbn [fst snd] in *.
  rewrite Z.gcd_1_r in Hg. subst g. destruct Hd as [Ha Hb].
  assert (Hbb : bb = 1%Z) by lia. assert (Haa : aa = n) by lia.
  rewrite Hbb, Haa. reflexivity.
Qed.

(** An integer of fewer than [prec] bits is a value of the format. *)
Lemma round_Z (f : format) (n : Z) :
  (emin f <= 0)%Z -> (Z.abs n < 2 ^ prec f)%Z -> round f (inject_Z n) = inject_Z n.
Proof.
  intros Hemin Hn.
  destruct (Z.eq_dec n 0%Z) as [->|Hn0]; [reflexivity|].
  assert (N : ~ (inject_Z n == 0)%Q).
  { change 0%Q with (inject_Z 0). rewrite inject_Z_injective. exact Hn0. }
  assert (Hprec : (0 <= prec f)%Z).
  { destruct (Z.lt_ge_cases (prec f) 0) as [Hneg|]; [|assumption].
    rewrite (Z.pow_neg_r 2 (prec f) Hneg) in Hn. lia. }
  assert (Hlog : ilog2 (inject_Z n) = Z.log2 (Z.abs n)).
  { pose proof (Z.log2_spec (Z.abs n) ltac:(lia)) as [H1 H2].
    pose proof (Z.log2_nonneg (Z.abs n)).
    assert (Ha : (Qabs (inject_Z n) == inject_Z (Z.abs n))%Q) by reflexivity.
    apply ilog2_unique; rewrite Ha, pow2_Z by lia.
    - rewrite <- Zle_Qle. exact H1.
    - rewrite <- Zlt_Qlt. replace (Z.log2 (Z.abs n) + 1)%Z with (Z.succ (Z.log2 (Z.abs n))) by lia.
      exact H2. }
  assert (He : (fexp f (inject_Z n) <= 0)%Z).
  { unfold fexp. rewrite Hlog.
    assert (Z.log2 (Z.abs n) < prec f)%Z by (apply Z.log2_lt_pow2; lia).
    lia. }
  set (e := fexp f (inject_Z n)) in *.
  assert (Hscaled : (inject_Z n / 2 ^ e == inject_Z (n * 2 ^ (- e)))%Q).
  { rewrite inject_Z_mult, <- pow2_Z by lia.
    rewrite Qpower_opp. pose proof (pow2_pos e). field. lra. }
  assert (Hv : (round f (inject_Z n) == inject_Z n)%Q).
  { rewrite (round_value f _ N). fold e.
    rewrite (nearest_even_comp _ _ Hscaled), nearest_even_Z.
    rewrite inject_Z_mult, <- pow2_Z by lia.
    rewrite Qpower_opp. pose proof (pow2_pos e). field. lra. }
  unfold round in *. cbv zeta in *.
  destruct (Qnum (Qred (inject_Z n)) =? 0)%Z.
  - exfalso. apply N. rewrite Hv. reflexivity.
  - rewrite Qred_correct in Hv. rewrite (Qred_complete _ _ Hv). apply Qred_inject_Z.
Qed.

End IEEEFacts.

(** ** The resampler in binary64 arithmetic *)

Lemma IEEE_while_loop_step (buffer : list Q) (sampleRatio : Q) (newLength : Z) (st : LoopState) :
  IEEE.while_loop buffer sampleRatio newLength st
  = if loop_cond newLength st
    then IEEE.while_loop buffer sampleRatio newLength (IEEE.loop_body buffer sampleRatio st)
    else st.
Proof.
  unfold IEEE.while_loop at 1. rewrite Subterm.FixWf_unfold.
  - cbn [pr1 pr2]. unfold IEEE.while_loop_functional.
    destruct (inspect (loop_cond newLength st)) as [[] e]; simpl; rewrite e; reflexivity.
  - intros x f g Hfg. cbn [pr1 pr2]. unfold IEEE.while_loop_functional.
    destruct (inspect _) as [[] e]; simpl; [apply Hfg | reflexivity].
Qed.

Lemma IEEE_loop_body_offsetResult (buffer : list Q) (sampleRatio : Q) (st : LoopState) :
  offsetResult (IEEE.loop_body buffer sampleRatio st) = (offsetResult st + 1)%Z.
Proof. unfold IEEE.loop_body. destruct (IEEE.window_accum _ _ _). reflexivity. Qed.

Lemma IEEE_while_loop_iter (buffer : list Q) (sampleRatio : Q) (newLength : Z) (st : LoopState) :
  IEEE.while_loop buffer sampleRatio newLength st
  = Nat.iter (Z.to_nat (newLength - offsetResult st)) (IEEE.loop_body buffer sampleRatio) st.
Proof.
  remember (Z.to_nat (newLength - offsetResult st)) as m eqn:Hm.
  revert st Hm. induction m as [|m IH]; intros st Hm.
  - rewrite IEEE_while_loop_step. unfold loop_cond.
    destruct (Z.ltb_spec (offsetResult st) newLength); [lia | reflexivity].
  - rewrite IEEE_while_loop_step. unfold loop_cond.
    destruct (Z.ltb_spec (offsetResult st) newLength); [|lia].
    rewrite Nat.iter_succ_r. apply IH.
    rewrite IEEE_loop_body_offsetResult. lia.
Qed.

Lemma IEEE_iter_state (buffer : list Q) (sampleRatio : Q) (result0 : list Q) (k : nat) :
  Nat.iter k (IEEE.loop_body buffer sampleRatio)
    {| offsetResult := 0; offsetBuffer := 0; result := result0 |}
  = {| offsetResult := Z.of_nat k;
       offsetBuffer := IEEE.window_from sampleRatio k;
       result := for_range 0 k (fun j r => <[j := IEEE.stored buffer sampleRatio j]> r) result0 |}.
Proof.
  induction k as [|k IH].
  - reflexivity.
  - rewrite Nat.iter_succ, IH, for_range_S.
    unfold IEEE.loop_body, IEEE.stored, IEEE.window_to.
    cbn [offsetResult offsetBuffer result].
    destruct (IEEE.window_accum buffer (IEEE.window_from sampleRatio k) _) as [accum count].
    rewrite Nat2Z.id.
    f_equal; [lia|].
    unfold IEEE.window_from. f_equal. f_equal. f_equal. lia.
Qed.

Lemma IEEE_div_nonneg (a b : Q) : (0 <= a)%Q -> (0 <= b)%Q -> (0 <= IEEE.div a b)%Q.
Proof.
  intros Ha Hb. apply IEEEFacts.round_nonneg.
  destruct (Qeq_dec b 0) as [E|N].
  - rewrite E. unfold Qdiv. change (/ 0)%Q with 0%Q. lra.
  - apply Qle_shift_div_l; lra.
Qed.

Lemma IEEE_mul_nonneg (a b : Q) : (0 <= a)%Q -> (0 <= b)%Q -> (0 <= IEEE.mul a b)%Q.
Proof. intros Ha Hb. apply IEEEFacts.round_nonneg. now apply Qmult_le_0_compat. Qed.

Lemma inject_Z_nonneg (n : Z) : (0 <= n)%Z -> (0 <= inject_Z n)%Q.
Proof. intros H. change 0%Q with (inject_Z 0). now rewrite <- Zle_Qle. Qed.

Lemma IEEE_ratio_nonneg (inputRate outputRate : positive) :
  (0 <= IEEE.Spec.ratio inputRate outputRate)%Q.
Proof. apply IEEE_div_nonneg; apply inject_Z_nonneg; lia. Qed.

Lemma IEEE_outputLength_nonneg (ratio : Q) (len : nat) :
  (0 <= ratio)%Q -> (0 <= IEEE.Spec.outputLength ratio (Z.of_nat len))%Z.
Proof.
  intros Hr. apply Math_round_nonneg, IEEE_div_nonneg; [apply inject_Z_nonneg; lia | exact Hr].
Qed.

Lemma IEEE_downsampleBuffer_ne (buffer : list Q) (inputSampleRate outputSampleRate : positive) :
  inputSampleRate <> outputSampleRate ->
  let sampleRatio := IEEE.Spec.ratio inputSampleRate outputSampleRate in
  let newLength := IEEE.Spec.outputLength sampleRatio (Z.of_nat (length buffer)) in
  IEEE.downsampleBuffer buffer inputSampleRate outputSampleRate
  = map (IEEE.stored buffer sampleRatio) (seq 0 (Z.to_nat newLength)).
Proof.
  intros Hne sampleRatio newLength. unfold IEEE.downsampleBuffer.
  destruct (Pos.eqb_spec inputSampleRate outputSampleRate) as [|_]; [contradiction|].
  cbv zeta. fold (IEEE.Spec.ratio inputSampleRate outputSampleRate). fold sampleRatio.
  fold (IEEE.Spec.outputLength sampleRatio (Z.of_nat (length buffer))). fold newLength.
  rewrite IEEE_while_loop_iter. cbn [offsetResult].
  rewrite Z.sub_0_r, IEEE_iter_state. cbn [result].
  rewrite <- (length_replicate (Z.to_nat newLength) 0%Q) at 1.
  rewrite fill_all, length_replicate. reflexivity.
Qed.

Lemma IEEE_accum_fold (f : nat -> Q) (lo m : nat) (accum : Q) (count : Z) :
  fold_left (fun st i => let '(accum, count) := st in (IEEE.add accum (f i), (count + 1)%Z))
    (seq lo m) (accum, count)
  = (fold_left IEEE.add (map f (seq lo m)) accum, (count + Z.of_nat m)%Z).
Proof.
  revert lo accum count. induction m as [|m IH]; intros lo accum count.
  - simpl. f_equal. lia.
  - cbn [seq fold_left map]. rewrite IH. f_equal. lia.
Qed.

(** What the inner loop computes: the sum, in the order of the indices, and
    the number of the samples from [offsetBuffer] up to the earlier of
    [nextOffsetBuffer] and the end of the input. *)
Lemma IEEE_window_accum_spec (buffer : list Q) (offsetBuffer nextOffsetBuffer : Z) :
  (0 <= offsetBuffer)%Z ->
  let stop := Z.min nextOffsetBuffer (Z.of_nat (length buffer)) in
  let w := take (Z.to_nat stop - Z.to_nat offsetBuffer)
             (drop (Z.to_nat offsetBuffer) buffer) in
  IEEE.window_accum buffer offsetBuffer nextOffsetBuffer
  = (IEEE.Spec.sum w, Z.of_nat (Z.to_nat stop - Z.to_nat offsetBuffer)).
Proof.
  intros Hob stop w. unfold IEEE.window_accum, for_range. fold stop.
  rewrite (IEEE_accum_fold (f32_get buffer)). unfold IEEE.Spec.sum. f_equal.
  destruct (Nat.le_gt_cases (Z.to_nat stop) (Z.to_nat offsetBuffer)) as [Hle|Hgt].
  - subst w. replace (Z.to_nat stop - Z.to_nat offsetBuffer)%nat with 0%nat by lia.
    reflexivity.
  - subst w. rewrite map_f32_get; [reflexivity|]. subst stop. lia.
Qed.

Lemma IEEE_window_from_nonneg (sampleRatio : Q) (j : nat) :
  (0 <= sampleRatio)%Q -> (0 <= IEEE.window_from sampleRatio j)%Z.
Proof.
  intros Hr. destruct j as [|j]; [simpl; lia|].
  unfold IEEE.window_from. apply Math_round_nonneg, IEEE_mul_nonneg; [|exact Hr].
  apply inject_Z_nonneg. lia.
Qed.

(** The window of the code is the window of the specification. *)
Lemma IEEE_code_window_is_spec_window (buffer : list Q) (sampleRatio : Q) (j : nat) :
  (0 <= sampleRatio)%Q ->
  let len := Z.of_nat (length buffer) in
  let stop := Z.min (IEEE.window_to sampleRatio j) len in
  take (Z.to_nat stop - Z.to_nat (IEEE.window_from sampleRatio j))
    (drop (Z.to_nat (IEEE.window_from sampleRatio j)) buffer)
  = SpecDownsampler.window buffer
      (IEEE.Spec.window_start sampleRatio len j)
      (IEEE.Spec.window_end sampleRatio len j).
Proof.
  intros Hr len stop.
  pose proof (IEEE_window_from_nonneg sampleRatio j Hr) as Hfrom.
  unfold SpecDownsampler.window.
  assert (Hend : IEEE.Spec.window_end sampleRatio len j = stop) by reflexivity.
  rewrite Hend.
  assert (Hstart : IEEE.Spec.window_start sampleRatio len j
                   = Z.min (IEEE.window_from sampleRatio j) len).
  { destruct j as [|j]; [simpl; lia|].
    unfold IEEE.Spec.window_start, IEEE.Spec.window_end, IEEE.window_from.
    f_equal. f_equal. f_equal. f_equal. lia. }
  rewrite Hstart.
  destruct (Z.le_gt_cases (IEEE.window_from sampleRatio j) len) as [Hle|Hgt].
  - rewrite Z.min_l by exact Hle. f_equal. lia.
  - rewrite Z.min_r by lia.
    replace (Z.to_nat stop - Z.to_nat (IEEE.window_from sampleRatio j))%nat
      with 0%nat by (subst stop; lia).
    rewrite (drop_ge buffer (Z.to_nat len)) by (subst len; lia).
    rewrite take_nil. reflexivity.
Qed.

Lemma IEEE_stored_is_output (buffer : list Q) (sampleRatio : Q) (j : nat) :
  (0 <= sampleRatio)%Q ->
  IEEE.stored buffer sampleRatio j = IEEE.Spec.output buffer sampleRatio j.
Proof.
  intros Hr. unfold IEEE.stored, IEEE.Spec.output.
  rewrite IEEE_window_accum_spec by (apply IEEE_window_from_nonneg, Hr).
  cbv zeta. rewrite (IEEE_code_window_is_spec_window buffer sampleRatio j Hr).
  set (w := SpecDownsampler.window _ _ _).
  assert (Hlen : (Z.to_nat (Z.min (IEEE.window_to sampleRatio j) (Z.of_nat (length buffer)))
                  - Z.to_nat (IEEE.window_from sampleRatio j))%nat = length w
                 \/ w = []).
  { pose proof (IEEE_code_window_is_spec_window buffer sampleRatio j Hr) as Hw.
    cbv zeta in Hw. fold w in Hw.
    pose proof (f_equal length Hw) as Hl. rewrite length_take, length_drop in Hl.
    destruct w as [|y w']; [now right|]. left. cbn [length] in *. lia. }
  destruct w as [|y w'] eqn:Ew.
  - cbn [IEEE.Spec.mean]. destruct (0 <? _)%Z; [|reflexivity].
    reflexivity.
  - destruct Hlen as [Hlen|]; [|discriminate]. rewrite Hlen.
    cbn [IEEE.Spec.mean length]. reflexivity.
Qed.

Lemma IEEE_div_same (r : positive) :
  IEEE.div (inject_Z (Zpos r)) (inject_Z (Zpos r)) = 1%Q.
Proof.
  unfold IEEE.div, IEEE.binary64.
  rewrite (IEEEFacts.round_comp _ _ 1); [reflexivity|].
  field. change 0%Q with (inject_Z 0). rewrite inject_Z_injective. lia.
Qed.

Lemma IEEE_div_1 (n : Z) :
  (Z.abs n < 2 ^ 53)%Z -> IEEE.div (inject_Z n) 1 = inject_Z n.
Proof.
  intros Hn. unfold IEEE.div, IEEE.binary64.
  rewrite (IEEEFacts.round_comp _ _ (inject_Z n)) by field.
  apply IEEEFacts.round_Z; [cbn; lia | exact Hn].
Qed.

Lemma IEEE_downsampleBuffer_eq (x : list Q) (r : positive) :
  IEEE.downsampleBuffer x r r = x.
Proof. unfold IEEE.downsampleBuffer. now rewrite Pos.eqb_refl. Qed.

(** C5. Length law: for every input and every pair of rates, the length of
    the output is [round(len / (inRate / outRate))], the ratio and the
    quotient being the floating-point quotients that the program computes.
    (The length of a typed array is below 2^53.) *)
Theorem C5_length_law (x : list Q) (inRate outRate : positive) :
  (Z.of_nat (length x) < 2 ^ 53)%Z ->
  Z.of_nat (length (IEEE.downsampleBuffer x inRate outRate))
  = JS.Math_round
      (IEEE.div (inject_Z (Z.of_nat (length x)))
         (IEEE.div (inject_Z (Zpos inRate)) (inject_Z (Zpos outRate)))).
Proof.
  intros Hlen.
  destruct (Pos.eq_dec inRate outRate) as [->|Hne].
  - rewrite IEEE_downsampleBuffer_eq, IEEE_div_same, IEEE_div_1 by lia.
    now rewrite Math_round_Z.
  - rewrite IEEE_downsampleBuffer_ne by exact Hne.
    rewrite length_map, length_seq, Z2Nat.id; [reflexivity|].
    apply IEEE_outputLength_nonneg, IEEE_ratio_nonneg.
Qed.

Lemma C5_length_law_witness :
  (Z.of_nat (length (replicate 9 0%Q)) < 2 ^ 53)%Z
  /\ Z.of_nat (length (IEEE.downsampleBuffer (replicate 9 0%Q) 18 7))
     = JS.Math_round (IEEE.div (inject_Z (Z.of_nat (length (replicate 9 0%Q))))
                        (IEEE.div (inject_Z 18) (inject_Z 7))).
Proof.
  split; [reflexivity|].
  apply (C5_length_law (replicate 9 0%Q) 18 7). reflexivity.
Defined.

(** The floating-point quotients matter at a tie: 9 samples from 18 Hz to
    7 Hz give 3 outputs, where [9 / (18 / 7) = 7 / 2] computed exactly
    rounds to 4. *)
Lemma length_law_at_a_tie :
  length (IEEE.downsampleBuffer (replicate 9 0%Q) 18 7) = 3%nat
  /\ JS.Math_round (9 / (18 / 7)) = 4%Z.
Proof. split; vm_compute; reflexivity. Qed.

(** C6. When the rates differ, the output has [outputLength] elements and
    its element [j], for [j] from 0 to [outputLength - 1], is the arithmetic
    mean of the input window that starts at the end of the previous window
    (initially 0) and ends at [round((j+1) * ratio)] clamped to the input
    length; it is 0 when that window is empty.  The arithmetic is that of
    the program: the ratio and the product are floating-point operations,
    and the mean is the binary64 sum of the window, taken in the order of
    the indices, divided by its length and stored as a binary32 value. *)
Theorem C6_window_mean (x : list Q) (inputRate outputRate : positive) :
  inputRate <> outputRate ->
  let ratio := IEEE.Spec.ratio inputRate outputRate in
  let len := Z.of_nat (length x) in
  let outputLength := IEEE.Spec.outputLength ratio len in
  Forall2
    (fun y j =>
       y = IEEE.Spec.output x ratio j
       /\ (SpecDownsampler.window x
             (IEEE.Spec.window_start ratio len j)
             (IEEE.Spec.window_end ratio len j) = [] -> y = 0%Q))
    (IEEE.downsampleBuffer x inputRate outputRate)
    (seq 0 (Z.to_nat outputLength)).
Proof.
  intros Hne ratio len outputLength.
  rewrite IEEE_downsampleBuffer_ne by exact Hne.
  fold ratio. fold len. fold outputLength.
  apply Forall2_fmap_l, Forall_Forall2_diag, Forall_forall.
  intros j _. unfold compose.
  rewrite IEEE_stored_is_output by apply IEEE_ratio_nonneg.
  split; [reflexivity|].
  unfold IEEE.Spec.output. fold len. intros ->. reflexivity.
Qed.

Lemma C6_window_mean_witness :
  (48000 <> 16000)%positive
  /\ Forall2
       (fun y j =>
          y = IEEE.Spec.output [1; 2; 3; 4; 5; 6; 7]%Q (IEEE.Spec.ratio 48000 16000) j
          /\ (SpecDownsampler.window [1; 2; 3; 4; 5; 6; 7]%Q
                (IEEE.Spec.window_start (IEEE.Spec.ratio 48000 16000) 7 j)
                (IEEE.Spec.window_end (IEEE.Spec.ratio 48000 16000) 7 j) = [] -> y = 0%Q))
       (IEEE.downsampleBuffer [1; 2; 3; 4; 5; 6; 7]%Q 48000 16000)
       (seq 0 2).
Proof.
  split; [discriminate|].
  apply (C6_window_mean [1; 2; 3; 4; 5; 6; 7]%Q 48000 16000). discriminate.
Defined.

(** Rounding is part of what is stored: the one output for [1, 0, 0] from
    48000 Hz to 16000 Hz is the binary32 value nearest to 1/3, not 1/3.
    And the window ends are those of the floating-point products: of 60
    samples from 13 Hz to 6 Hz, sample 58 is averaged into output 27, as
    [27 * (13 / 6)] is below 58.5 in binary64, where the exactly computed
    end 59 of window 26 would put it into output 26. *)
Lemma window_mean_is_rounded :
  (IEEE.downsampleBuffer [1; 0; 0]%Q 48000 16000 = [11184811 # 33554432]%Q
   /\ (SpecDownsampler.output [1; 0; 0]%Q (48000 / 16000) 0 == 1 # 3)%Q)
  /\ (let x := <[58 := 6%Q]> (replicate 60 0%Q) in
      IEEE.downsampleBuffer x 13 6 !! 26%nat = Some 0%Q
      /\ IEEE.downsampleBuffer x 13 6 !! 27%nat = Some 3%Q
      /\ (SpecDownsampler.output x (13 / 6) 26 == 2)%Q
      /\ (SpecDownsampler.output x (13 / 6) 27 == 0)%Q).
Proof.
  split.
  - split; vm_compute; reflexivity.
  - cbv zeta. split; [vm_compute; reflexivity|].
    split; [vm_compute; reflexivity|].
    split; vm_compute; reflexivity.
Qed.

Lemma mul_mono_l (a b r : Q) :
  (0 <= a)%Q -> (a <= b)%Q -> (0 <= r)%Q -> (IEEE.mul a r <= IEEE.mul b r)%Q.
Proof.
  intros Ha Hab Hr. apply IEEEFacts.round_mono_nonneg; [cbn; lia | |].
  - now apply Qmult_le_0_compat.
  - apply Qmult_le_compat_r; assumption.
Qed.

Lemma IEEE_window_order (ratio : Q) (len : nat) (j : nat) :
  (0 <= ratio)%Q ->
  (0 <= IEEE.Spec.window_start ratio (Z.of_nat len) j
     <= IEEE.Spec.window_end ratio (Z.of_nat len) j)%Z
  /\ (IEEE.Spec.window_end ratio (Z.of_nat len) j <= Z.of_nat len)%Z.
Proof.
  intros Hr.
  assert (Hend : forall i, (0 <= IEEE.Spec.window_end ratio (Z.of_nat len) i)%Z).
  { intros i. unfold IEEE.Spec.window_end. apply Z.min_glb; [|lia].
    apply Math_round_nonneg, IEEE_mul_nonneg; [|exact Hr].
    apply inject_Z_nonneg. lia. }
  split; [|unfold IEEE.Spec.window_end; lia].
  destruct j as [|j]; cbn [IEEE.Spec.window_start].
  - split; [lia | apply Hend].
  - split; [apply Hend|].
    unfold IEEE.Spec.window_end. apply Z.min_le_compat_r.
    apply Math_round_mono, mul_mono_l; [| |exact Hr].
    + apply inject_Z_nonneg. lia.
    + rewrite <- Zle_Qle. lia.
Qed.

(** The windows of the first [n] outputs, one after the other, are the
    first samples of the input up to where output [n] would start. *)
Lemma IEEE_windows_tile (x : list Q) (ratio : Q) (n : nat) :
  (0 <= ratio)%Q ->
  let len := Z.of_nat (length x) in
  concat (map (fun j => SpecDownsampler.window x
                          (IEEE.Spec.window_start ratio len j)
                          (IEEE.Spec.window_end ratio len j))
            (seq 0 n))
  = take (Z.to_nat (IEEE.Spec.window_start ratio len n)) x.
Proof.
  intros Hr len. induction n as [|n IH].
  - reflexivity.
  - rewrite seq_S, map_app, concat_app, IH. cbn [map concat Nat.add].
    rewrite app_nil_r. unfold SpecDownsampler.window.
    cbn [IEEE.Spec.window_start].
    destruct (IEEE_window_order ratio (length x) n Hr) as [[H0 H1] _]. fold len in H0, H1.
    rewrite take_take_drop. f_equal. lia.
Qed.

Lemma ilog2_pow2 (k : Z) : IEEE.ilog2 (2 ^ k) = k.
Proof.
  pose proof (IEEEFacts.pow2_pos k) as Hk.
  assert (Ha : (Qabs (2 ^ k) == 2 ^ k)%Q) by (apply Qabs_pos; lra).
  apply IEEEFacts.ilog2_unique; rewrite Ha.
  - lra.
  - apply IEEEFacts.pow2_lt. lia.
Qed.

(** A power of two within the range of binary64 is not rounded below. *)
Lemma binary64_ge_pow2 (k : Z) (q : Q) :
  (-1074 <= k)%Z -> (2 ^ k <= q)%Q -> (2 ^ k <= IEEE.binary64 q)%Q.
Proof.
  intros Hk Hq. pose proof (IEEEFacts.pow2_pos k) as Hp.
  apply Qle_trans with (IEEE.binary64 (2 ^ k)).
  - apply IEEEFacts.round_ge_pow2; [lra|].
    unfold IEEE.fexp. rewrite ilog2_pow2. cbn. lia.
  - apply IEEEFacts.round_mono_pos; [cbn; lia | exact Hp | exact Hq].
Qed.

(** Rounding does not take a number below a small integer under it. *)
Lemma Math_round_binary64_ge (m : Z) (q : Q) :
  (0 <= m)%Z -> (inject_Z m <= q)%Q ->
  (Z.min m (2 ^ 53) <= JS.Math_round (IEEE.binary64 q))%Z.
Proof.
  intros Hm Hq.
  destruct (Z.lt_ge_cases m (2 ^ 53)) as [Hlt|Hge].
  - rewrite Z.min_l by lia. rewrite <- (Math_round_Z m) at 1.
    apply Math_round_mono.
    rewrite <- (IEEEFacts.round_Z IEEE.binary64_format m) by (cbn; lia).
    apply IEEEFacts.round_mono_nonneg; [cbn; lia | | exact Hq].
    apply inject_Z_nonneg, Hm.
  - rewrite Z.min_r by lia. rewrite <- (Math_round_Z (2 ^ 53)) at 1.
    apply Math_round_mono.
    rewrite <- (IEEEFacts.pow2_Z 53) by lia.
    apply binary64_ge_pow2; [lia|].
    rewrite (IEEEFacts.pow2_Z 53) by lia.
    apply Qle_trans with (inject_Z m); [|exact Hq]. rewrite <- Zle_Qle. exact Hge.
Qed.

Lemma IEEE_ratio_pos (inputRate outputRate : positive) :
  (Zpos outputRate < 2 ^ 53)%Z -> (0 < IEEE.Spec.ratio inputRate outputRate)%Q.
Proof.
  intros Hout. pose proof (IEEEFacts.pow2_pos (-53)) as Hp.
  apply Qlt_le_trans with (2 ^ (-53))%Q; [exact Hp|].
  apply binary64_ge_pow2; [lia|].
  assert (Ho : (0 < inject_Z (Zpos outputRate))%Q).
  { change 0%Q with (inject_Z 0). rewrite <- Zlt_Qlt. lia. }
  apply Qle_shift_div_l; [exact Ho|].
  assert (Ho2 : (inject_Z (Zpos outputRate) <= 2 ^ 53)%Q).
  { rewrite (IEEEFacts.pow2_Z 53) by lia. rewrite <- Zle_Qle. lia. }
  assert (Hi : (1 <= inject_Z (Zpos inputRate))%Q).
  { change 1%Q with (inject_Z 1). rewrite <- Zle_Qle. lia. }
  assert (Hinv : (2 ^ (-53) * 2 ^ 53 == 1)%Q).
  { rewrite <- IEEEFacts.pow2_plus. reflexivity. }
  apply Qle_trans with (2 ^ (-53) * 2 ^ 53)%Q; [|lra].
  apply Qmult_le_l; [exact Hp | exact Ho2].
Qed.

Lemma Qfloor_gt (q : Q) : (q - 1 < inject_Z (Qfloor q))%Q.
Proof.
  pose proof (Qlt_floor q) as H. rewrite inject_Z_plus in H.
  change (inject_Z 1) with 1%Q in H. lra.
Qed.

(** The samples that the windows of all the outputs leave out at the end of
    the input are fewer than [ratio + 1]. *)
Lemma IEEE_leftover (ratio : Q) (len : Z) :
  (0 < ratio)%Q -> (0 <= len < 2 ^ 53)%Z ->
  (IEEE.Spec.outputLength ratio len < 2 ^ 53)%Z ->
  (inject_Z len
   - inject_Z (IEEE.Spec.window_start ratio len
                 (Z.to_nat (IEEE.Spec.outputLength ratio len)))
   < ratio + 1)%Q.
Proof.
  intros Hr Hlen Hout.
  set (t := (inject_Z len / ratio)%Q).
  assert (Ht : (t * ratio == inject_Z len)%Q) by (subst t; field; lra).
  assert (Hlen0 : (0 <= inject_Z len)%Q) by (apply inject_Z_nonneg; lia).
  assert (Ht0 : (0 <= t)%Q) by (subst t; apply Qle_shift_div_l; lra).
  set (N := IEEE.Spec.outputLength ratio len) in *.
  assert (HN : (Qfloor t <= N)%Z).
  { assert (H0 : (0 <= Qfloor t)%Z) by (change 0%Z with (Qfloor 0); now apply Qfloor_resp_le).
    pose proof (Math_round_binary64_ge (Qfloor t) t H0 (Qfloor_le t)) as HG.
    unfold N, IEEE.Spec.outputLength, IEEE.div in *. fold t in Hout |- *. lia. }
  assert (HN0 : (0 <= N)%Z).
  { assert (0 <= Qfloor t)%Z by (change 0%Z with (Qfloor 0); now apply Qfloor_resp_le). lia. }
  assert (HNr : (inject_Z len - ratio < inject_Z N * ratio)%Q).
  { pose proof (Qfloor_gt t) as Hf. rewrite Zle_Qle in HN. nra. }
  destruct (Z.to_nat N) as [|n] eqn:En; cbn [IEEE.Spec.window_start].
  - assert (N = 0%Z) by lia. change (inject_Z 0) with 0%Q.
    rewrite H in HNr. change (inject_Z 0) with 0%Q in HNr. lra.
  - unfold IEEE.Spec.window_end.
    replace (Z.of_nat n + 1)%Z with N by lia.
    assert (HP0 : (0 <= inject_Z N * ratio)%Q).
    { apply Qmult_le_0_compat; [apply inject_Z_nonneg, HN0 | lra]. }
    assert (Hf0 : (0 <= Qfloor (inject_Z N * ratio))%Z)
      by (change 0%Z with (Qfloor 0); now apply Qfloor_resp_le).
    pose proof (Math_round_binary64_ge _ _ Hf0 (Qfloor_le (inject_Z N * ratio))) as HG.
    change (IEEE.binary64 (inject_Z N * ratio)) with (IEEE.mul (inject_Z N) ratio) in HG.
    pose proof (Qfloor_gt (inject_Z N * ratio)) as HfP.
    set (c := JS.Math_round (IEEE.mul (inject_Z N) ratio)) in *.
    destruct (Z.le_gt_cases len c) as [Hc|Hc].
    + rewrite Z.min_r by exact Hc. lra.
    + rewrite Z.min_l by lia.
      assert (Hfc : (Qfloor (inject_Z N * ratio) <= c)%Z) by lia.
      rewrite Zle_Qle in Hfc. lra.
Qed.

(** X11. When the rates differ, the outputs are the rounded means of
    consecutive, non-overlapping windows of the input, which put end to
    end are exactly its first [consumed] samples (the window ends, rounded
    floating-point products, never decrease); fewer than [ratio + 1]
    samples at the end of the input are left out.  The output rate, the
    length of the input and the length of the output are below 2^53. *)
Theorem X11_windows_tile_a_prefix (x : list Q) (inputRate outputRate : positive) :
  inputRate <> outputRate ->
  (Zpos outputRate < 2 ^ 53)%Z ->
  (Z.of_nat (length x) < 2 ^ 53)%Z ->
  let ratio := IEEE.Spec.ratio inputRate outputRate in
  let len := Z.of_nat (length x) in
  (IEEE.Spec.outputLength ratio len < 2 ^ 53)%Z ->
  let outputLength := Z.to_nat (IEEE.Spec.outputLength ratio len) in
  let consumed := IEEE.Spec.window_start ratio len outputLength in
  exists windows,
    Forall2 (fun y w => y = IEEE.fround (IEEE.Spec.mean w))
      (IEEE.downsampleBuffer x inputRate outputRate) windows
    /\ concat windows = take (Z.to_nat consumed) x
    /\ (0 <= consumed <= len)%Z
    /\ (inject_Z len - inject_Z consumed < ratio + 1)%Q.
Proof.
  intros Hne Hrate Hlen ratio len Hout outputLength consumed.
  assert (Hr : (0 <= ratio)%Q) by apply IEEE_ratio_nonneg.
  exists (map (fun j => SpecDownsampler.window x
                          (IEEE.Spec.window_start ratio len j)
                          (IEEE.Spec.window_end ratio len j))
            (seq 0 outputLength)).
  split; [|split; [|split]].
  - rewrite IEEE_downsampleBuffer_ne by exact Hne.
    fold ratio. fold len. fold outputLength.
    apply Forall2_fmap, Forall_Forall2_diag, Forall_forall.
    intros j _. now apply IEEE_stored_is_output.
  - apply IEEE_windows_tile, Hr.
  - subst consumed. destruct outputLength as [|m]; cbn [IEEE.Spec.window_start].
    + lia.
    + destruct (IEEE_window_order ratio (length x) m Hr) as [[H0 H1] H2].
      fold len in H0, H1, H2. lia.
  - apply IEEE_leftover; [apply IEEE_ratio_pos, Hrate | subst len; lia | exact Hout].
Qed.

Lemma X11_windows_tile_a_prefix_witness :
  exists windows,
    Forall2 (fun y w => y = IEEE.fround (IEEE.Spec.mean w))
      (IEEE.downsampleBuffer [1; 2; 3; 4; 5; 6; 7; 8; 9]%Q 18 7) windows
    /\ concat windows = take 8 [1; 2; 3; 4; 5; 6; 7; 8; 9]%Q
    /\ (0 <= 8 <= 9)%Z
    /\ (inject_Z 9 - inject_Z 8 < IEEE.Spec.ratio 18 7 + 1)%Q.
Proof.
  apply (X11_windows_tile_a_prefix [1; 2; 3; 4; 5; 6; 7; 8; 9]%Q 18 7);
    [discriminate | reflexivity | reflexivity | vm_compute; reflexivity].
Defined.

Lemma IEEE_ratio_integer (k outputRate : positive) :
  (Zpos k < 2 ^ 53)%Z ->
  IEEE.Spec.ratio (k * outputRate) outputRate = inject_Z (Zpos k).
Proof.
  intros Hk. unfold IEEE.Spec.ratio, IEEE.div, IEEE.binary64.
  rewrite (IEEEFacts.round_comp _ _ _ (integer_ratio k outputRate)).
  apply IEEEFacts.round_Z; [cbn; lia|].
  change (IEEE.prec IEEE.binary64_format) with 53%Z. lia.
Qed.

Lemma IEEE_window_end_integer (k : positive) (len : Z) (j : nat) :
  (0 <= len < 2 ^ 53)%Z ->
  IEEE.Spec.window_end (inject_Z (Zpos k)) len j
  = SpecDownsampler.window_end (inject_Z (Zpos k)) len j.
Proof.
  intros Hlen. unfold IEEE.Spec.window_end, SpecDownsampler.window_end.
  rewrite (Math_round_integer_multiple _ (inject_Z (Zpos k)) k) by reflexivity.
  set (a := (Z.of_nat j + 1)%Z).
  unfold IEEE.mul, IEEE.binary64.
  rewrite (IEEEFacts.round_comp _ _ (inject_Z (a * Zpos k)))
    by (rewrite inject_Z_mult; reflexivity).
  assert (Ha : (0 <= a * Zpos k)%Z) by lia.
  destruct (Z.lt_ge_cases (a * Zpos k) (2 ^ 53)) as [Hlt|Hge].
  - rewrite IEEEFacts.round_Z;
      [now rewrite Math_round_Z | cbn; lia | change (IEEE.prec IEEE.binary64_format) with 53%Z; lia].
  - pose proof (Math_round_binary64_ge (a * Zpos k) (inject_Z (a * Zpos k)) Ha
                  ltac:(apply Qle_refl)) as HG.
    unfold IEEE.binary64 in HG. lia.
Qed.

Lemma IEEE_window_start_integer (k : positive) (len : Z) (j : nat) :
  (0 <= len < 2 ^ 53)%Z ->
  IEEE.Spec.window_start (inject_Z (Zpos k)) len j
  = SpecDownsampler.window_start (inject_Z (Zpos k)) len j.
Proof.
  intros Hlen. destruct j as [|j]; [reflexivity|].
  cbn [IEEE.Spec.window_start SpecDownsampler.window_start].
  now apply IEEE_window_end_integer.
Qed.

(** X12. Decimation by an integer factor: when the input rate is [k] times
    the output rate, [k >= 2], output [j] is the mean of the [k] input
    samples from index [j * k] on (of those that exist, at the end of the
    input), computed in binary64 and rounded to binary32, and there are
    [round(len / k)] outputs, the quotient being a floating-point
    quotient.  The input rate and the length of the input are below
    2^53. *)
Theorem X12_integer_decimation (x : list Q) (k outputRate : positive) :
  (1 < k)%positive ->
  (Zpos (k * outputRate) < 2 ^ 53)%Z ->
  (Z.of_nat (length x) < 2 ^ 53)%Z ->
  let outputLength :=
    Z.to_nat (JS.Math_round
                (IEEE.div (inject_Z (Z.of_nat (length x))) (inject_Z (Zpos k)))) in
  Forall2
    (fun y j =>
       y = IEEE.fround (IEEE.Spec.mean (take (Pos.to_nat k) (drop (j * Pos.to_nat k) x))))
    (IEEE.downsampleBuffer x (k * outputRate) outputRate)
    (seq 0 outputLength).
Proof.
  intros Hk Hrate Hlen outputLength.
  assert (Hne : (k * outputRate)%positive <> outputRate) by nia.
  assert (Hk53 : (Zpos k < 2 ^ 53)%Z) by nia.
  rewrite IEEE_downsampleBuffer_ne by exact Hne.
  rewrite (IEEE_ratio_integer k outputRate Hk53).
  fold outputLength.
  apply Forall2_fmap_l, Forall_Forall2_diag, Forall_forall.
  intros j _. unfold compose.
  rewrite IEEE_stored_is_output by (apply inject_Z_nonneg; lia).
  unfold IEEE.Spec.output.
  rewrite IEEE_window_start_integer, IEEE_window_end_integer by lia.
  now rewrite (integer_window x (inject_Z (Zpos k)) k j).
Qed.

Lemma X12_integer_decimation_witness :
  (1 < 3)%positive
  /\ (Zpos (3 * 16000) < 2 ^ 53)%Z
  /\ (Z.of_nat (length [1; 0; 0; 4; 5; 6; 7]%Q) < 2 ^ 53)%Z
  /\ Forall2
       (fun y j =>
          y = IEEE.fround (IEEE.Spec.mean (take 3 (drop (j * 3) [1; 0; 0; 4; 5; 6; 7]%Q))))
       (IEEE.downsampleBuffer [1; 0; 0; 4; 5; 6; 7]%Q (3 * 16000) 16000)
       (seq 0 2).
Proof.
  split; [reflexivity|]. split; [reflexivity|]. split; [reflexivity|].
  apply (X12_integer_decimation [1; 0; 0; 4; 5; 6; 7]%Q 3 16000); reflexivity.
Defined.

(** ** Rounding errors *)

Lemma Qabs_le_iff (x y : Q) : (Qabs x <= y)%Q <-> (- y <= x /\ x <= y)%Q.
Proof. apply Qabs_Qle_condition. Qed.

(** The error of a rounding is at most half a unit in the last place:
    a fraction [2^-prec] of the number, or [2^(emin-1)] for a subnormal
    result. *)
Lemma round_error (f : IEEE.format) (q : Q) :
  (Qabs (IEEE.round f q - q) <= 2 ^ (- IEEE.prec f) * Qabs q + 2 ^ (IEEE.emin f - 1))%Q.
Proof.
  pose proof (IEEEFacts.pow2_pos (- IEEE.prec f)) as Hu.
  pose proof (IEEEFacts.pow2_pos (IEEE.emin f - 1)) as He.
  pose proof (Qabs_nonneg q) as Hq0.
  destruct (Qeq_dec q 0) as [E|N].
  - rewrite (IEEEFacts.round_comp f q 0 E), IEEEFacts.round_0.
    assert (Hz : (Qabs (0 - q) == 0)%Q) by (rewrite E; reflexivity).
    rewrite Hz. nra.
  - set (e := IEEE.fexp f q).
    pose proof (IEEEFacts.pow2_pos e) as Hpe.
    pose proof (IEEEFacts.nearest_even_bounds (q / 2 ^ e)) as [Hl Hh].
    assert (Hq : (q == q / 2 ^ e * 2 ^ e)%Q) by (field; lra).
    assert (Hhalf : (Qabs (IEEE.round f q - q) <= 2 ^ (e - 1))%Q).
    { rewrite (IEEEFacts.round_value f q N). fold e.
      assert (H2 : (2 ^ e == 2 * 2 ^ (e - 1))%Q).
      { rewrite <- IEEEFacts.pow2_succ. replace (e - 1 + 1)%Z with e by lia. reflexivity. }
      pose proof (IEEEFacts.pow2_pos (e - 1)) as Hpe1.
      apply Qabs_le_iff.
      set (n := inject_Z (IEEE.nearest_even (q / 2 ^ e))) in *.
      set (m := (q / 2 ^ e)%Q) in *.
      split.
      + assert ((m - n) * 2 ^ e <= (1 # 2) * 2 ^ e)%Q
          by (apply Qmult_le_compat_r; lra).
        lra.
      + assert ((n - m) * 2 ^ e <= (1 # 2) * 2 ^ e)%Q
          by (apply Qmult_le_compat_r; lra).
        lra. }
    apply Qle_trans with (2 ^ (e - 1))%Q; [exact Hhalf|].
    unfold e, IEEE.fexp.
    destruct (Z.max_spec (IEEE.ilog2 q + 1 - IEEE.prec f) (IEEE.emin f)) as [[_ ->]|[_ ->]].
    + nra.
    + destruct (IEEEFacts.ilog2_spec q N) as [Hlo _].
      replace (IEEE.ilog2 q + 1 - IEEE.prec f - 1)%Z
        with (- IEEE.prec f + IEEE.ilog2 q)%Z by lia.
      rewrite IEEEFacts.pow2_plus.
      assert (2 ^ (- IEEE.prec f) * 2 ^ IEEE.ilog2 q <= 2 ^ (- IEEE.prec f) * Qabs q)%Q
        by (apply Qmult_le_l; assumption).
      lra.
Qed.

(** The same for a number whose magnitude is at most [B]. *)
Lemma round_error_bound (f : IEEE.format) (q B : Q) :
  (- B <= q)%Q -> (q <= B)%Q ->
  (- (2 ^ (- IEEE.prec f) * B + 2 ^ (IEEE.emin f - 1)) <= IEEE.round f q - q
   /\ IEEE.round f q - q <= 2 ^ (- IEEE.prec f) * B + 2 ^ (IEEE.emin f - 1))%Q.
Proof.
  intros Hl Hh.
  pose proof (round_error f q) as H.
  pose proof (IEEEFacts.pow2_pos (- IEEE.prec f)) as Hu.
  assert (Hq : (Qabs q <= B)%Q) by (apply Qabs_le_iff; split; lra).
  assert (2 ^ (- IEEE.prec f) * Qabs q <= 2 ^ (- IEEE.prec f) * B)%Q
    by (apply Qmult_le_l; assumption).
  apply Qabs_le_iff in H. lra.
Qed.

(** The errors of a sum accumulated with a rounding [fl] whose error on a
    number of magnitude at most [B] is at most [u * B + eta]. *)
Section AccumulatedError.

Variable fl : Q -> Q.
Variables u eta : Q.
Hypothesis u_nonneg : (0 <= u)%Q.
Hypothesis eta_nonneg : (0 <= eta)%Q.
Hypothesis fl_error : forall q B : Q,
  (- B <= q)%Q -> (q <= B)%Q ->
  (- (u * B + eta) <= fl q - q /\ fl q - q <= u * B + eta)%Q.

Lemma sum_error (M : Q) (n : nat) (w : list Q) :
  (0 <= M)%Q ->
  (2 * inject_Z (Z.of_nat n) * u <= 1)%Q ->
  Forall (fun s => (- M <= s /\ s <= M)%Q) w ->
  forall (k : nat) (a t : Q),
    (k + length w <= n)%nat ->
    let c := (u * (inject_Z (Z.of_nat n) * M) + eta)%Q in
    (- (inject_Z (Z.of_nat k) * M) <= t /\ t <= inject_Z (Z.of_nat k) * M)%Q ->
    (- (2 * inject_Z (Z.of_nat k) * c) <= a - t /\ a - t <= 2 * inject_Z (Z.of_nat k) * c)%Q ->
    let r := (fold_left (fun acc x => fl (acc + x)) w a - (t + SpecDownsampler.sum w))%Q in
    (- (2 * inject_Z (Z.of_nat (k + length w)) * c) <= r
     /\ r <= 2 * inject_Z (Z.of_nat (k + length w)) * c)%Q.
Proof.
  intros HM Hnu Hw. induction Hw as [|x w Hx Hw IH]; intros k a t Hk c HS Ha r.
  - subst r. cbn [fold_left SpecDownsampler.sum fold_right length].
    rewrite Nat.add_0_r. lra.
  - cbn [length] in Hk.
    set (N := inject_Z (Z.of_nat n)) in *. set (K := inject_Z (Z.of_nat k)) in *.
    assert (HK0 : (0 <= K)%Q) by (subst K; change 0%Q with (inject_Z 0); rewrite <- Zle_Qle; lia).
    assert (HKN : (K + 1 <= N)%Q).
    { subst K N. change 1%Q with (inject_Z 1). rewrite <- inject_Z_plus, <- Zle_Qle. lia. }
    assert (HNM : (0 <= N * M)%Q) by (apply Qmult_le_0_compat; lra).
    assert (Hc0 : (0 <= c)%Q).
    { subst c. assert (0 <= u * (N * M))%Q by (apply Qmult_le_0_compat; lra). lra. }
    assert (HK1 : inject_Z (Z.of_nat (S k)) = inject_Z (Z.of_nat k + 1)) by (f_equal; lia).
    assert (HKc : (0 <= K * c)%Q) by (apply Qmult_le_0_compat; lra).
    assert (HKuc : (2 * K * u * c <= c)%Q).
    { assert (HKu : (2 * K * u <= 1)%Q).
      { assert (K * u <= N * u)%Q by (apply Qmult_le_compat_r; lra). lra. }
      assert ((2 * K * u) * c <= 1 * c)%Q by (apply Qmult_le_compat_r; lra).
      lra. }
    (* the magnitude of the exact result of the addition *)
    set (B := (N * M + 2 * K * c)%Q).
    assert (HB : (- B <= a + x /\ a + x <= B)%Q).
    { subst B.
      assert ((K + 1) * M <= N * M)%Q by (apply Qmult_le_compat_r; lra).
      lra. }
    destruct (fl_error (a + x) B (proj1 HB) (proj2 HB)) as [Hel Heh].
    assert (HuB : (u * B + eta == c + 2 * K * u * c)%Q) by (subst B c; ring).
    specialize (IH (S k) (fl (a + x)) (t + x)%Q ltac:(lia)). cbv zeta in IH.
    rewrite HK1, inject_Z_plus in IH. change (inject_Z 1) with 1%Q in IH. fold K c in IH.
    assert (IHS : (- ((K + 1) * M) <= t + x /\ t + x <= (K + 1) * M)%Q) by lra.
    assert (IHa : (- (2 * (K + 1) * c) <= fl (a + x) - (t + x)
                   /\ fl (a + x) - (t + x) <= 2 * (K + 1) * c)%Q) by lra.
    specialize (IH IHS IHa).
    subst r. cbn [fold_left SpecDownsampler.sum fold_right length].
    replace (k + S (length w))%nat with (S k + length w)%nat by lia.
    unfold SpecDownsampler.sum in IH. lra.
Qed.

End AccumulatedError.

Lemma binary64_error (q B : Q) :
  (- B <= q)%Q -> (q <= B)%Q ->
  (- ((1 # 9007199254740992) * B + 2 ^ (-1075)) <= IEEE.binary64 q - q
   /\ IEEE.binary64 q - q <= (1 # 9007199254740992) * B + 2 ^ (-1075))%Q.
Proof. exact (round_error_bound IEEE.binary64_format q B). Qed.

Lemma fround_error (q B : Q) :
  (- B <= q)%Q -> (q <= B)%Q ->
  (- ((1 # 16777216) * B + 2 ^ (-150)) <= IEEE.fround q - q
   /\ IEEE.fround q - q <= (1 # 16777216) * B + 2 ^ (-150))%Q.
Proof. exact (round_error_bound IEEE.binary32_format q B). Qed.

(** The rounded mean of a window of at most 2^20 samples of magnitude at
    most [M] is within [2^-23 * M + 2^-149] of its arithmetic mean. *)
Lemma mean_error (w : list Q) (M : Q) :
  (0 <= M)%Q ->
  (Z.of_nat (length w) <= 2 ^ 20)%Z ->
  Forall (fun s => (- M <= s /\ s <= M)%Q) w ->
  (Qabs (IEEE.fround (IEEE.Spec.mean w) - SpecDownsampler.mean w)
   <= (1 # 8388608) * M + 2 ^ (-149))%Q.
Proof.
  intros HM Hlen Hw.
  assert (Heta : (0 < 2 ^ (-1075))%Q) by apply IEEEFacts.pow2_pos.
  assert (Heta2 : (4 * 2 ^ (-1075) <= 2 ^ (-150))%Q).
  { change 4%Q with (2 ^ 2)%Q. rewrite <- IEEEFacts.pow2_plus. apply IEEEFacts.pow2_le. lia. }
  assert (Hth : (2 * 2 ^ (-150) == 2 ^ (-149))%Q).
  { rewrite <- IEEEFacts.pow2_succ. reflexivity. }
  assert (Hth0 : (0 < 2 ^ (-150))%Q) by apply IEEEFacts.pow2_pos.
  destruct w as [|s0 w'].
  - cbn [IEEE.Spec.mean SpecDownsampler.mean].
    change (IEEE.fround 0) with 0%Q.
    apply Qabs_le_iff. split; lra.
  - assert (Hm1 : IEEE.Spec.mean (s0 :: w')
                  = IEEE.div (IEEE.Spec.sum (s0 :: w'))
                      (inject_Z (Z.of_nat (length (s0 :: w'))))) by reflexivity.
    assert (Hm2 : SpecDownsampler.mean (s0 :: w')
                  = (SpecDownsampler.sum (s0 :: w')
                     / inject_Z (Z.of_nat (length (s0 :: w'))))%Q) by reflexivity.
    assert (Hne : (1 <= length (s0 :: w'))%nat) by (cbn [length]; lia).
    revert Hm1 Hm2 Hne Hlen Hw. generalize (s0 :: w'). clear s0 w'.
    intros w Hm1 Hm2 Hne Hlen Hw.
    set (n := length w) in *. set (N := inject_Z (Z.of_nat n)).
    assert (HN1 : (1 <= N)%Q).
    { subst N. change 1%Q with (inject_Z 1). rewrite <- Zle_Qle. lia. }
    assert (HN20 : (N <= 1048576)%Q).
    { subst N. change 1048576%Q with (inject_Z (2 ^ 20)).
      rewrite <- Zle_Qle. lia. }
    set (u := (1 # 9007199254740992)%Q). set (eta := (2 ^ (-1075))%Q) in *.
    set (c := (u * (N * M) + eta)%Q).
    assert (HNM : (N * M <= 1048576 * M)%Q) by (apply Qmult_le_compat_r; lra).
    assert (HNM0 : (0 <= N * M)%Q) by (apply Qmult_le_0_compat; lra).
    assert (Hc : (0 <= c /\ c <= (1 # 8589934592) * M + eta)%Q) by (subst c u; lra).
    (* the sum *)
    pose proof (sum_error IEEE.binary64 u eta ltac:(subst u; lra) ltac:(lra)
                  binary64_error M n w HM ltac:(fold N; subst u; lra) Hw
                  0%nat 0%Q 0%Q ltac:(lia)) as Hs.
    cbv zeta in Hs. fold N c in Hs.
    change (inject_Z (Z.of_nat 0)) with 0%Q in Hs.
    specialize (Hs ltac:(lra) ltac:(lra)).
    change (fold_left (fun acc x => IEEE.binary64 (acc + x)) w 0%Q) with (IEEE.Spec.sum w) in Hs.
    change (0 + length w)%nat with n in Hs. fold N in Hs.
    destruct (sum_bounds w (- M) M Hw) as [Hb1 Hb2]. fold n in Hb1, Hb2. fold N in Hb1, Hb2.
    set (s := IEEE.Spec.sum w) in *. set (e := SpecDownsampler.sum w) in *.
    (* the quotient *)
    assert (Hq : (s / N == e / N + (s - e) / N)%Q) by (field; lra).
    assert (He : (- M <= e / N /\ e / N <= M)%Q).
    { split; [apply Qle_shift_div_l | apply Qle_shift_div_r]; lra. }
    assert (Hd : (- (2 * c) <= (s - e) / N /\ (s - e) / N <= 2 * c)%Q).
    { split; [apply Qle_shift_div_l | apply Qle_shift_div_r]; lra. }
    destruct (binary64_error (s / N) (M + 2 * c) ltac:(lra) ltac:(lra)) as [Hd1 Hd2].
    fold u eta in Hd1, Hd2.
    set (d := IEEE.binary64 (s / N)) in *.
    set (D := (M + 2 * c + (u * (M + 2 * c) + eta))%Q).
    destruct (fround_error d D ltac:(subst D; lra) ltac:(subst D; lra)) as [Hf1 Hf2].
    rewrite Hm1, Hm2. fold n N s e.
    change (IEEE.div s N) with d.
    apply Qabs_le_iff. subst D u. split; lra.
Qed.

(** X22. What the rounding costs: when the rates differ, every output for
    a block of at most 2^20 samples of magnitude at most [M] is within
    [2^-23 * M + 2^-149] of the exact arithmetic mean of its window. *)
Theorem X22_output_near_mean (x : list Q) (inputRate outputRate : positive) (M : Q) :
  inputRate <> outputRate ->
  (0 <= M)%Q ->
  (Z.of_nat (length x) <= 2 ^ 20)%Z ->
  Forall (fun s => (- M <= s /\ s <= M)%Q) x ->
  let ratio := IEEE.Spec.ratio inputRate outputRate in
  let len := Z.of_nat (length x) in
  Forall2
    (fun y j =>
       (Qabs (y - SpecDownsampler.mean
                    (SpecDownsampler.window x
                       (IEEE.Spec.window_start ratio len j)
                       (IEEE.Spec.window_end ratio len j)))
        <= (1 # 8388608) * M + 2 ^ (-149))%Q)
    (IEEE.downsampleBuffer x inputRate outputRate)
    (seq 0 (Z.to_nat (IEEE.Spec.outputLength ratio len))).
Proof.
  intros Hne HM Hlen Hx ratio len.
  rewrite IEEE_downsampleBuffer_ne by exact Hne. fold ratio. fold len.
  apply Forall2_fmap_l, Forall_Forall2_diag, Forall_forall.
  intros j _. unfold compose.
  rewrite IEEE_stored_is_output by apply IEEE_ratio_nonneg.
  unfold IEEE.Spec.output. fold len.
  apply mean_error; [exact HM | | apply window_Forall, Hx].
  unfold SpecDownsampler.window. rewrite length_take, length_drop. lia.
Qed.

Lemma X22_output_near_mean_witness :
  Forall2
    (fun y j =>
       (Qabs (y - SpecDownsampler.mean
                    (SpecDownsampler.window [1; 0; 0; 1; 1; 1; 0]%Q
                       (IEEE.Spec.window_start (IEEE.Spec.ratio 48000 16000) 7 j)
                       (IEEE.Spec.window_end (IEEE.Spec.ratio 48000 16000) 7 j)))
        <= (1 # 8388608) * 1 + 2 ^ (-149))%Q)
    (IEEE.downsampleBuffer [1; 0; 0; 1; 1; 1; 0]%Q 48000 16000)
    (seq 0 2).
Proof.
  apply (X22_output_near_mean [1; 0; 0; 1; 1; 1; 0]%Q 48000 16000 1).
  - discriminate.
  - discriminate.
  - discriminate.
  - repeat constructor; discriminate.
Defined.

Lemma Math_round_near (a b : Q) :
  (a <= b + 1)%Q -> (b <= a + 1)%Q -> (Z.abs (JS.Math_round a - JS.Math_round b) <= 1)%Z.
Proof.
  intros H1 H2.
  assert (Hs : forall c, JS.Math_round (c + 1) = (JS.Math_round c + 1)%Z).
  { intros c. unfold JS.Math_round. apply Qfloor_unique.
    - pose proof (Qfloor_le (c + (1 # 2))). rewrite inject_Z_plus.
      change (inject_Z 1) with 1%Q. lra.
    - pose proof (Qlt_floor (c + (1 # 2))) as H. rewrite !inject_Z_plus in *.
      change (inject_Z 1) with 1%Q in *. lra. }
  pose proof (Math_round_mono a (b + 1) H1) as Ha. rewrite Hs in Ha.
  pose proof (Math_round_mono b (a + 1) H2) as Hb. rewrite Hs in Hb.
  lia.
Qed.

(** The floating-point quotients move the length by at most one. *)
Lemma outputLength_near_exact (inputRate outputRate : positive) (len : Z) :
  (Zpos inputRate < 2 ^ 53)%Z -> (Zpos outputRate < 2 ^ 53)%Z ->
  (0 <= len)%Z -> (len * Zpos outputRate <= 2 ^ 49 * Zpos inputRate)%Z ->
  (Z.abs (IEEE.Spec.outputLength (IEEE.Spec.ratio inputRate outputRate) len
          - JS.Math_round (inject_Z len
                           / (inject_Z (Zpos inputRate) / inject_Z (Zpos outputRate))))
   <= 1)%Z.
Proof.
  intros Hin Hout Hlen Hbound.
  set (i := inject_Z (Zpos inputRate)). set (o := inject_Z (Zpos outputRate)).
  set (L := inject_Z len).
  assert (Hi : (1 <= i)%Q) by (subst i; change 1%Q with (inject_Z 1); rewrite <- Zle_Qle; lia).
  assert (Ho : (1 <= o)%Q) by (subst o; change 1%Q with (inject_Z 1); rewrite <- Zle_Qle; lia).
  assert (Ho53 : (o <= 9007199254740992)%Q).
  { subst o. change 9007199254740992%Q with (inject_Z (2 ^ 53)). rewrite <- Zle_Qle. lia. }
  assert (HL : (0 <= L)%Q) by (subst L; apply inject_Z_nonneg, Hlen).
  assert (HLb : (L * o <= 562949953421312 * i)%Q).
  { subst L o i. change 562949953421312%Q with (inject_Z (2 ^ 49)).
    rewrite <- !inject_Z_mult, <- Zle_Qle. exact Hbound. }
  set (r := (i / o)%Q).
  assert (Hr : (r * o == i)%Q) by (subst r; field; lra).
  assert (Hr0 : (0 < r)%Q) by (subst r; apply Qlt_shift_div_l; lra).
  set (u := (1 # 9007199254740992)%Q).
  assert (Hru : (u <= r)%Q).
  { subst r. apply Qle_shift_div_l; [lra|]. subst u. lra. }
  assert (Heta : (0 < 2 ^ (-1075))%Q) by apply IEEEFacts.pow2_pos.
  assert (Heta2 : (2 ^ (-1075) <= u * u)%Q).
  { assert (Hu : (u == 2 ^ (-53))%Q) by reflexivity.
    rewrite Hu, <- IEEEFacts.pow2_plus. apply IEEEFacts.pow2_le. lia. }
  assert (Huu : (u * u <= u * r)%Q) by (apply Qmult_le_l; [subst u; reflexivity | exact Hru]).
  (* the ratio *)
  destruct (binary64_error r r ltac:(lra) ltac:(lra)) as [Hr1 Hr2]. fold u in Hr1, Hr2.
  change (IEEE.binary64 r) with (IEEE.Spec.ratio inputRate outputRate) in Hr1, Hr2.
  set (r' := IEEE.Spec.ratio inputRate outputRate) in *.
  assert (Hur : (0 <= u * r)%Q) by (apply Qmult_le_0_compat; [subst u; discriminate | lra]).
  assert (Hr'lo : ((1 - 2 * u) * r <= r')%Q) by lra.
  assert (Hr'hi : (r' <= (1 + 2 * u) * r)%Q) by lra.
  assert (Hr'0 : (0 < r')%Q).
  { apply Qlt_le_trans with ((1 - 2 * u) * r)%Q; [|exact Hr'lo].
    apply Qmult_lt_0_compat; [subst u; reflexivity | exact Hr0]. }
  (* the quotients *)
  set (t := (L / r)%Q). set (t' := (L / r')%Q).
  assert (Ht : (t * r == L)%Q) by (subst t; field; lra).
  assert (Ht' : (t' * r' == L)%Q) by (subst t'; field; lra).
  assert (Ht0 : (0 <= t)%Q) by (subst t; apply Qle_shift_div_l; lra).
  assert (Ht'0 : (0 <= t')%Q) by (subst t'; apply Qle_shift_div_l; lra).
  assert (Htb : (t <= 562949953421312)%Q).
  { subst t. apply Qle_shift_div_r; [exact Hr0|].
    apply Qmult_le_r with o; [lra|].
    assert (E : (562949953421312 * r * o == 562949953421312 * i)%Q) by (rewrite <- Hr; ring).
    rewrite E. exact HLb. }
  assert (H1 : (t' * (1 - 2 * u) <= t)%Q).
  { apply Qmult_le_r with r; [exact Hr0|].
    assert (((1 - 2 * u) * r) * t' <= r' * t')%Q by (apply Qmult_le_compat_r; lra).
    lra. }
  assert (H2 : (t <= t' * (1 + 2 * u))%Q).
  { apply Qmult_le_r with r; [exact Hr0|].
    assert (r' * t' <= ((1 + 2 * u) * r) * t')%Q by (apply Qmult_le_compat_r; lra).
    lra. }
  assert (Hut' : (0 <= u * t')%Q) by (apply Qmult_le_0_compat; [subst u; discriminate | lra]).
  assert (Ht'b : (t' <= 2 * t)%Q) by (subst u; lra).
  destruct (binary64_error t' t' ltac:(lra) ltac:(lra)) as [Hq1 Hq2]. fold u in Hq1, Hq2.
  unfold IEEE.Spec.outputLength. fold L. fold r'.
  change (IEEE.div L r') with (IEEE.binary64 t').
  fold r. fold t.
  assert (Hu2 : (u * u <= 1)%Q) by (subst u; discriminate).
  apply Math_round_near; subst u; lra.
Qed.

(** X23. The length of the output, computed with floating-point quotients,
    is within one of the exactly computed [round(len / (inRate / outRate))].
    The rates are below 2^53 and the exact quotient is at most 2^49. *)
Theorem X23_length_near_exact (x : list Q) (inRate outRate : positive) :
  (Zpos inRate < 2 ^ 53)%Z -> (Zpos outRate < 2 ^ 53)%Z ->
  (Z.of_nat (length x) * Zpos outRate <= 2 ^ 49 * Zpos inRate)%Z ->
  (Z.abs (Z.of_nat (length (IEEE.downsampleBuffer x inRate outRate))
          - JS.Math_round (inject_Z (Z.of_nat (length x))
                           / (inject_Z (Zpos inRate) / inject_Z (Zpos outRate))))
   <= 1)%Z.
Proof.
  intros Hin Hout Hbound.
  destruct (Pos.eq_dec inRate outRate) as [->|Hne].
  - rewrite IEEE_downsampleBuffer_eq.
    assert (E : (inject_Z (Z.of_nat (length x))
                 / (inject_Z (Zpos outRate) / inject_Z (Zpos outRate))
                 == inject_Z (Z.of_nat (length x)))%Q).
    { field. change 0%Q with (inject_Z 0). rewrite inject_Z_injective. lia. }
    rewrite (Math_round_comp _ _ E), Math_round_Z. lia.
  - rewrite IEEE_downsampleBuffer_ne by exact Hne.
    rewrite length_map, length_seq, Z2Nat.id
      by (apply IEEE_outputLength_nonneg, IEEE_ratio_nonneg).
    apply outputLength_near_exact; [exact Hin | exact Hout | lia | exact Hbound].
Qed.

Lemma X23_length_near_exact_witness :
  (Z.abs (Z.of_nat (length (IEEE.downsampleBuffer (replicate 9 0%Q) 18 7))
          - JS.Math_round (inject_Z (Z.of_nat (length (replicate 9 0%Q)))
                           / (inject_Z 18 / inject_Z 7)))
   <= 1)%Z.
Proof.
  apply (X23_length_near_exact (replicate 9 0%Q) 18 7);
    [reflexivity | reflexivity | vm_compute; discriminate].
Defined.
